(** * The imposter game server: session coordinator, connection registry
      and message protocol

    A shallow embedding of the backend of the imposter game
    ([GameManager.js], [PlayerManager.js], [RoomManager.js] and
    [MessageProtocol.js]) and the properties of its specification.

    Conventions of the embedding.
    - Every handler is run to completion as one atomic step: the server
      is single threaded and the in-memory mode (no Supabase client) is
      modelled, so the best-effort writes to the durable mirror are
      no-ops.
    - JavaScript strings are [string]s, one [ascii] per code unit below
      256.
    - [Date.now()] and [Math.random()] are inputs of the handlers.
    - An exception is a value of [error]; the state reached when it is
      thrown is kept, as in JavaScript.
    - A [send] on a socket that is open succeeds. *)

From Stdlib Require Import String Ascii List Bool Arith ZArith NArith Lia.
From Stdlib Require Import DecimalString Sorted.
Import ListNotations.
Local Open Scope string_scope.
Local Open Scope list_scope.

Set Implicit Arguments.

(* ===================================================================== *)
(** ** JavaScript values, strings and objects *)
(* ===================================================================== *)

Module Js.

(** The values a decoded JSON payload field can hold.  A number is
    kept as an integer: the code only inspects its type and whether it
    is zero.  [VObj] stands for any object or array. *)
Inductive value :=
| VUndefined
| VNull
| VBool (b : bool)
| VNum (z : Z)
| VStr (s : string)
| VObj.

Definition truthy (v : value) : bool :=
  match v with
  | VUndefined | VNull => false
  | VBool b => b
  | VNum z => negb (z =? 0)%Z
  | VStr s => negb (s =? "")
  | VObj => true
  end.

(** [a || b] *)
Definition or_else (a b : value) : value := if truthy a then a else b.

(** A plain object decoded from JSON: its own fields. *)
Definition object := list (string * value).

Fixpoint field (k : string) (o : object) : value :=
  match o with
  | [] => VUndefined
  | (k', v) :: o' => if k' =? k then v else field k o'
  end.

(** [k in o] *)
Fixpoint has_field (k : string) (o : object) : bool :=
  match o with
  | [] => false
  | (k', _) :: o' => (k' =? k) || has_field k o'
  end.

(** [String.prototype.trim]: the white space and line terminators
    below code unit 256. *)
Definition is_space (c : ascii) : bool :=
  match nat_of_ascii c with
  | 9 | 10 | 11 | 12 | 13 | 32 | 160 => true
  | _ => false
  end.

Fixpoint trimStart (s : string) : string :=
  match s with
  | EmptyString => EmptyString
  | String c r => if is_space c then trimStart r else s
  end.

Fixpoint trimEnd (s : string) : string :=
  match s with
  | EmptyString => EmptyString
  | String c r =>
      match trimEnd r with
      | EmptyString => if is_space c then EmptyString else String c EmptyString
      | r' => String c r'
      end
  end.

Definition trim (s : string) : string := trimEnd (trimStart s).

(** [\d] without the unicode flag: an ASCII digit. *)
Definition is_digit (c : ascii) : bool :=
  let n := nat_of_ascii c in ((48 <=? n) && (n <=? 57))%nat.

(** [/^\d{3}$/.test(s)] *)
Definition three_digits (s : string) : bool :=
  match s with
  | String a (String b (String c EmptyString)) =>
      is_digit a && is_digit b && is_digit c
  | _ => false
  end.

(** An array index (ECMAScript 6.1.7): a canonical numeric string whose
    value is an integer between 0 and 2^32 - 2. *)
Definition decimal (n : N) : string := NilZero.string_of_uint (N.to_uint n).

Definition array_index (s : string) : option N :=
  match NilZero.uint_of_string s with
  | Some u =>
      let n := N.of_uint u in
      if (decimal n =? s) && (n <=? 4294967294)%N then Some n else None
  | None => None
  end.

(** The members of [Object.prototype], which every object literal
    inherits. *)
Definition object_prototype_members : list string :=
  [ "constructor"; "__defineGetter__"; "__defineSetter__";
    "hasOwnProperty"; "__lookupGetter__"; "__lookupSetter__";
    "isPrototypeOf"; "propertyIsEnumerable"; "toString"; "valueOf";
    "__proto__"; "toLocaleString" ].

Definition inherited (k : string) : bool :=
  existsb (String.eqb k) object_prototype_members.

(** *** Own properties in property order

    [Object.entries] lists the own properties of an ordinary object
    with the array indices first, in ascending numeric order, and the
    other string keys after them, in the order of their creation.  A
    [props V] is the list of own properties in that order. *)
Section Props.
Variable V : Type.

Definition props := list (string * V).

Fixpoint get (k : string) (o : props) : option V :=
  match o with
  | [] => None
  | (k', v) :: o' => if k' =? k then Some v else get k o'
  end.

Fixpoint replace (k : string) (v : V) (o : props) : props :=
  match o with
  | [] => []
  | (k', v') :: o' =>
      if k' =? k then (k, v) :: o' else (k', v') :: replace k v o'
  end.

(** A new array index [i] goes before the first property that is not
    a smaller array index. *)
Fixpoint insert_index (i : N) (k : string) (v : V) (o : props) : props :=
  match o with
  | [] => [(k, v)]
  | (k', v') :: o' =>
      match array_index k' with
      | Some j =>
          if (j <? i)%N then (k', v') :: insert_index i k v o'
          else (k, v) :: o
      | None => (k, v) :: o
      end
  end.

(** [o[k] = v] on own properties *)
Definition set (k : string) (v : V) (o : props) : props :=
  match get k o with
  | Some _ => replace k v o
  | None =>
      match array_index k with
      | Some i => insert_index i k v o
      | None => o ++ [(k, v)]
      end
  end.

Definition keys (o : props) : list string := map fst o.
End Props.

(** *** A [Map]: entries in insertion order, one per key *)
Section JsMap.
Variable V : Type.

Definition jsmap := list (string * V).

Definition map_get (k : string) (m : jsmap) : option V := get k m.

Definition map_has (k : string) (m : jsmap) : bool :=
  match get k m with Some _ => true | None => false end.

Definition map_set (k : string) (v : V) (m : jsmap) : jsmap :=
  match get k m with
  | Some _ => replace k v m
  | None => m ++ [(k, v)]
  end.

Definition map_delete (k : string) (m : jsmap) : jsmap :=
  filter (fun e => negb (fst e =? k)) m.

Definition map_values (m : jsmap) : list V := map snd m.
End JsMap.

(** *** A [Set] of strings: members in insertion order *)
Definition jsset := list string.

Definition set_has (x : string) (s : jsset) : bool := existsb (String.eqb x) s.

Definition set_add (x : string) (s : jsset) : jsset :=
  if set_has x s then s else s ++ [x].

Definition set_delete (x : string) (s : jsset) : jsset :=
  filter (fun y => negb (y =? x)) s.

End Js.

(* ===================================================================== *)
(** ** Exceptions, state and sent messages *)
(* ===================================================================== *)

(** An [Error] is identified by its message. *)
Definition error := string.

(** A computation over a state [S] that sends messages of type [O] and
    either returns or throws.  The state and the messages sent before a
    throw are kept. *)
Section Monad.
Variables S O : Type.

Definition M (A : Type) : Type := S -> S * list O * (error + A).

Definition ret {A} (a : A) : M A := fun s => (s, [], inr a).

Definition throw {A} (e : error) : M A := fun s => (s, [], inl e).

Definition bind {A B} (m : M A) (k : A -> M B) : M B :=
  fun s =>
    match m s with
    | (s1, o1, inl e) => (s1, o1, inl e)
    | (s1, o1, inr a) =>
        match k a s1 with
        | (s2, o2, r) => (s2, o1 ++ o2, r)
        end
    end.

Definition get : M S := fun s => (s, [], inr s).

Definition put (s : S) : M unit := fun _ => (s, [], inr tt).

Definition modify (f : S -> S) : M unit := fun s => (f s, [], inr tt).

Definition emit (o : list O) : M unit := fun s => (s, o, inr tt).

(** [try { m } catch (e) { h e }] *)
Definition try_catch {A} (m : M A) (h : error -> M A) : M A :=
  fun s =>
    match m s with
    | (s1, o1, inl e) =>
        match h e s1 with
        | (s2, o2, r) => (s2, o1 ++ o2, r)
        end
    | r => r
    end.
End Monad.

Arguments ret {S O A} a.
Arguments throw {S O A} e.
Arguments bind {S O A B} m k.
Arguments get {S O}.
Arguments put {S O} s.
Arguments modify {S O} f.
Arguments emit {S O} o.
Arguments try_catch {S O A} m h.

Declare Scope js_scope.
Delimit Scope js_scope with js.
Notation "x <- m ;; k" := (bind m (fun x => k))
  (at level 61, m at next level, right associativity) : js_scope.
Notation "m ;; k" := (bind m (fun _ => k))
  (at level 61, right associativity) : js_scope.

Definition state_of {S O A} (r : S * list O * (error + A)) : S := fst (fst r).
Definition sent_of {S O A} (r : S * list O * (error + A)) : list O := snd (fst r).
Definition result_of {S O A} (r : S * list O * (error + A)) : error + A := snd r.

(* ===================================================================== *)
(** ** GameManager.js: the session coordinator *)
(* ===================================================================== *)

(** The five phases, ['waiting'] to ['results'].  Every caller of
    [transitionPhase] passes one of them: the handlers pass literals and
    [handleForcePhaseTransition] checks the phase it is sent against
    [validPhases]. *)
Inductive Phase := Waiting | Question | Discussion | Voting | ResultsPhase.

Definition Phase_eqb (a b : Phase) : bool :=
  match a, b with
  | Waiting, Waiting | Question, Question | Discussion, Discussion
  | Voting, Voting | ResultsPhase, ResultsPhase => true
  | _, _ => false
  end.

Module Vote.
Record t := { playerId : string; targetId : string; timestamp : Z }.
End Vote.

(** What [voteCounts] holds under a key.  [Num n] is a count.  [Text] is
    the string that [(voteCounts[k] || 0) + 1] leaves when [k] names an
    inherited member of [Object.prototype]: the member is a function,
    and a function plus one is a text that converts to no number. *)
Inductive Count := Num (n : nat) | Text.

Module Results.
Record t := {
  voteCounts : Js.props Count;
  mostVotedPlayer : option string;
  imposter : option string;
  playersWon : bool;
  totalVotes : nat
}.
End Results.

(** A player object is shared between the registry and the game state:
    [players] holds references (addresses in the registry's store). *)
Module GameState.
Record t := {
  phase : Phase;
  players : list nat;
  imposter : option string;
  questionId : option Z;
  discussionEndsAt : option Z;
  votes : list Vote.t;
  results : option Results.t
}.
End GameState.

Module PublicView.
Record t := {
  phase : Phase;
  players : list nat;
  questionId : option Z;
  discussionEndsAt : option Z;
  votesReceived : nat;
  totalPlayers : nat;
  results : option Results.t
}.
End PublicView.

(** The messages the coordinator hands to its broadcast callback. *)
Inductive Broadcast :=
| phase_change (phase previousPhase : Phase) (gameState : PublicView.t)
    (timestamp : Z)
| vote_progress (votesReceived totalPlayers : nat) (allVotesReceived : bool)
    (timestamp : Z).

(** An armed [setTimeout] of the coordinator: on expiry it calls
    [transitionPhase target]. *)
Module Timer.
Record t := { id : nat; delay : Z; target : Phase }.
End Timer.

(** The second argument of [transitionPhase]. *)
Module PhaseData.
Record t := { questionId : option Z; imposter : option string }.
Definition none : t := {| questionId := None; imposter := None |}.
End PhaseData.

(** A row of the [games] table, as [initializeGame] reads it. *)
Module GameRow.
Record t := {
  phase : option Phase;
  question_id : option Z;
  imposter_id : option string
}.
End GameRow.

Module GameManager.
Import GameState.

Record t := {
  gameState : GameState.t;
  phaseTimer : option nat;
  armed : list Timer.t;
  nextTimer : nat
}.

Definition discussionDuration : Z := 120000.
Definition votingTimeout : Z := 60000.

Definition constructor : t :=
  {| gameState :=
       {| phase := Waiting; players := []; imposter := None;
          questionId := None; discussionEndsAt := None; votes := [];
          results := None |};
     phaseTimer := None; armed := []; nextTimer := 0 |}.

Definition with_gameState (f : GameState.t -> GameState.t) (g : t) : t :=
  {| gameState := f (gameState g); phaseTimer := phaseTimer g;
     armed := armed g; nextTimer := nextTimer g |}.

(** [initializeGame]: the latest row of the [games] table, if any. *)
Definition initializeGame (gameData : option GameRow.t) (g : t) : t :=
  match gameData with
  | Some row =>
      with_gameState (fun gs =>
        {| phase := match GameRow.phase row with Some p => p | None => Waiting end;
           players := players gs;
           imposter := GameRow.imposter_id row;
           questionId := GameRow.question_id row;
           discussionEndsAt := discussionEndsAt gs;
           votes := votes gs;
           results := results gs |}) g
  | None => g
  end.

(** [clearTimeout(this.phaseTimer); this.phaseTimer = null] *)
Definition clearPhaseTimer (g : t) : t :=
  match phaseTimer g with
  | Some i =>
      {| gameState := gameState g; phaseTimer := None;
         armed := filter (fun x => negb (Timer.id x =? i)%nat) (armed g);
         nextTimer := nextTimer g |}
  | None => g
  end.

(** [this.phaseTimer = setTimeout(() => this.transitionPhase(target), delay)] *)
Definition armPhaseTimer (delay : Z) (target : Phase) (g : t) : t :=
  {| gameState := gameState g;
     phaseTimer := Some (nextTimer g);
     armed := armed g ++
              [{| Timer.id := nextTimer g; Timer.delay := delay;
                  Timer.target := target |}];
     nextTimer := S (nextTimer g) |}.

(** The tally loop of [calculateVoteResults]:
    [voteCounts[t] = (voteCounts[t] || 0) + 1]. *)
Definition countVote (voteCounts : Js.props Count) (vote : Vote.t)
  : Js.props Count :=
  let t := Vote.targetId vote in
  match Js.get t voteCounts with
  | Some (Num n) => Js.set t (Num (n + 1)) voteCounts
  | Some Text => Js.set t Text voteCounts
  | None =>
      if t =? "__proto__" then voteCounts
      else if Js.inherited t then Js.set t Text voteCounts
      else Js.set t (Num 1) voteCounts
  end.

(** The search loop: [if (count > maxVotes) { maxVotes = count;
    mostVotedPlayer = playerId }]. *)
Definition moreVotes (best : option string * nat) (entry : string * Count)
  : option string * nat :=
  match snd entry with
  | Num count =>
      if (snd best <? count)%nat then (Some (fst entry), count) else best
  | Text => best
  end.

Definition option_string_eqb (a b : option string) : bool :=
  match a, b with
  | Some x, Some y => x =? y
  | None, None => true
  | _, _ => false
  end.

Definition calculateVoteResults (gs : GameState.t) : Results.t :=
  let voteCounts := fold_left countVote (votes gs) [] in
  let mostVotedPlayer := fst (fold_left moreVotes voteCounts (None, 0)) in
  {| Results.voteCounts := voteCounts;
     Results.mostVotedPlayer := mostVotedPlayer;
     Results.imposter := imposter gs;
     Results.playersWon := option_string_eqb mostVotedPlayer (imposter gs);
     Results.totalVotes := length (votes gs) |}.

Definition getPublicGameState (g : t) : PublicView.t :=
  let gs := gameState g in
  {| PublicView.phase := phase gs;
     PublicView.players := players gs;
     PublicView.questionId := questionId gs;
     PublicView.discussionEndsAt := discussionEndsAt gs;
     PublicView.votesReceived := length (votes gs);
     PublicView.totalPlayers := length (players gs);
     PublicView.results := results gs |}.

Definition getGameState (g : t) : GameState.t := gameState g.

Definition updatePlayers (ps : list nat) (g : t) : t :=
  with_gameState (fun gs =>
    {| phase := phase gs; players := ps; imposter := imposter gs;
       questionId := questionId gs; discussionEndsAt := discussionEndsAt gs;
       votes := votes gs; results := results gs |}) g.

Definition set_phase (p : Phase) (gs : GameState.t) : GameState.t :=
  {| phase := p; players := players gs; imposter := imposter gs;
     questionId := questionId gs; discussionEndsAt := discussionEndsAt gs;
     votes := votes gs; results := results gs |}.

Definition handleQuestionPhase (data : PhaseData.t) (g : t) : t :=
  with_gameState (fun gs =>
    {| phase := phase gs; players := players gs;
       imposter := match PhaseData.imposter data with
                   | Some i => if i =? "" then imposter gs else Some i
                   | None => imposter gs
                   end;
       questionId := match PhaseData.questionId data with
                     | Some q => if (q =? 0)%Z then questionId gs else Some q
                     | None => questionId gs
                     end;
       discussionEndsAt := discussionEndsAt gs;
       votes := votes gs; results := results gs |}) g.

Definition handleDiscussionPhase (now : Z) (g : t) : t :=
  armPhaseTimer discussionDuration Voting
    (with_gameState (fun gs =>
       {| phase := phase gs; players := players gs; imposter := imposter gs;
          questionId := questionId gs;
          discussionEndsAt := Some (now + discussionDuration)%Z;
          votes := votes gs; results := results gs |}) g).

Definition handleVotingPhase (g : t) : t :=
  armPhaseTimer votingTimeout ResultsPhase
    (with_gameState (fun gs =>
       {| phase := phase gs; players := players gs; imposter := imposter gs;
          questionId := questionId gs; discussionEndsAt := None;
          votes := []; results := results gs |}) g).

Definition handleResultsPhase (g : t) : t :=
  armPhaseTimer 30000 Waiting
    (with_gameState (fun gs =>
       {| phase := phase gs; players := players gs; imposter := imposter gs;
          questionId := questionId gs;
          discussionEndsAt := discussionEndsAt gs;
          votes := votes gs;
          results := Some (calculateVoteResults gs) |}) g).

Definition handleWaitingPhase (g : t) : t :=
  with_gameState (fun gs =>
    {| phase := phase gs; players := players gs; imposter := None;
       questionId := None; discussionEndsAt := None; votes := [];
       results := None |}) g.

Local Open Scope js_scope.

Definition transitionPhase (now : Z) (newPhase : Phase) (data : PhaseData.t)
  : M t Broadcast unit :=
  g <- get ;;
  let previousPhase := phase (gameState g) in
  modify (with_gameState (set_phase newPhase)) ;;
  modify clearPhaseTimer ;;
  modify (match newPhase with
          | Question => handleQuestionPhase data
          | Discussion => handleDiscussionPhase now
          | Voting => handleVotingPhase
          | ResultsPhase => handleResultsPhase
          | Waiting => handleWaitingPhase
          end) ;;
  g' <- get ;;
  emit [phase_change newPhase previousPhase (getPublicGameState g') now].

Definition handleVote (now : Z) (playerId targetId : string)
  : M t Broadcast unit :=
  g <- get ;;
  if negb (Phase_eqb (phase (gameState g)) Voting)
  then throw "Voting is not currently active"
  else
    match find (fun vote => Vote.playerId vote =? playerId)
               (votes (gameState g)) with
    | Some _ => throw "Player has already voted"
    | None =>
        modify (with_gameState (fun gs =>
          {| phase := phase gs; players := players gs;
             imposter := imposter gs; questionId := questionId gs;
             discussionEndsAt := discussionEndsAt gs;
             votes := votes gs ++
                      [{| Vote.playerId := playerId;
                          Vote.targetId := targetId;
                          Vote.timestamp := now |}];
             results := results gs |})) ;;
        g1 <- get ;;
        let received := length (votes (gameState g1)) in
        let total := length (players (gameState g1)) in
        emit [vote_progress received total (total <=? received)%nat now] ;;
        if (total <=? received)%nat
        then modify clearPhaseTimer ;;
             transitionPhase now ResultsPhase PhaseData.none
        else ret tt
    end.

(** A timer of the coordinator expires: its callback runs, unless it
    was cleared. *)
Definition fireTimeout (now : Z) (i : nat) : M t Broadcast unit :=
  g <- get ;;
  match find (fun x => (Timer.id x =? i)%nat) (armed g) with
  | Some x =>
      put {| gameState := gameState g; phaseTimer := phaseTimer g;
             armed := filter (fun y => negb (Timer.id y =? i)%nat) (armed g);
             nextTimer := nextTimer g |} ;;
      transitionPhase now (Timer.target x) PhaseData.none
  | None => ret tt
  end.

Definition cleanup (g : t) : t := clearPhaseTimer g.

End GameManager.

(* ===================================================================== *)
(** ** RoomManager.js: room membership *)
(* ===================================================================== *)

(** [x] when [x] is a non-empty string, [null] otherwise: [x || null]. *)
Definition nonempty (x : option string) : option string :=
  match x with
  | Some s => if s =? "" then None else Some s
  | None => None
  end.

Module Room.
Record t := {
  code : string;
  players : Js.jsset;
  clients : Js.jsset;
  hostId : option string;
  createdAt : Z
}.
End Room.

Module RoomManager.
Import Room.

(** [this.rooms] *)
Definition t := Js.jsmap Room.t.

Definition constructor : t := [].

Definition getRoom (code : string) (rooms : t) : option Room.t :=
  Js.map_get code rooms.

Definition ensureRoom (now : Z) (code : string) (rooms : t) : t :=
  if Js.map_has code rooms then rooms
  else Js.map_set code
         {| Room.code := code; players := []; clients := [];
            hostId := None; createdAt := now |} rooms.

Definition is_empty (room : Room.t) : bool :=
  (length (clients room) =? 0)%nat && (length (players room) =? 0)%nat.

Definition addClientToRoom (now : Z) (code clientId : string) (rooms : t) : t :=
  let rooms := ensureRoom now code rooms in
  match Js.map_get code rooms with
  | Some room =>
      Js.map_set code
        {| Room.code := Room.code room; players := players room;
           clients := Js.set_add clientId (clients room);
           hostId := hostId room; createdAt := createdAt room |} rooms
  | None => rooms
  end.

Definition removeClientFromRoom (code clientId : string) (rooms : t) : t :=
  match Js.map_get code rooms with
  | None => rooms
  | Some room =>
      let room' :=
        {| Room.code := Room.code room; players := players room;
           clients := Js.set_delete clientId (clients room);
           hostId := hostId room; createdAt := createdAt room |} in
      if is_empty room' then Js.map_delete code rooms
      else Js.map_set code room' rooms
  end.

Definition addPlayerToRoom (now : Z) (code playerId : string)
    (makeHostIfFirst : bool) (rooms : t) : t :=
  let rooms := ensureRoom now code rooms in
  match Js.map_get code rooms with
  | Some room =>
      let ps := Js.set_add playerId (players room) in
      Js.map_set code
        {| Room.code := Room.code room; players := ps;
           clients := clients room;
           hostId := match nonempty (hostId room) with
                     | Some h => Some h
                     | None => if makeHostIfFirst then Some playerId
                               else hostId room
                     end;
           createdAt := createdAt room |} rooms
  | None => rooms
  end.

Definition removePlayerFromRoom (code playerId : string) (rooms : t) : t :=
  match Js.map_get code rooms with
  | None => rooms
  | Some room =>
      let ps := Js.set_delete playerId (players room) in
      let room' :=
        {| Room.code := Room.code room; players := ps;
           clients := clients room;
           hostId := match hostId room with
                     | Some h => if h =? playerId
                                 then nonempty (hd_error ps)
                                 else Some h
                     | None => None
                     end;
           createdAt := createdAt room |} in
      if is_empty room' then Js.map_delete code rooms
      else Js.map_set code room' rooms
  end.

Definition listPlayers (code : string) (rooms : t) : list string :=
  match Js.map_get code rooms with
  | Some room => players room
  | None => []
  end.

Definition listClients (code : string) (rooms : t) : list string :=
  match Js.map_get code rooms with
  | Some room => clients room
  | None => []
  end.

Definition roomExists (code : string) (rooms : t) : bool :=
  Js.map_has code rooms.

End RoomManager.

(* ===================================================================== *)
(** ** PlayerManager.js: the connection registry *)
(* ===================================================================== *)

Module Player.
Record t := {
  id : string;
  name : string;
  email : option string;
  roomCode : option string;
  joinedAt : Z;
  isActive : bool;
  ready : bool;
  clientId : option string
}.
End Player.

(** [client.playerData] *)
Module ClientData.
Record t := {
  id : string;
  name : string;
  email : option string;
  roomCode : option string;
  joinedAt : Z;
  isActive : bool
}.
End ClientData.

(** An entry of [this.clients].  The socket of a connection is
    identified by the connection id, so [ws] is not a field: whether it
    is open is read from [PlayerManager.openSockets]. *)
Module Client.
Record t := {
  playerId : option string;
  playerData : option ClientData.t;
  lastHeartbeat : Z;
  connectedAt : Z
}.
End Client.

(** An entry of the [players] array of a [player_list_update]. *)
Module ListEntry.
Record t := {
  id : string;
  name : string;
  joined_at : Z;
  isActive : bool;
  ready : bool
}.
End ListEntry.

(** The outbound envelopes, each with its payload and timestamp. *)
Inductive Message :=
| connection_established (clientId : string) (gameState : PublicView.t)
    (timestamp : Z)
| error_message (message code : string) (timestamp : Z)
| join_success (playerData : option Player.t) (gameState : PublicView.t)
    (roomCode : string) (timestamp : Z)
| player_list_update (players : list ListEntry.t) (totalPlayers : nat)
    (roomCode : option string) (timestamp : Z)
| game_starting (message : string) (countdown : nat) (timestamp : Z)
| game_broadcast (b : Broadcast)
| chat_message (playerId playerName message : Js.value) (timestamp : Z)
| test_message (playerId : option string) (payload : option Js.object)
    (timestamp : Z)
| memory_test_ack (timestamp : Z)
| answer_submitted (playerId : string) (timestamp : Z)
| ping (timestamp : Z)
| pong (timestamp : Z).

(** [ws.send] on the socket of a connection. *)
Module Delivery.
Record t := { to : string; message : Message }.
End Delivery.

(** The rest of a [removePlayer] call after its first [await]: it runs
    once the code that made the call yields. *)
Module Continuation.
Record t := { player : nat; playerId : string }.
End Continuation.

Module PlayerManager.

Record t := {
  clients : Js.jsmap Client.t;
  players : Js.jsmap nat;          (* playerId -> player object *)
  store : list Player.t;           (* the player objects, by address *)
  openSockets : Js.jsset;          (* readyState === WebSocket.OPEN *)
  roomManager : RoomManager.t;
  microtasks : list Continuation.t;
  removals : list string           (* setTimeout(() => removeClient(id), 0) *)
}.

Definition constructor : t :=
  {| clients := []; players := []; store := []; openSockets := [];
     roomManager := RoomManager.constructor; microtasks := [];
     removals := [] |}.

Definition with_clients f (s : t) : t :=
  {| clients := f (clients s); players := players s; store := store s;
     openSockets := openSockets s; roomManager := roomManager s;
     microtasks := microtasks s; removals := removals s |}.

Definition with_players f (s : t) : t :=
  {| clients := clients s; players := f (players s); store := store s;
     openSockets := openSockets s; roomManager := roomManager s;
     microtasks := microtasks s; removals := removals s |}.

Definition with_store f (s : t) : t :=
  {| clients := clients s; players := players s; store := f (store s);
     openSockets := openSockets s; roomManager := roomManager s;
     microtasks := microtasks s; removals := removals s |}.

Definition with_openSockets f (s : t) : t :=
  {| clients := clients s; players := players s; store := store s;
     openSockets := f (openSockets s); roomManager := roomManager s;
     microtasks := microtasks s; removals := removals s |}.

Definition with_roomManager f (s : t) : t :=
  {| clients := clients s; players := players s; store := store s;
     openSockets := openSockets s; roomManager := f (roomManager s);
     microtasks := microtasks s; removals := removals s |}.

Definition with_microtasks f (s : t) : t :=
  {| clients := clients s; players := players s; store := store s;
     openSockets := openSockets s; roomManager := roomManager s;
     microtasks := f (microtasks s); removals := removals s |}.

Definition with_removals f (s : t) : t :=
  {| clients := clients s; players := players s; store := store s;
     openSockets := openSockets s; roomManager := roomManager s;
     microtasks := microtasks s; removals := f (removals s) |}.

(** Reading and writing a player object. *)
Definition deref (a : nat) (s : t) : option Player.t := nth_error (store s) a.

Fixpoint assign {A} (a : nat) (x : A) (l : list A) : list A :=
  match l, a with
  | [], _ => []
  | _ :: l', 0 => x :: l'
  | y :: l', S a' => y :: assign a' x l'
  end.

(** [this.players.get(playerId)]: the object and its address *)
Definition lookupPlayer (playerId : string) (s : t) : option (nat * Player.t) :=
  match Js.map_get playerId (players s) with
  | Some a => match deref a s with
              | Some p => Some (a, p)
              | None => None
              end
  | None => None
  end.

(** [Array.from(this.players.values())] as objects *)
Definition playerObjects (s : t) : list (nat * Player.t) :=
  flat_map (fun a => match deref a s with
                     | Some p => [(a, p)]
                     | None => []
                     end) (Js.map_values (players s)).

Definition getPlayerById (playerId : option string) (s : t)
  : option (nat * Player.t) :=
  match playerId with
  | Some p => lookupPlayer p s
  | None => None
  end.

Definition getClientById (clientId : string) (s : t) : option Client.t :=
  Js.map_get clientId (clients s).

Definition getActivePlayers (s : t) : list nat :=
  map fst (filter (fun ap => Player.isActive (snd ap)) (playerObjects s)).

Definition getPlayerCount (s : t) : nat := length (players s).

Definition getClientCount (s : t) : nat := length (clients s).

Definition areAllPlayersReady (s : t) : bool :=
  let activePlayers :=
    filter (fun ap => Player.isActive (snd ap)) (playerObjects s) in
  match activePlayers with
  | [] => false
  | _ => forallb (fun ap => Player.ready (snd ap)) activePlayers
  end.

Definition getReadyPlayerCount (s : t) : nat :=
  length (filter (fun ap => Player.isActive (snd ap) && Player.ready (snd ap))
                 (playerObjects s)).

Definition isPlayerConnected (playerId : string) (s : t) : bool :=
  match lookupPlayer playerId s with
  | Some (_, p) => Player.isActive p
  | None => false
  end.

Definition findClientByPlayerId (playerId : string) (s : t)
  : option (string * Client.t) :=
  find (fun e => match Client.playerId (snd e) with
                 | Some p => p =? playerId
                 | None => false
                 end) (clients s).

Definition isOpen (clientId : string) (s : t) : bool :=
  Js.set_has clientId (openSockets s).

Local Open Scope js_scope.
Definition P : Type -> Type := M t Delivery.t.

Definition send (clientId : string) (m : Message) : P unit :=
  emit [{| Delivery.to := clientId; Delivery.message := m |}].

(** One round of the [forEach] of a broadcast: a connection whose
    socket is not open is scheduled for removal. *)
Definition sendOrSchedule (m : Message) (present : bool) (clientId : string)
  : P unit :=
  s <- get ;;
  if present && isOpen clientId s then send clientId m
  else modify (with_removals (fun r => r ++ [clientId])).

Fixpoint forEach {A} (f : A -> P unit) (l : list A) : P unit :=
  match l with
  | [] => ret tt
  | x :: l' => f x ;; forEach f l'
  end.

Definition broadcastToAll (m : Message) : P unit :=
  s <- get ;;
  forEach (sendOrSchedule m true) (Js.keys (clients s)).

Definition broadcastToRoom (roomCode : string) (m : Message) : P unit :=
  s <- get ;;
  match RoomManager.getRoom roomCode (roomManager s) with
  | None => ret tt
  | Some room =>
      forEach (fun clientId =>
                 s' <- get ;;
                 sendOrSchedule m (Js.map_has clientId (clients s')) clientId)
              (Room.clients room)
  end.

(** [this.broadcast]: the server passes its own [broadcastToAll], which
    calls the registry's. *)
Definition broadcast (m : Message) : P unit := broadcastToAll m.

Definition sendToClient (clientId : string) (m : Message) : P bool :=
  s <- get ;;
  if Js.map_has clientId (clients s) && isOpen clientId s
  then send clientId m ;; ret true
  else ret false.

Definition sendToPlayer (playerId : string) (m : Message) : P bool :=
  s <- get ;;
  match findClientByPlayerId playerId s with
  | Some (clientId, _) =>
      if isOpen clientId s then send clientId m ;; ret true else ret false
  | None => ret false
  end.

Definition updateHeartbeat (now : Z) (clientId : string) : P bool :=
  s <- get ;;
  match Js.map_get clientId (clients s) with
  | Some c =>
      modify (with_clients (Js.map_set clientId
        {| Client.playerId := Client.playerId c;
           Client.playerData := Client.playerData c;
           Client.lastHeartbeat := now;
           Client.connectedAt := Client.connectedAt c |})) ;;
      ret true
  | None => ret false
  end.

Definition listEntry (p : Player.t) : ListEntry.t :=
  {| ListEntry.id := Player.id p; ListEntry.name := Player.name p;
     ListEntry.joined_at := Player.joinedAt p;
     ListEntry.isActive := Player.isActive p;
     ListEntry.ready := Player.ready p |}.

Definition option_string_eqb (a b : option string) : bool :=
  match a, b with
  | Some x, Some y => x =? y
  | None, None => true
  | _, _ => false
  end.

Definition broadcastPlayerList (now : Z) (roomCode : option string) : P unit :=
  s <- get ;;
  let all := map snd (playerObjects s) in
  let listSource :=
    match nonempty roomCode with
    | Some r => filter (fun p => option_string_eqb (Player.roomCode p) (Some r)) all
    | None => all
    end in
  let playerList := map listEntry listSource in
  let m := player_list_update playerList (length playerList)
             (nonempty roomCode) now in
  match nonempty roomCode with
  | Some r => broadcastToRoom r m
  | None => broadcast m
  end.

(** The recursion of [removeClient] and [removePlayer] through each
    other is bounded by [fuel]; every call of [removeClient] that goes
    on deletes a connection first, so one more than the number of
    connections is enough ([removeClient_fuel_enough]). *)
Definition out_of_fuel : error := "<recursion bound reached>".

(** The part of [removePlayer] that runs before its first [await];
    what follows is queued. *)
Definition removePlayer_start_with (removeClient : string -> P unit)
    (playerId : string) : P unit :=
  s <- get ;;
  match lookupPlayer playerId s with
  | None => ret tt
  | Some (a, player) =>
      (match Player.clientId player with
       | Some c => if Js.map_has c (clients s) then removeClient c
                   else ret tt
       | None => ret tt
       end) ;;
      modify (with_players (Js.map_delete playerId)) ;;
      modify (with_microtasks (fun q =>
        q ++ [{| Continuation.player := a;
                 Continuation.playerId := playerId |}]))
  end.

Fixpoint removeClient_fuel (fuel : nat) (clientId : string) : P unit :=
  match fuel with
  | 0 => throw out_of_fuel
  | S fuel' =>
      s <- get ;;
      match Js.map_get clientId (clients s) with
      | None => ret tt
      | Some client =>
          modify (with_openSockets (Js.set_delete clientId)) ;;
          modify (with_clients (Js.map_delete clientId)) ;;
          (match nonempty (Client.playerId client) with
           | Some p =>
               s1 <- get ;;
               match findClientByPlayerId p s1 with
               | Some _ => ret tt
               | None => removePlayer_start_with (removeClient_fuel fuel') p
               end
           | None => ret tt
           end) ;;
          match Client.playerData client with
          | Some d =>
              match nonempty (ClientData.roomCode d) with
              | Some r =>
                  modify (with_roomManager
                            (RoomManager.removeClientFromRoom r clientId))
              | None => ret tt
              end
          | None => ret tt
          end
      end
  end.

Definition removeClient (clientId : string) : P unit :=
  fun s => removeClient_fuel (S (length (clients s))) clientId s.

Definition removePlayer_start (playerId : string) : P unit :=
  fun s =>
    removePlayer_start_with
      (removeClient_fuel (S (length (clients s)))) playerId s.

(** The part of [removePlayer] after its first [await]. *)
Definition removePlayer_rest (now : Z) (k : Continuation.t) : P unit :=
  s <- get ;;
  match deref (Continuation.player k) s with
  | None => ret tt
  | Some player =>
      match nonempty (Player.roomCode player) with
      | Some r =>
          modify (with_roomManager
                    (RoomManager.removePlayerFromRoom r (Continuation.playerId k))) ;;
          broadcastPlayerList now (Some r)
      | None => broadcastPlayerList now None
      end
  end.

(** [await]: the continuations queued so far run first. *)
Definition await (now : Z) : P unit :=
  s <- get ;;
  modify (with_microtasks (fun _ => [])) ;;
  forEach (removePlayer_rest now) (microtasks s).

(** [await this.removePlayer(playerId)].  Nothing in the body throws,
    so its [try] block is transparent. *)
Definition removePlayer (now : Z) (playerId : string) : P unit :=
  removePlayer_start playerId ;; await now.

(** What the environment supplies to a handler: the clock and the
    draws of [Math.random()]. *)
Record Env := {
  now : Z;
  randomId : string;     (* Math.random().toString(36).slice(2, 10) *)
  randomIndex : nat      (* Math.floor(Math.random() * n), taken modulo n *)
}.

(** [addPlayer(clientId, ws, playerData)], with the fields of
    [playerData] it reads.  It returns [result.playerData]. *)
Definition addPlayer (env : Env) (clientId : string)
    (playerId playerName email roomCode : option string)
  : P (option Player.t) :=
  let playerId :=
    match nonempty playerId with
    | Some p => p
    | None => "p_" ++ randomId env
    end%string in
  match nonempty (Some playerId), nonempty playerName with
  | Some _, Some playerName =>
      s <- get ;;
      (match findClientByPlayerId playerId s with
       | Some (existing, _) => removeClient existing
       | None => ret tt
       end) ;;
      modify (with_clients (Js.map_set clientId
        {| Client.playerId := Some playerId;
           Client.playerData :=
             Some {| ClientData.id := playerId;
                     ClientData.name := playerName;
                     ClientData.email := nonempty email;
                     ClientData.roomCode := nonempty roomCode;
                     ClientData.joinedAt := now env;
                     ClientData.isActive := true |};
           Client.lastHeartbeat := now env;
           Client.connectedAt := now env |})) ;;
      s1 <- get ;;
      modify (with_store (fun st => st ++
        [{| Player.id := playerId; Player.name := playerName;
            Player.email := nonempty email;
            Player.roomCode := nonempty roomCode;
            Player.joinedAt := now env; Player.isActive := true;
            Player.ready := false; Player.clientId := Some clientId |}])) ;;
      modify (with_players (Js.map_set playerId (length (store s1)))) ;;
      (match nonempty roomCode with
       | Some r =>
           modify (with_roomManager (fun rm =>
             RoomManager.addPlayerToRoom (now env) r playerId true
               (RoomManager.addClientToRoom (now env) r clientId rm)))
       | None => ret tt
       end) ;;
      await (now env) ;;
      broadcastPlayerList (now env) (nonempty roomCode) ;;
      s2 <- get ;;
      ret (option_map snd (lookupPlayer playerId s2))
  | _, _ => throw "Missing required player data (playerId, playerName)"
  end.

Definition togglePlayerReady (now : Z) (playerId : string) : P bool :=
  s <- get ;;
  match lookupPlayer playerId s with
  | None => ret false
  | Some (a, player) =>
      modify (with_store (assign a
        {| Player.id := Player.id player; Player.name := Player.name player;
           Player.email := Player.email player;
           Player.roomCode := Player.roomCode player;
           Player.joinedAt := Player.joinedAt player;
           Player.isActive := Player.isActive player;
           Player.ready := negb (Player.ready player);
           Player.clientId := Player.clientId player |})) ;;
      broadcastPlayerList now None ;;
      await now ;;
      ret true
  end.

End PlayerManager.

(* ===================================================================== *)
(** ** MessageProtocol.js: validation and routing *)
(* ===================================================================== *)

(** A decoded inbound envelope.  [None] is an absent or falsy field. *)
Module Inbound.
Record t := {
  type : option string;
  payload : option Js.object;
  timestamp : option Z
}.
End Inbound.

Module Schema.
Inductive FieldType := string_t | number_t | boolean_t.

Record Field := { name : string; fieldType : FieldType; isOptional : bool }.

Record Config := {
  requiresAuth : bool;
  schema : option (list Field);
  maxLength : option nat
}.

Definition required (n : string) : Field :=
  {| name := n; fieldType := string_t; isOptional := false |}.
Definition optional (n : string) : Field :=
  {| name := n; fieldType := string_t; isOptional := true |}.

Definition config (auth : bool) (fields : list Field) (maxLen : option nat)
  : Config :=
  {| requiresAuth := auth; schema := Some fields; maxLength := maxLen |}.
End Schema.

Module MessageProtocol.
Import PlayerManager.

Record t := {
  gameManager : GameManager.t;
  playerManager : PlayerManager.t;
  startTimers : list string   (* setTimeout(() => handleStartGame(..), 3000) *)
}.

Definition constructor (g : GameManager.t) (p : PlayerManager.t) : t :=
  {| gameManager := g; playerManager := p; startTimers := [] |}.

Definition R : Type -> Type := M t Delivery.t.

Local Open Scope js_scope.

(** A call into the registry. *)
Definition liftP {A} (m : PlayerManager.P A) : R A :=
  fun s =>
    match m (playerManager s) with
    | (p', out, r) =>
        ({| gameManager := gameManager s; playerManager := p';
            startTimers := startTimers s |}, out, r)
    end.

Definition broadcastMessage (m : Message) : R unit :=
  liftP (PlayerManager.broadcastToAll m).

(** A call into the coordinator; what it hands to its broadcast
    callback goes to every connection. *)
Definition liftG {A} (m : M GameManager.t Broadcast A) : R A :=
  fun s =>
    match m (gameManager s) with
    | (g', bs, r) =>
        match PlayerManager.forEach
                (fun b => PlayerManager.broadcastToAll (game_broadcast b))
                bs (playerManager s) with
        | (p', out, _) =>
            ({| gameManager := g'; playerManager := p';
                startTimers := startTimers s |}, out, r)
        end
    end.

(** [this.messageTypes] *)
Definition messageTypes (type : string) : option Schema.Config :=
  if type =? "ping" then Some (Schema.config false [] None)
  else if type =? "pong" then Some (Schema.config false [] None)
  else if type =? "join" then
    Some (Schema.config false
            [Schema.optional "playerId"; Schema.required "playerName";
             Schema.required "roomCode"; Schema.optional "email"] None)
  else if type =? "leave" then Some (Schema.config true [] None)
  else if type =? "toggle_ready" then Some (Schema.config true [] None)
  else if type =? "start_game" then Some (Schema.config true [] None)
  else if type =? "chat_message" then
    Some (Schema.config false [Schema.required "message"] (Some 500))
  else if type =? "chat" then
    Some (Schema.config false [Schema.required "message"] (Some 500))
  else if type =? "vote" then
    Some (Schema.config true [Schema.required "targetId"] None)
  else if type =? "new_game" then Some (Schema.config true [] None)
  else if type =? "test_message" then Some (Schema.config false [] None)
  else if type =? "memory_test" then
    Some (Schema.config false [Schema.optional "data"] None)
  else if type =? "submit_answer" then
    Some (Schema.config true [Schema.required "answer"] None)
  else if type =? "force_phase_transition" then
    Some (Schema.config true
            [Schema.required "phase"; Schema.optional "adminKey"] None)
  else if Js.inherited type then
    (* an inherited member is found by the lookup: it has neither
       [requiresAuth] nor [schema] *)
    Some {| Schema.requiresAuth := false; Schema.schema := None;
            Schema.maxLength := None |}
  else None.

Definition validateMessageStructure (now : Z) (message : Inbound.t) : R unit :=
  match nonempty (Inbound.type message) with
  | None => throw "Message missing required field: type"
  | Some _ =>
      match Inbound.timestamp message with
      | None => throw "Message missing required field: timestamp"
      | Some ts =>
          if (ts =? 0)%Z then throw "Message missing required field: timestamp"
          else if (300000 <? Z.abs (now - ts))%Z
          then throw "Message timestamp is too old or invalid"
          else ret tt
      end
  end.

Definition typeName (ft : Schema.FieldType) : string :=
  match ft with
  | Schema.string_t => "string"
  | Schema.number_t => "number"
  | Schema.boolean_t => "boolean"
  end.

Definition hasType (ft : Schema.FieldType) (v : Js.value) : bool :=
  match ft, v with
  | Schema.string_t, Js.VStr _ => true
  | Schema.number_t, Js.VNum _ => true
  | Schema.boolean_t, Js.VBool _ => true
  | _, _ => false
  end.

Definition article (ft : Schema.FieldType) : string :=
  match ft with
  | Schema.string_t => " must be a string"
  | Schema.number_t => " must be a number"
  | Schema.boolean_t => " must be a boolean"
  end.

Fixpoint validatePayloadSchema (payload : Js.object)
    (maxLength : option nat) (fields : list Schema.Field) : R unit :=
  match fields with
  | [] => ret tt
  | f :: rest =>
      let field := Schema.name f in
      if negb (Schema.isOptional f) && negb (Js.has_field field payload)
      then throw ("Missing required field: " ++ field)%string
      else
        (if Js.has_field field payload then
           let value := Js.field field payload in
           if negb (hasType (Schema.fieldType f) value)
           then throw ("Field " ++ field ++ article (Schema.fieldType f))%string
           else
             match maxLength, value with
             | Some n, Js.VStr text =>
                 if (field =? "message") && negb (n =? 0)%nat
                    && (n <? String.length text)%nat
                 then throw ("Message too long (max "
                             ++ Js.decimal (N.of_nat n) ++ " characters)")%string
                 else ret tt
             | _, _ => ret tt
             end
         else ret tt) ;;
        validatePayloadSchema payload maxLength rest
  end.

Definition validateMessage (message : Inbound.t) (client : Client.t) : R unit :=
  let type := match Inbound.type message with Some t => t | None => "" end in
  match messageTypes type with
  | None => throw ("Unknown message type: " ++ type)%string
  | Some messageConfig =>
      if Schema.requiresAuth messageConfig
         && match nonempty (Client.playerId client) with
            | Some _ => false
            | None => true
            end
      then throw "Authentication required for this message type"
      else
        match Schema.schema messageConfig, Inbound.payload message with
        | Some fields, Some payload =>
            validatePayloadSchema payload (Schema.maxLength messageConfig) fields
        | _, _ => ret tt
        end
  end.

(** Reading a field of a payload that is [undefined]. *)
Definition cannotRead (field : string) : error :=
  ("Cannot read properties of undefined (reading '" ++ field ++ "')")%string.

(** A field that the schema has checked to be a string or absent. *)
Definition stringField (k : string) (o : Js.object) : option string :=
  match Js.field k o with
  | Js.VStr s => Some s
  | _ => None
  end.

Definition sendToClient (clientId : string) (m : Message) : R bool :=
  liftP (PlayerManager.sendToClient clientId m).

Definition sendError (now : Z) (clientId : string) (errorMessage : string)
  : R unit :=
  sendToClient clientId (error_message errorMessage "PROTOCOL_ERROR" now) ;;
  ret tt.

Definition handlePing (now : Z) (clientId : string) : R unit :=
  liftP (PlayerManager.updateHeartbeat now clientId) ;;
  sendToClient clientId (pong now) ;;
  ret tt.

Definition handlePong (now : Z) (clientId : string) : R unit :=
  liftP (PlayerManager.updateHeartbeat now clientId) ;;
  ret tt.

(** [this.gameManager.updatePlayers(this.playerManager.getActivePlayers())] *)
Definition syncPlayers : R unit :=
  modify (fun s =>
    {| gameManager :=
         GameManager.updatePlayers
           (PlayerManager.getActivePlayers (playerManager s)) (gameManager s);
       playerManager := playerManager s;
       startTimers := startTimers s |}).

(** [handleJoin] is reached after [validatePayloadSchema]: the fields
    of a payload are strings or absent. *)
Definition handleJoin (env : Env) (clientId : string)
    (payload : option Js.object) (client : Client.t) : R unit :=
  match payload with
  | None => throw (cannotRead "roomCode")
  | Some payload =>
      let code :=
        Js.trim (match stringField "roomCode" payload with
                 | Some r => r
                 | None => ""
                 end) in
      if negb (Js.three_digits code)
      then throw "Invalid room code. Use a 3-digit code (e.g., 123)."
      else
        let playerId :=
          match nonempty (stringField "playerId" payload) with
          | Some p => p
          | None => ("p_" ++ randomId env)%string
          end in
        playerData <-
          liftP (PlayerManager.addPlayer env clientId (Some playerId)
                   (stringField "playerName" payload)
                   (stringField "email" payload)
                   (stringField "roomCode" payload)) ;;
        syncPlayers ;;
        s <- get ;;
        sendToClient clientId
          (join_success playerData
             (GameManager.getPublicGameState (gameManager s)) code (now env)) ;;
        ret tt
  end.

Definition handleLeave (env : Env) (clientId : string) (client : Client.t)
  : R unit :=
  match nonempty (Client.playerId client) with
  | Some p =>
      liftP (PlayerManager.removePlayer (now env) p) ;;
      syncPlayers
  | None => ret tt
  end.

Definition handleStartGame (env : Env) (clientId : string) : R unit :=
  s <- get ;;
  if negb (Phase_eqb (GameState.phase (GameManager.getGameState (gameManager s)))
                     Waiting)
  then throw "Game is already in progress"
  else if (PlayerManager.getPlayerCount (playerManager s) <? 2)%nat
  then throw "Need at least 2 players to start game"
  else
    let players := PlayerManager.getActivePlayers (playerManager s) in
    match nth_error players (randomIndex env mod length players) with
    | None => throw "Cannot read properties of undefined (reading 'id')"
    | Some a =>
        match PlayerManager.deref a (playerManager s) with
        | None => throw "Cannot read properties of undefined (reading 'id')"
        | Some player =>
            liftG (GameManager.transitionPhase (now env) Question
                     {| PhaseData.questionId := Some 1%Z;
                        PhaseData.imposter := Some (Player.id player) |})
        end
    end.

Definition handleToggleReady (env : Env) (clientId : string)
    (client : Client.t) : R unit :=
  match nonempty (Client.playerId client) with
  | None => throw "Player ID required for ready toggle"
  | Some p =>
      success <- liftP (PlayerManager.togglePlayerReady (now env) p) ;;
      if success then
        s <- get ;;
        if PlayerManager.areAllPlayersReady (playerManager s)
           && (2 <=? PlayerManager.getPlayerCount (playerManager s))%nat
        then
          broadcastMessage
            (game_starting "All players ready! Game starting in 3 seconds..."
                           3 (now env)) ;;
          modify (fun s =>
            {| gameManager := gameManager s;
               playerManager := playerManager s;
               startTimers := startTimers s ++ [clientId] |})
        else ret tt
      else ret tt
  end.

(** Chat is allowed in every phase: the game state is read and not
    used. *)
Definition handleChatMessage (env : Env) (clientId : string)
    (payload : option Js.object) (client : Client.t) : R unit :=
  s <- get ;;
  let gameState := GameManager.getGameState (gameManager s) in
  match PlayerManager.getPlayerById (Client.playerId client) (playerManager s),
        payload with
  | Some (_, player), Some payload =>
      broadcastMessage
        (chat_message
           (Js.or_else (Js.VStr (Player.id player))
              (match Client.playerId client with
               | Some p => Js.VStr p
               | None => Js.VNull
               end))
           (Js.VStr (Player.name player))
           (Js.field "message" payload) (now env))
  | Some _, None => throw (cannotRead "message")
  | None, Some payload =>
      let id := Js.or_else (Js.field "playerId" payload) (Js.VStr "anonymous") in
      let name := Js.or_else (Js.field "playerName" payload) (Js.VStr "Anonymous") in
      broadcastMessage
        (chat_message
           (Js.or_else id
              (match Client.playerId client with
               | Some p => Js.VStr p
               | None => Js.VNull
               end))
           name (Js.field "message" payload) (now env))
  | None, None => throw (cannotRead "playerId")
  end.

Definition handleTestMessage (env : Env) (clientId : string)
    (payload : option Js.object) (client : Client.t) : R unit :=
  broadcastMessage (test_message (Client.playerId client) payload (now env)).

Definition handleMemoryTest (env : Env) (clientId : string) : R unit :=
  sendToClient clientId (memory_test_ack (now env)) ;;
  ret tt.

Definition handleSubmitAnswer (env : Env) (clientId : string)
    (client : Client.t) : R unit :=
  s <- get ;;
  match nonempty (Client.playerId client) with
  | None => throw "Player ID required for submitting answer"
  | Some p =>
      match GameState.phase (GameManager.getGameState (gameManager s)) with
      | Question | Discussion =>
          broadcastMessage (answer_submitted p (now env))
      | _ =>
          throw "Answers can only be submitted during question or discussion phase"
      end
  end.

(** [handleVote] is reached after [validatePayloadSchema] too:
    [targetId] is a string when there is a payload. *)
Definition handleVote (env : Env) (clientId : string)
    (payload : option Js.object) (client : Client.t) : R unit :=
  match nonempty (Client.playerId client) with
  | None => throw "Player ID required for voting"
  | Some p =>
      match payload with
      | None => throw (cannotRead "targetId")
      | Some payload =>
          match stringField "targetId" payload with
          | Some targetId =>
              liftG (GameManager.handleVote (now env) p targetId)
          | None => throw "Missing required field: targetId"
          end
      end
  end.

Definition handleNewGame (env : Env) (clientId : string) : R unit :=
  s <- get ;;
  match GameState.phase (GameManager.getGameState (gameManager s)) with
  | ResultsPhase =>
      liftG (GameManager.transitionPhase (now env) Waiting PhaseData.none)
  | _ => throw "New game can only be started from results phase"
  end.

Definition validPhase (p : string) : option Phase :=
  if p =? "waiting" then Some Waiting
  else if p =? "question" then Some Question
  else if p =? "discussion" then Some Discussion
  else if p =? "voting" then Some Voting
  else if p =? "results" then Some ResultsPhase
  else None.

Definition handleForcePhaseTransition (env : Env) (clientId : string)
    (payload : option Js.object) : R unit :=
  match payload with
  | None => throw (cannotRead "phase")
  | Some payload =>
      let phase := match stringField "phase" payload with
                   | Some p => p
                   | None => "undefined"
                   end in
      match validPhase phase with
      | Some p =>
          liftG (GameManager.transitionPhase (now env) p PhaseData.none)
      | None => throw ("Invalid phase: " ++ phase)%string
      end
  end.

Definition routeMessage (env : Env) (clientId : string)
    (message : Inbound.t) (client : Client.t) : R unit :=
  let type := match Inbound.type message with Some t => t | None => "" end in
  let payload := Inbound.payload message in
  if type =? "ping" then handlePing (now env) clientId
  else if type =? "pong" then handlePong (now env) clientId
  else if type =? "join" then handleJoin env clientId payload client
  else if type =? "leave" then handleLeave env clientId client
  else if type =? "toggle_ready" then handleToggleReady env clientId client
  else if type =? "start_game" then handleStartGame env clientId
  else if (type =? "chat_message") || (type =? "chat")
  then handleChatMessage env clientId payload client
  else if type =? "vote" then handleVote env clientId payload client
  else if type =? "new_game" then handleNewGame env clientId
  else if type =? "test_message"
  then handleTestMessage env clientId payload client
  else if type =? "memory_test" then handleMemoryTest env clientId
  else if type =? "submit_answer" then handleSubmitAnswer env clientId client
  else if type =? "force_phase_transition"
  then handleForcePhaseTransition env clientId payload
  else throw ("Unhandled message type: " ++ type)%string.

(** [handleMessage(clientId, rawMessage)]; [None] is a frame that
    [JSON.parse] rejects. *)
Definition handleMessage (env : Env) (clientId : string)
    (rawMessage : option Inbound.t) : R unit :=
  try_catch
    (match rawMessage with
     | None => throw "Invalid JSON message format"
     | Some message =>
         validateMessageStructure (now env) message ;;
         s <- get ;;
         match PlayerManager.getClientById clientId (playerManager s) with
         | None => throw "Client not found"
         | Some client =>
             validateMessage message client ;;
             routeMessage env clientId message client
         end
     end)
    (fun e => sendError (now env) clientId e ;; throw e).

End MessageProtocol.

(* ===================================================================== *)
(** ** index.js: the server and its events *)
(* ===================================================================== *)

Module GameServer.
Import PlayerManager MessageProtocol.

Definition t := MessageProtocol.t.

Definition constructor : t :=
  MessageProtocol.constructor GameManager.constructor PlayerManager.constructor.

Local Open Scope js_scope.

(** [wss.on('connection', ...)] *)
Definition connect (env : Env) (clientId : string) : R unit :=
  liftP (modify (with_openSockets (Js.set_add clientId)) ;;
         modify (with_clients (Js.map_set clientId
           {| Client.playerId := None; Client.playerData := None;
              Client.lastHeartbeat := now env;
              Client.connectedAt := now env |}))) ;;
  s <- get ;;
  MessageProtocol.sendToClient clientId
    (connection_established clientId
       (GameManager.getPublicGameState (gameManager s)) (now env)) ;;
  ret tt.

(** [handleMessage]: the error is logged; when the handler is done the
    queued continuations have run. *)
Definition handleMessage (env : Env) (clientId : string)
    (data : option Inbound.t) : R unit :=
  try_catch (MessageProtocol.handleMessage env clientId data)
            (fun _ => ret tt) ;;
  liftP (await (now env)).

(** [ws.on('close', ...)] *)
Definition handleDisconnect (env : Env) (clientId : string) : R unit :=
  liftP (modify (with_openSockets (Js.set_delete clientId)) ;;
         removeClient clientId ;;
         await (now env)).

(** The oldest [setTimeout(() => this.removeClient(clientId), 0)]
    expires. *)
Definition fireRemoval (env : Env) : R unit :=
  s <- get ;;
  match removals (playerManager s) with
  | [] => ret tt
  | clientId :: rest =>
      liftP (modify (with_removals (fun _ => rest)) ;;
             removeClient clientId ;;
             await (now env))
  end.

(** The oldest countdown of [handleToggleReady] expires; nothing
    handles a rejection of [handleStartGame]. *)
Definition fireStartGame (env : Env) : R unit :=
  s <- get ;;
  match startTimers s with
  | [] => ret tt
  | clientId :: rest =>
      put {| gameManager := gameManager s; playerManager := playerManager s;
             startTimers := rest |} ;;
      try_catch (handleStartGame env clientId)
                (fun _ => ret tt)
  end.

Definition firePhaseTimer (env : Env) (i : nat) : R unit :=
  liftG (GameManager.fireTimeout (now env) i).

Inductive Event :=
| Connect (clientId : string)
| Receive (clientId : string) (data : option Inbound.t)
| Close (clientId : string)
| RemovalDue
| StartGameDue
| PhaseTimerDue (i : nat).

Definition step (env : Env) (e : Event) : R unit :=
  match e with
  | Connect c => connect env c
  | Receive c d => handleMessage env c d
  | Close c => handleDisconnect env c
  | RemovalDue => fireRemoval env
  | StartGameDue => fireStartGame env
  | PhaseTimerDue i => firePhaseTimer env i
  end.

(** The server after a sequence of events, and everything it sent. *)
Fixpoint run (env : Env) (es : list Event) : R unit :=
  match es with
  | [] => ret tt
  | e :: es' => step env e ;; run env es'
  end.

End GameServer.

(* ===================================================================== *)
(** ** The notions of the specification *)
(* ===================================================================== *)

(** *** Reachable states of the coordinator

    A session is the coordinator after [initializeGame] and any sequence
    of calls of its methods and expiries of its timers.  Every state the
    server can bring the coordinator to is of this form. *)
Module Session.
Import GameState.

Inductive Call :=
| transitionPhase (now : Z) (newPhase : Phase) (data : PhaseData.t)
| handleVote (now : Z) (playerId targetId : string)
| updatePlayers (players : list nat)
| timeout (now : Z) (i : nat).

Definition call (c : Call) (g : GameManager.t) : GameManager.t :=
  match c with
  | transitionPhase now p d => state_of (GameManager.transitionPhase now p d g)
  | handleVote now p t => state_of (GameManager.handleVote now p t g)
  | updatePlayers ps => GameManager.updatePlayers ps g
  | timeout now i => state_of (GameManager.fireTimeout now i g)
  end.

Definition calls (cs : list Call) (g : GameManager.t) : GameManager.t :=
  fold_left (fun g c => call c g) cs g.

Definition start (row : option GameRow.t) : GameManager.t :=
  GameManager.initializeGame row GameManager.constructor.

Definition voters (g : GameManager.t) : list string :=
  map Vote.playerId (votes (GameManager.gameState g)).

Definition voteCount (g : GameManager.t) : nat :=
  length (votes (GameManager.gameState g)).

Definition playerCount (g : GameManager.t) : nat :=
  length (players (GameManager.gameState g)).

(** The phase a call enters, if it enters one. *)
Definition entered (c : Call) (g : GameManager.t) : option Phase :=
  match c with
  | transitionPhase _ p _ => Some p
  | timeout _ i =>
      option_map Timer.target
        (find (fun x => (Timer.id x =? i)%nat) (GameManager.armed g))
  | _ => None
  end.

(** A call keeps the quorum when it does not open a vote among no
    players and does not install a player list that the votes already
    collected fill (during a vote) or exceed. *)
Definition keepsQuorum (c : Call) (g : GameManager.t) : bool :=
  match c with
  | updatePlayers ps =>
      match phase (GameManager.gameState g) with
      | Voting => (voteCount g <? length ps)%nat
      | _ => (voteCount g <=? length ps)%nat
      end
  | _ =>
      match entered c g with
      | Some Voting => (0 <? playerCount g)%nat
      | _ => true
      end
  end.

Fixpoint quorumKept (cs : list Call) (g : GameManager.t) : bool :=
  match cs with
  | [] => true
  | c :: cs' => keepsQuorum c g && quorumKept cs' (call c g)
  end.

(** The timers are well formed: the identifiers in use are below the
    next one. *)
Definition timersFresh (g : GameManager.t) : Prop :=
  (forall x, In x (GameManager.armed g) ->
             Timer.id x < GameManager.nextTimer g) /\
  (forall i, GameManager.phaseTimer g = Some i ->
             i < GameManager.nextTimer g).

(** The quorum: the votes do not exceed the players, and a vote that
    is open still waits for a ballot. *)
Definition quorum (g : GameManager.t) : Prop :=
  voteCount g <= playerCount g /\
  (phase (GameManager.gameState g) = Voting -> voteCount g < playerCount g).

(** The invariant of the specification: no voter twice, and no more
    votes than players. *)
Definition votesWithinPlayers (g : GameManager.t) : Prop :=
  NoDup (voters g) /\ voteCount g <= playerCount g.

End Session.

(** *** The tally in the words of the specification *)
Module Tally.

Definition targets (votes : list Vote.t) : list string :=
  map Vote.targetId votes.

(** The number of votes for a target. *)
Definition votesFor (t : string) (votes : list Vote.t) : nat :=
  length (filter (fun v => Vote.targetId v =? t) votes).

Definition highest (votes : list Vote.t) : nat :=
  fold_right Nat.max 0 (map (fun t => votesFor t votes) (targets votes)).

(** The plurality target of the specification: among the targets with
    the highest count, the one seen first. *)
Definition firstSeenPlurality (votes : list Vote.t) : option string :=
  find (fun t => (votesFor t votes =? highest votes)%nat) (targets votes).

(** The position at which a target is first seen. *)
Fixpoint firstSeen (t : string) (seen : list string) : nat :=
  match seen with
  | [] => 0
  | x :: seen' => if x =? t then 0 else S (firstSeen t seen')
  end.

(** The property order of the tally object: array indices in
    ascending numeric order, then the other keys as first seen. *)
Definition propertyBefore (seen : list string) (a b : string) : Prop :=
  match Js.array_index a, Js.array_index b with
  | Some i, Some j => (i < j)%N
  | Some _, None => True
  | None, Some _ => False
  | None, None => firstSeen a seen < firstSeen b seen
  end.

(** The tie-break of the specification: the most voted player is the
    first seen of the targets with the highest count. *)
Definition firstSeenWins (gs : GameState.t) : Prop :=
  Results.mostVotedPlayer (GameManager.calculateVoteResults gs)
  = firstSeenPlurality (GameState.votes gs).

(** What the tally holds under a key once the votes [done] are
    counted. *)
Definition expected (t : string) (done : list Vote.t) : option Count :=
  if (votesFor t done =? 0)%nat then None
  else if t =? "__proto__" then None
  else if Js.inherited t then Some Text
  else Some (Num (votesFor t done)).

(** The invariant of the tally loop. *)
Definition tallied (o : Js.props Count) (done : list Vote.t) : Prop :=
  (forall t, Js.get t o = expected t done) /\
  StronglySorted (propertyBefore (targets done)) (Js.keys o).

End Tally.

(** *** Computations of the registry that only send *)
Module Registry.
Import PlayerManager.

(** The connections, the players, their objects, the sockets and the
    queue of continuations are the same. *)
Definition framed (s s' : PlayerManager.t) : Prop :=
  clients s' = clients s /\ players s' = players s /\ store s' = store s /\
  openSockets s' = openSockets s /\ microtasks s' = microtasks s.

(** A computation that returns and keeps all of these. *)
Definition quiet {A} (m : P A) : Prop :=
  forall s, framed s (state_of (m s)) /\ exists a, result_of (m s) = inr a.
End Registry.

(** *** What the protocol sends *)
Module Reply.
Import PlayerManager MessageProtocol.

(** The connections with an open socket and the others, in the order
    of [this.clients]. *)
Definition openClients (p : PlayerManager.t) : list string :=
  filter (fun c => isOpen c p) (Js.keys (clients p)).

Definition closedClients (p : PlayerManager.t) : list string :=
  filter (fun c => negb (isOpen c p)) (Js.keys (clients p)).

(** [m] sent to every open connection. *)
Definition toAll (m : Message) (p : PlayerManager.t) : list Delivery.t :=
  map (fun c => {| Delivery.to := c; Delivery.message := m |}) (openClients p).

(** [cs] scheduled for removal. *)
Definition scheduled (cs : list string) (s : MessageProtocol.t)
  : MessageProtocol.t :=
  {| gameManager := gameManager s;
     playerManager := with_removals (fun r => r ++ cs) (playerManager s);
     startTimers := startTimers s |}.

(** The error envelope, if the connection is there to receive it. *)
Definition errorTo (now : Z) (c : string) (e : error) (s : MessageProtocol.t)
  : list Delivery.t :=
  if Js.map_has c (clients (playerManager s)) && isOpen c (playerManager s)
  then [{| Delivery.to := c;
           Delivery.message := error_message e "PROTOCOL_ERROR" now |}]
  else [].

(** The dispatch boundary: what [handleMessage] makes of the outcome
    of the stages before it and of the handler. *)
Definition guarded (now : Z) (c : string)
    (r : MessageProtocol.t * list Delivery.t * (error + unit))
  : MessageProtocol.t * list Delivery.t * (error + unit) :=
  match r with
  | (s1, o1, inl e) => (s1, o1 ++ errorTo now c e s1, inl e)
  | _ => r
  end.

(** The timestamp of an envelope is within five minutes of the
    clock. *)
Definition fresh (now : Z) (message : Inbound.t) : Prop :=
  exists ts, Inbound.timestamp message = Some ts /\ ts <> 0%Z /\
             (Z.abs (now - ts) <= 300000)%Z.

Definition isChat (message : Inbound.t) : Prop :=
  Inbound.type message = Some "chat" \/
  Inbound.type message = Some "chat_message".

Definition isChatMessage (m : Message) : bool :=
  match m with chat_message _ _ _ _ => true | _ => false end.

Definition isErrorMessage (m : Message) : bool :=
  match m with error_message _ _ _ => true | _ => false end.



(** The specification's chat gate, for one request: outside the
    discussion the chat is answered by an error and no chat message
    is sent. *)
Definition chatGated (env : Env) (s : MessageProtocol.t) (c : string)
    (message : Inbound.t) : Prop :=
  isChat message ->
  GameState.phase (GameManager.gameState (gameManager s)) <> Discussion ->
  let r := MessageProtocol.handleMessage env c (Some message) s in
  existsb (fun d => isErrorMessage (Delivery.message d)) (sent_of r) = true /\
  existsb (fun d => isChatMessage (Delivery.message d)) (sent_of r) = false.

End Reply.

(** *** A session used in the examples *)
Module Scenario.
Import PlayerManager MessageProtocol GameServer.

Definition env : Env := {| now := 1000; randomId := "k3x9q2ab"; randomIndex := 0 |}.

Definition envelope (type : string) (payload : Js.object) : Inbound.t :=
  {| Inbound.type := Some type; Inbound.payload := Some payload;
     Inbound.timestamp := Some 1000%Z |}.

Definition receive (clientId : string) (message : Inbound.t) : Event :=
  Receive clientId (Some message).

Definition join (name roomCode : string) : Inbound.t :=
  envelope "join" [("playerId", Js.VStr name); ("playerName", Js.VStr name);
                   ("roomCode", Js.VStr roomCode)].

Definition force (phase : string) : Inbound.t :=
  envelope "force_phase_transition" [("phase", Js.VStr phase)].

Definition vote (targetId : string) : Inbound.t :=
  envelope "vote" [("targetId", Js.VStr targetId)].

Definition chat (text : string) : Inbound.t :=
  envelope "chat" [("message", Js.VStr text)].

Definition after (es : list Event) : MessageProtocol.t :=
  state_of (run env es GameServer.constructor).

(** Ann and Bob have joined room 123; Cat is connected and has not
    joined. *)
Definition arrivals : list Event :=
  [ Connect "c1"; receive "c1" (join "ann" "123");
    Connect "c2"; receive "c2" (join "bob" "123");
    Connect "c3" ].

Definition lobby : MessageProtocol.t := after arrivals.

(** Both are ready, the countdown expires and the round starts. *)
Definition readyUp : list Event :=
  arrivals ++
  [ receive "c1" (envelope "toggle_ready" []);
    receive "c2" (envelope "toggle_ready" []);
    StartGameDue ].

(** A vote is opened and Ann has voted. *)
Definition annVoted : list Event :=
  readyUp ++ [ receive "c1" (force "voting"); receive "c1" (vote "bob") ].

(** The round is over and a new game is asked for. *)
Definition roundTrip : list Event :=
  annVoted ++ [ receive "c2" (vote "ann"); receive "c1" (envelope "new_game" []) ].

(** After the results a forced transition goes back to the question. *)
Definition forcedBack : list Event :=
  annVoted ++ [ receive "c2" (vote "ann"); receive "c1" (force "question") ].

(** Ann and Bob have voted when Bob and Cat, who joined too, leave. *)
Definition leaveMidRound : list Event :=
  [ Connect "c1"; receive "c1" (join "ann" "123");
    Connect "c2"; receive "c2" (join "bob" "123");
    Connect "c3"; receive "c3" (join "cat" "123");
    receive "c1" (force "voting");
    receive "c1" (vote "bob"); receive "c2" (vote "ann");
    receive "c2" (envelope "leave" []); receive "c3" (envelope "leave" []) ].

(** The same at the level of the coordinator. *)
Definition removalMidRound : list Session.Call :=
  [ Session.updatePlayers [0; 1; 2];
    Session.transitionPhase 0 Voting PhaseData.none;
    Session.handleVote 1 "ann" "bob";
    Session.handleVote 2 "bob" "ann";
    Session.updatePlayers [0] ].

Definition everyoneVotes : list Session.Call :=
  [ Session.updatePlayers [0; 1; 2];
    Session.transitionPhase 0 Voting PhaseData.none;
    Session.handleVote 1 "ann" "bob";
    Session.handleVote 2 "bob" "ann";
    Session.handleVote 3 "cat" "bob" ].

Definition ballots (targets : list string) : GameState.t :=
  {| GameState.phase := Voting; GameState.players := [];
     GameState.imposter := Some "2"; GameState.questionId := Some 1%Z;
     GameState.discussionEndsAt := None;
     GameState.votes :=
       map (fun t => {| Vote.playerId := ("voter for " ++ t)%string;
                        Vote.targetId := t; Vote.timestamp := 0 |}) targets;
     GameState.results := None |}.
End Scenario.

(* ===================================================================== *)
(** ** The rest of the server *)
(* ===================================================================== *)

(** *** PlayerManager.js: the heartbeat *)
Module Heartbeat.
Import PlayerManager.

Local Open Scope js_scope.

Definition heartbeatTimeout : Z := 60000.

(** [sendHeartbeatPings]: a ping to every connection whose socket is
    open. *)
Definition sendHeartbeatPings (now : Z) : P unit :=
  s <- get ;;
  forEach (fun clientId =>
             s' <- get ;;
             if isOpen clientId s' then send clientId (ping now) else ret tt)
          (Js.keys (clients s)).

(** The connections whose last heartbeat is [heartbeatTimeout] old or
    older. *)
Definition staleClients (now : Z) (s : PlayerManager.t) : list string :=
  map fst
    (filter (fun e => (heartbeatTimeout <=? now - Client.lastHeartbeat (snd e))%Z)
            (clients s)).

(** [cleanupStaleConnections]: the second loop reads the connection
    again before it removes it. *)
Definition cleanupStaleConnections (now : Z) : P unit :=
  s <- get ;;
  forEach (fun clientId =>
             s' <- get ;;
             match Js.map_get clientId (clients s') with
             | None =>
                 throw "Cannot read properties of undefined (reading 'lastHeartbeat')"
             | Some _ => removeClient clientId
             end)
          (staleClients now s).

End Heartbeat.

(** *** RoomManager.js: new rooms *)
Module RoomCodes.

(** [Math.floor(100 + Math.random() * 900).toString()], for the draw
    [Math.floor(Math.random() * 900)]. *)
Definition codeOf (draw : nat) : string :=
  Js.decimal (N.of_nat (100 + draw mod 900)).

(** The loop of [generateRoomCode] from attempt [i] on, with [attempts]
    attempts left; [random i] is the draw of attempt [i]. *)
Fixpoint generateFrom (random : nat -> nat) (i attempts : nat)
    (rooms : RoomManager.t) : error + string :=
  match attempts with
  | 0 => inl "Failed to generate unique room code"
  | S attempts' =>
      let code := codeOf (random i) in
      if Js.map_has code rooms
      then generateFrom random (S i) attempts' rooms
      else inr code
  end.

Definition maxAttempts : nat := 1000.

Definition generateRoomCode (random : nat -> nat) (rooms : RoomManager.t)
  : error + string :=
  generateFrom random 0 maxAttempts rooms.

(** [createRoom(hostPlayerId)] returns the room and stores it. *)
Definition createRoom (now : Z) (random : nat -> nat)
    (hostPlayerId : option string) (rooms : RoomManager.t)
  : error + (Room.t * RoomManager.t) :=
  match generateRoomCode random rooms with
  | inl e => inl e
  | inr code =>
      let room :=
        {| Room.code := code; Room.players := []; Room.clients := [];
           Room.hostId := nonempty hostPlayerId; Room.createdAt := now |} in
      inr (room, Js.map_set code room rooms)
  end.

End RoomCodes.

(** *** What the operations keep *)
Module Keeps.

(** A computation that leaves every state it starts from related by [R]
    to the state it ends in, whether it returns or throws. *)
Definition keeps {S O A : Type} (R : S -> S -> Prop) (m : M S O A) : Prop :=
  forall s, R s (state_of (m s)).

(** The registry after connections, players and sockets were removed
    and nothing was added: the player objects are the same. *)
Definition shrunk (s s' : PlayerManager.t) : Prop :=
  PlayerManager.store s' = PlayerManager.store s /\
  (exists f, PlayerManager.clients s' = filter f (PlayerManager.clients s)) /\
  (exists f, PlayerManager.players s' = filter f (PlayerManager.players s)) /\
  (exists f, PlayerManager.openSockets s'
             = filter f (PlayerManager.openSockets s)).

(** The rooms are the same. *)
Definition sameRooms (s s' : PlayerManager.t) : Prop :=
  PlayerManager.roomManager s' = PlayerManager.roomManager s.

End Keeps.

(** *** The rooms *)
Module Rooms.
Import Room.

(** The host of every room is one of its players. *)
Definition hostIsMember (rooms : RoomManager.t) : Prop :=
  forall code room, In (code, room) rooms ->
    match hostId room with
    | Some h => In h (players room)
    | None => True
    end.

(** [hostId] of the room, [null] where there is no room. *)
Definition hostOf (code : string) (rooms : RoomManager.t) : option string :=
  match RoomManager.getRoom code rooms with
  | Some room => hostId room
  | None => None
  end.

(** Every room has a player or a connection. *)
Definition noEmptyRoom (rooms : RoomManager.t) : Prop :=
  forall code room, In (code, room) rooms -> RoomManager.is_empty room = false.

(** The room has a player or a connection. *)
Definition inhabited (code : string) (rooms : RoomManager.t) : bool :=
  negb ((length (RoomManager.listPlayers code rooms) =? 0)%nat
        && (length (RoomManager.listClients code rooms) =? 0)%nat).

(** The four operations that change the membership of a room. *)
Inductive Change :=
| addClient (now : Z) (clientId : string)
| removeClient (clientId : string)
| addPlayer (now : Z) (playerId : string) (makeHostIfFirst : bool)
| removePlayer (playerId : string).

Definition change (code : string) (c : Change) (rooms : RoomManager.t)
  : RoomManager.t :=
  match c with
  | addClient now clientId => RoomManager.addClientToRoom now code clientId rooms
  | removeClient clientId => RoomManager.removeClientFromRoom code clientId rooms
  | addPlayer now playerId b => RoomManager.addPlayerToRoom now code playerId b rooms
  | removePlayer playerId => RoomManager.removePlayerFromRoom code playerId rooms
  end.

(** What a change makes of the players and of the connections of the
    room, as sets. *)
Definition changePlayers (c : Change) (ps : Js.jsset) : Js.jsset :=
  match c with
  | addPlayer _ playerId _ => Js.set_add playerId ps
  | removePlayer playerId => Js.set_delete playerId ps
  | _ => ps
  end.

Definition changeClients (c : Change) (cs : Js.jsset) : Js.jsset :=
  match c with
  | addClient _ clientId => Js.set_add clientId cs
  | removeClient clientId => Js.set_delete clientId cs
  | _ => cs
  end.

(** What holds of the rooms of [s] holds of the rooms of [s']. *)
Definition kept (Inv : RoomManager.t -> Prop) (s s' : PlayerManager.t) : Prop :=
  Inv (PlayerManager.roomManager s) -> Inv (PlayerManager.roomManager s').

Definition keptByServer (Inv : RoomManager.t -> Prop)
    (s s' : MessageProtocol.t) : Prop :=
  kept Inv (MessageProtocol.playerManager s) (MessageProtocol.playerManager s').

End Rooms.

(** *** The timers and the phase *)
Module Timers.
Import GameState.

(** The timer a phase arms: its delay and the phase it leads to. *)
Definition ofPhase (p : Phase) : option (Z * Phase) :=
  match p with
  | Discussion => Some (GameManager.discussionDuration, Voting)
  | Voting => Some (GameManager.votingTimeout, ResultsPhase)
  | ResultsPhase => Some (30000%Z, Waiting)
  | Waiting | Question => None
  end.

(** Exactly the timer of the phase is armed, and [phaseTimer] holds
    it. *)
Definition inStep (g : GameManager.t) : Prop :=
  match ofPhase (phase (GameManager.gameState g)) with
  | Some (d, t) =>
      exists i, GameManager.phaseTimer g = Some i /\
                GameManager.armed g
                = [{| Timer.id := i; Timer.delay := d; Timer.target := t |}]
  | None => GameManager.phaseTimer g = None /\ GameManager.armed g = []
  end.

(** At most the timer that [phaseTimer] holds is armed. *)
Definition atMostOne (g : GameManager.t) : Prop :=
  GameManager.armed g = [] \/
  exists x, GameManager.armed g = [x] /\
            GameManager.phaseTimer g = Some (Timer.id x).

End Timers.

(** *** The checks of the protocol *)
Module Checks.
Import MessageProtocol.

(** What [validatePayloadSchema] asks of one field of the schema. *)
Definition fieldOk (payload : Js.object) (maxLength : option nat)
    (f : Schema.Field) : bool :=
  let field := Schema.name f in
  if Js.has_field field payload then
    hasType (Schema.fieldType f) (Js.field field payload)
    && match maxLength, Js.field field payload with
       | Some n, Js.VStr text =>
           negb ((field =? "message") && negb (n =? 0)%nat
                 && (n <? String.length text)%nat)
       | _, _ => true
       end
  else Schema.isOptional f.

(** The message types that ask for a joined player. *)
Definition authenticated : list string :=
  [ "leave"; "toggle_ready"; "start_game"; "vote"; "new_game";
    "submit_answer"; "force_phase_transition" ].

(** The message passes the stages that come before its handler. *)
Definition passes (env : PlayerManager.Env) (c : string)
    (message : Inbound.t) (s : MessageProtocol.t) : Prop :=
  result_of (validateMessageStructure (PlayerManager.now env) message s) = inr tt /\
  exists client,
    PlayerManager.getClientById c (playerManager s) = Some client /\
    result_of (validateMessage message client s) = inr tt.

End Checks.

(** *** Who a broadcast reaches *)
Module Audience.
Import PlayerManager.

(** The connection is registered and its socket is open. *)
Definition reaches (p : PlayerManager.t) (clientId : string) : bool :=
  Js.map_has clientId (clients p) && isOpen clientId p.

Definition deliver (m : Message) (clientId : string) : Delivery.t :=
  {| Delivery.to := clientId; Delivery.message := m |}.

(** [player.ready = !player.ready] *)
Definition toggled (player : Player.t) : Player.t :=
  {| Player.id := Player.id player; Player.name := Player.name player;
     Player.email := Player.email player;
     Player.roomCode := Player.roomCode player;
     Player.joinedAt := Player.joinedAt player;
     Player.isActive := Player.isActive player;
     Player.ready := negb (Player.ready player);
     Player.clientId := Player.clientId player |}.

(** The list of every registered player, as [broadcastPlayerList]
    sends it without a room. *)
Definition everyPlayer (now : Z) (p : PlayerManager.t) : Message :=
  let entries := map listEntry (map snd (playerObjects p)) in
  player_list_update entries (length entries) None now.

End Audience.

(** *** One connection for a player *)
Module Connections.
Import PlayerManager.

Definition playerOf (e : string * Client.t) : list string :=
  match Client.playerId (snd e) with
  | Some p => [p]
  | None => []
  end.

(** The players of the connections, in the order of [this.clients]. *)
Definition playersOf (s : PlayerManager.t) : list string :=
  flat_map playerOf (clients s).

(** No two connections have the same player. *)
Definition onePerPlayer (s : PlayerManager.t) : Prop := NoDup (playersOf s).

Definition kept (s s' : PlayerManager.t) : Prop :=
  onePerPlayer s -> onePerPlayer s'.

Definition keptByServer (s s' : MessageProtocol.t) : Prop :=
  kept (MessageProtocol.playerManager s) (MessageProtocol.playerManager s').

End Connections.

(** *** The coordinator of the server *)
Module Coordinator.

(** The coordinator of [s'] is the coordinator of [s] after calls of
    its methods and expiries of its timers. *)
Definition calledFrom (s s' : MessageProtocol.t) : Prop :=
  exists cs,
    MessageProtocol.gameManager s'
    = Session.calls cs (MessageProtocol.gameManager s).

End Coordinator.

(** *** index.js: every event of the server

    Besides the events of the sockets and the timers of the handlers,
    the server has the tick of the heartbeat and the HTTP request that
    creates a room. *)
Module Server.
Import PlayerManager MessageProtocol.

Local Open Scope js_scope.

(** The callback of [startHeartbeatSystem]'s interval, and what it
    has queued. *)
Definition heartbeat (env : Env) : R unit :=
  liftP (Heartbeat.sendHeartbeatPings (now env) ;;
         Heartbeat.cleanupStaleConnections (now env) ;;
         await (now env)).

(** [POST /rooms]: [createRoom(null)]; its error is answered and goes
    no further. *)
Definition requestRoom (env : Env) (random : nat -> nat) : R unit :=
  modify (fun s =>
    match RoomCodes.createRoom (now env) random None
            (roomManager (playerManager s)) with
    | inr (_, rooms) =>
        {| gameManager := gameManager s;
           playerManager := with_roomManager (fun _ => rooms) (playerManager s);
           startTimers := startTimers s |}
    | inl _ => s
    end).

Inductive Event :=
| Socket (e : GameServer.Event)
| HeartbeatDue
| RoomRequest (random : nat -> nat).

Definition step (env : Env) (e : Event) : R unit :=
  match e with
  | Socket e => GameServer.step env e
  | HeartbeatDue => heartbeat env
  | RoomRequest random => requestRoom env random
  end.

Fixpoint run (env : Env) (es : list Event) : R unit :=
  match es with
  | [] => ret tt
  | e :: es' => step env e ;; run env es'
  end.

Definition isRoomRequest (e : Event) : bool :=
  match e with
  | RoomRequest _ => true
  | _ => false
  end.

(** No room is created over HTTP. *)
Definition noRoomRequest (es : list Event) : bool :=
  forallb (fun e => negb (isRoomRequest e)) es.

End Server.

(* ===================================================================== *)
(** * Properties *)
(* ===================================================================== *)

Unset Implicit Arguments.

(** ** Reachable states of the coordinator *)

Section SessionFacts.
Import GameState Session.

Lemma transitionPhase_votes now p d g :
  votes (GameManager.gameState (state_of (GameManager.transitionPhase now p d g)))
  = match p with
    | Voting | Waiting => []
    | _ => votes (GameManager.gameState g)
    end.
Proof.
  destruct g as [gs pt ar nt], p, pt; reflexivity.
Qed.

Lemma transitionPhase_players now p d g :
  players (GameManager.gameState (state_of (GameManager.transitionPhase now p d g)))
  = players (GameManager.gameState g).
Proof.
  destruct g as [gs pt ar nt], p, pt; reflexivity.
Qed.

Lemma transitionPhase_phase now p d g :
  phase (GameManager.gameState (state_of (GameManager.transitionPhase now p d g))) = p.
Proof.
  destruct g as [gs pt ar nt], p, pt; reflexivity.
Qed.

Lemma find_voter_none p vs :
  find (fun vote => Vote.playerId vote =? p) vs = None ->
  ~ In p (map Vote.playerId vs).
Proof.
  induction vs as [|v vs IH]; simpl; [tauto|].
  destruct (String.eqb_spec (Vote.playerId v) p); [discriminate|].
  intros H [E|I]; [congruence | exact (IH H I)].
Qed.

Lemma NoDup_snoc (A : Type) (l : list A) x : NoDup l -> ~ In x l -> NoDup (l ++ [x]).
Proof.
  intros Hl Hx. induction Hl as [|y l Hy Hl IH]; simpl.
  - constructor; [tauto | constructor].
  - constructor.
    + rewrite in_app_iff. simpl. intros [H|[H|[]]]; [tauto | subst; apply Hx; now left].
    + apply IH. intro; apply Hx; now right.
Qed.

(** A vote is refused and leaves the state as it is, or it is recorded. *)
Lemma handleVote_votes now p t g :
  let g' := state_of (GameManager.handleVote now p t g) in
  g' = g \/
  (phase (GameManager.gameState g) = Voting /\
   ~ In p (voters g) /\
   players (GameManager.gameState g') = players (GameManager.gameState g) /\
   votes (GameManager.gameState g')
   = votes (GameManager.gameState g)
     ++ [{| Vote.playerId := p; Vote.targetId := t; Vote.timestamp := now |}] /\
   phase (GameManager.gameState g')
   = if (playerCount g <=? S (voteCount g))%nat then ResultsPhase else Voting).
Proof.
  destruct g as [gs pt ar nt]. cbv zeta.
  unfold GameManager.handleVote, bind, get. simpl.
  destruct (phase gs) eqn:Hph; simpl; try (now left).
  destruct (find _ (votes gs)) eqn:Hf; simpl; [now left|].
  unfold voters, voteCount, playerCount. simpl.
  rewrite length_app. simpl. rewrite Nat.add_1_r.
  destruct (length (players gs) <=? S (length (votes gs)))%nat eqn:Hq; simpl.
  - destruct pt; simpl; right; repeat split; auto using find_voter_none.
  - right; repeat split; auto using find_voter_none.
Qed.

Lemma state_of_put_bind (S O A : Type) (s1 s : S) (m : M S O A) :
  state_of (bind (put s1) (fun _ => m) s) = state_of (m s1).
Proof.
  unfold bind, put, state_of. destruct (m s1) as [[s2 o2] r2]. reflexivity.
Qed.

Lemma fireTimeout_eq now i g :
  GameManager.fireTimeout now i g
  = match find (fun x => (Timer.id x =? i)%nat) (GameManager.armed g) with
    | Some x =>
        GameManager.transitionPhase now (Timer.target x) PhaseData.none
          {| GameManager.gameState := GameManager.gameState g;
             GameManager.phaseTimer := GameManager.phaseTimer g;
             GameManager.armed :=
               filter (fun y => negb (Timer.id y =? i)%nat) (GameManager.armed g);
             GameManager.nextTimer := GameManager.nextTimer g |}
    | None => (g, [], inr tt)
    end.
Proof.
  unfold GameManager.fireTimeout. unfold bind at 1. unfold get at 1.
  cbv beta iota.
  destruct (find _ (GameManager.armed g)) as [x|]; [|reflexivity].
  unfold bind, put.
  match goal with |- context [GameManager.transitionPhase ?n ?p ?d ?s] =>
    destruct (GameManager.transitionPhase n p d s) as [[s2 o2] r2] end.
  reflexivity.
Qed.

Lemma fireTimeout_state now i g :
  state_of (GameManager.fireTimeout now i g) = g \/
  exists g1 x,
    find (fun x => (Timer.id x =? i)%nat) (GameManager.armed g) = Some x /\
    GameManager.gameState g1 = GameManager.gameState g /\
    state_of (GameManager.fireTimeout now i g)
    = state_of (GameManager.transitionPhase now (Timer.target x) PhaseData.none g1).
Proof.
  rewrite fireTimeout_eq.
  destruct (find _ (GameManager.armed g)) as [x|] eqn:Hf; [|now left].
  right. eexists _, x. split; [reflexivity|]. split; [|reflexivity].
  reflexivity.
Qed.

Lemma call_voters_NoDup c g : NoDup (voters g) -> NoDup (voters (call c g)).
Proof.
  intros H. destruct c as [now p d|now p t|ps|now i]; simpl.
  - unfold voters. rewrite transitionPhase_votes. destruct p; auto; constructor.
  - destruct (handleVote_votes now p t g) as [E|(_ & Hn & _ & E & _)];
      unfold voters in *; rewrite E; auto.
    rewrite map_app. simpl. now apply NoDup_snoc.
  - destruct g; exact H.
  - destruct (fireTimeout_state now i g) as [E|(g1 & x & _ & Hg & E)];
      rewrite E; auto.
    unfold voters in *. rewrite transitionPhase_votes, Hg.
    destruct (Timer.target x); auto; constructor.
Qed.

Lemma calls_voters_NoDup cs : forall g, NoDup (voters g) -> NoDup (voters (calls cs g)).
Proof.
  induction cs as [|c cs IH]; intros g H; simpl; auto using call_voters_NoDup.
Qed.

Lemma start_voters row : voters (start row) = [].
Proof. destruct row; reflexivity. Qed.

Lemma transitionPhase_quorum now p d g :
  quorum g -> (p = Voting -> 0 < playerCount g) ->
  quorum (state_of (GameManager.transitionPhase now p d g)).
Proof.
  unfold quorum, voteCount, playerCount. intros [Hle Hv] Hp.
  rewrite transitionPhase_votes, transitionPhase_players, transitionPhase_phase.
  destruct p; simpl; split; try lia; try discriminate; auto.
Qed.

Lemma call_quorum c g : quorum g -> keepsQuorum c g = true -> quorum (call c g).
Proof.
  intros Hq Hk. destruct c as [now p d|now p t|ps|now i]; simpl in *.
  - apply transitionPhase_quorum; auto. intros ->. now apply Nat.ltb_lt.
  - destruct (handleVote_votes now p t g) as [E|(Hph & _ & Hpl & E & Hph')];
      [now rewrite E|].
    unfold quorum, voteCount, playerCount in *.
    rewrite Hpl, E, Hph', length_app. simpl. destruct Hq as [Hle Hv].
    specialize (Hv Hph).
    destruct (Nat.leb_spec (length (players (GameManager.gameState g)))
                (S (length (votes (GameManager.gameState g)))));
      split; first [lia | discriminate | (intros _; lia)].
  - unfold quorum, voteCount, playerCount in *. destruct g as [gs pt ar nt].
    simpl in *. destruct (phase gs) eqn:Hph;
      try (apply Nat.leb_le in Hk; split; [lia | discriminate]).
    apply Nat.ltb_lt in Hk. split; lia.
  - destruct (fireTimeout_state now i g) as [E|(g1 & x & Hf & Hg & E)];
      rewrite E; auto.
    rewrite Hf in Hk. simpl in Hk.
    apply transitionPhase_quorum.
    + unfold quorum, voteCount, playerCount in *. now rewrite Hg.
    + intros Ht. rewrite Ht in Hk. apply Nat.ltb_lt in Hk.
      unfold playerCount in *. now rewrite Hg.
Qed.

Lemma calls_quorum cs : forall g,
  quorum g -> quorumKept cs g = true -> quorum (calls cs g).
Proof.
  induction cs as [|c cs IH]; intros g Hq Hk; simpl in *; auto.
  apply andb_prop in Hk as [H1 H2]. auto using call_quorum.
Qed.

(** C1, as the code has it.  In every reachable state of the coordinator
    no voter appears twice in the collected votes.  The votes do not
    exceed the players as long as the quorum is kept: no vote is opened
    among no players and [updatePlayers] installs no list that the votes
    already collected fill or exceed; [updatePlayers] itself replaces
    the list and leaves the votes as they are. *)
Theorem votes_unique_and_bounded_while_quorum_kept row cs :
  let g0 := Session.start row in
  let g := Session.calls cs g0 in
  NoDup (Session.voters g) /\
  (phase (GameManager.gameState g0) <> Voting ->
   Session.quorumKept cs g0 = true ->
   Session.voteCount g <= Session.playerCount g).
Proof.
  cbv zeta. split.
  - apply calls_voters_NoDup. rewrite start_voters. constructor.
  - intros Hph Hk.
    apply (calls_quorum cs (Session.start row)); [|exact Hk].
    destruct row as [row|]; split; simpl; auto; try discriminate.
    intros H. contradiction.
Qed.

End SessionFacts.

(** ** Own properties in property order *)

Section PropsFacts.
Variable V : Type.
Implicit Types (o : Js.props V) (k : string) (v : V).

Lemma get_In k v o : Js.get k o = Some v -> In (k, v) o.
Proof.
  induction o as [|[k' v'] o IH]; simpl; [discriminate|].
  destruct (String.eqb_spec k' k); intros H.
  - injection H as ->. subst. now left.
  - right. auto.
Qed.

Lemma get_None_keys k o : Js.get k o = None -> ~ In k (Js.keys o).
Proof.
  induction o as [|[k' v'] o IH]; simpl; [tauto|].
  destruct (String.eqb_spec k' k); [discriminate|].
  intros H [E|I]; [congruence | exact (IH H I)].
Qed.

Lemma In_get k v o : NoDup (Js.keys o) -> In (k, v) o -> Js.get k o = Some v.
Proof.
  induction o as [|[k' v'] o IH]; simpl; [tauto|].
  intros Hnd [E|I].
  - injection E as -> ->. now rewrite String.eqb_refl.
  - inversion Hnd as [|? ? Hk Hnd']; subst.
    destruct (String.eqb_spec k' k) as [->|_]; [|auto].
    exfalso. apply Hk. change k with (fst (k, v)). now apply in_map.
Qed.

Lemma keys_replace k v o : Js.keys (Js.replace k v o) = Js.keys o.
Proof.
  induction o as [|[k' v'] o IH]; simpl; [reflexivity|].
  destruct (String.eqb_spec k' k); simpl; congruence.
Qed.

Lemma get_replace_same k v v0 o :
  Js.get k o = Some v0 -> Js.get k (Js.replace k v o) = Some v.
Proof.
  induction o as [|[k' v'] o IH]; simpl; [discriminate|].
  destruct (String.eqb_spec k' k); simpl.
  - now rewrite String.eqb_refl.
  - destruct (String.eqb_spec k' k); [contradiction | auto].
Qed.

Lemma get_replace_other k k' v o :
  k' <> k -> Js.get k' (Js.replace k v o) = Js.get k' o.
Proof.
  intros Hne. induction o as [|[k1 v1] o IH]; simpl; [reflexivity|].
  destruct (String.eqb_spec k1 k); simpl.
  - subst. destruct (String.eqb_spec k k'); [congruence | reflexivity].
  - now rewrite IH.
Qed.

Lemma get_app k o1 o2 :
  Js.get k (o1 ++ o2)
  = match Js.get k o1 with Some v => Some v | None => Js.get k o2 end.
Proof.
  induction o1 as [|[k' v'] o1 IH]; simpl; [reflexivity|].
  now destruct (k' =? k).
Qed.

Lemma get_insert_index_same i k v o :
  Js.get k o = None -> Js.get k (Js.insert_index i k v o) = Some v.
Proof.
  induction o as [|[k' v'] o IH]; simpl.
  - now rewrite String.eqb_refl.
  - destruct (String.eqb_spec k' k); [discriminate|]. intros H.
    destruct (Js.array_index k') as [j|]; [destruct (j <? i)%N|]; simpl;
      rewrite ?String.eqb_refl; auto.
    destruct (String.eqb_spec k' k); [contradiction | auto].
Qed.

Lemma get_insert_index_other i k k' v o :
  k' <> k -> Js.get k' (Js.insert_index i k v o) = Js.get k' o.
Proof.
  intros Hne. induction o as [|[k1 v1] o IH]; simpl.
  - destruct (String.eqb_spec k k'); [congruence | reflexivity].
  - destruct (Js.array_index k1) as [j|]; [destruct (j <? i)%N|]; simpl;
      rewrite ?IH; auto;
      destruct (String.eqb_spec k k'); congruence.
Qed.

Lemma get_set_same k v o : Js.get k (Js.set k v o) = Some v.
Proof.
  unfold Js.set. destruct (Js.get k o) eqn:E.
  - eapply get_replace_same; eauto.
  - destruct (Js.array_index k).
    + now apply get_insert_index_same.
    + rewrite get_app, E. simpl. now rewrite String.eqb_refl.
Qed.

Lemma get_set_other k k' v o : k' <> k -> Js.get k' (Js.set k v o) = Js.get k' o.
Proof.
  intros Hne. unfold Js.set. destruct (Js.get k o) eqn:E.
  - now apply get_replace_other.
  - destruct (Js.array_index k).
    + now apply get_insert_index_other.
    + rewrite get_app. simpl.
      destruct (String.eqb_spec k k'); [congruence|].
      now destruct (Js.get k' o).
Qed.

Lemma keys_insert_index_In i k v o x :
  In x (Js.keys (Js.insert_index i k v o)) <-> x = k \/ In x (Js.keys o).
Proof.
  induction o as [|[k' v'] o IH]; simpl; [intuition|].
  destruct (Js.array_index k') as [j|]; [destruct (j <? i)%N|]; simpl;
    rewrite ?IH; intuition.
Qed.
End PropsFacts.

(** ** The tally loop *)

Section TallyFacts.
Import GameState Tally.

Lemma array_index_decimal s i : Js.array_index s = Some i -> s = Js.decimal i.
Proof.
  unfold Js.array_index. destruct (NilZero.uint_of_string s) as [u|]; [|discriminate].
  destruct (String.eqb_spec (Js.decimal (N.of_uint u)) s) as [E|]; simpl; [|discriminate].
  destruct (N.of_uint u <=? 4294967294)%N; [|discriminate].
  intros H. injection H as <-. now symmetry.
Qed.

Lemma array_index_inj a b i :
  Js.array_index a = Some i -> Js.array_index b = Some i -> a = b.
Proof.
  intros Ha Hb. apply array_index_decimal in Ha, Hb. congruence.
Qed.

Lemma firstSeen_lt t seen : In t seen -> firstSeen t seen < length seen.
Proof.
  induction seen as [|x seen IH]; simpl; [tauto|].
  destruct (String.eqb_spec x t); [lia|].
  intros [E|I]; [congruence | specialize (IH I); lia].
Qed.

Lemma firstSeen_app_In t seen more :
  In t seen -> firstSeen t (seen ++ more) = firstSeen t seen.
Proof.
  induction seen as [|x seen IH]; simpl; [tauto|].
  destruct (String.eqb_spec x t); [reflexivity|].
  intros [E|I]; [congruence | now rewrite IH].
Qed.

Lemma firstSeen_app_new t seen :
  ~ In t seen -> firstSeen t (seen ++ [t]) = length seen.
Proof.
  induction seen as [|x seen IH]; simpl.
  - now rewrite String.eqb_refl.
  - destruct (String.eqb_spec x t); [tauto|]. intros H. rewrite IH; tauto.
Qed.

Lemma propertyBefore_irrefl seen a : ~ propertyBefore seen a a.
Proof.
  unfold propertyBefore. destruct (Js.array_index a); lia.
Qed.

Lemma propertyBefore_app seen more a b :
  In a seen -> In b seen ->
  propertyBefore seen a b -> propertyBefore (seen ++ more) a b.
Proof.
  unfold propertyBefore. intros Ha Hb.
  destruct (Js.array_index a), (Js.array_index b); auto.
  now rewrite !firstSeen_app_In.
Qed.

Lemma StronglySorted_impl (A : Type) (R R' : A -> A -> Prop) l :
  (forall a b, In a l -> In b l -> R a b -> R' a b) ->
  StronglySorted R l -> StronglySorted R' l.
Proof.
  intros H Hs. induction Hs as [|x l Hs IH Hx]; constructor.
  - apply IH. intros a b Ha Hb. apply H; now right.
  - rewrite Forall_forall in *. intros b Hb. apply H; [now left | now right | auto].
Qed.

Lemma StronglySorted_NoDup seen l :
  StronglySorted (propertyBefore seen) l -> NoDup l.
Proof.
  induction 1 as [|x l Hs IH Hx]; constructor; auto.
  intros Hin. rewrite Forall_forall in Hx.
  exact (propertyBefore_irrefl _ _ (Hx x Hin)).
Qed.

Lemma StronglySorted_snoc (A : Type) (R : A -> A -> Prop) l x :
  StronglySorted R l -> (forall a, In a l -> R a x) -> StronglySorted R (l ++ [x]).
Proof.
  induction 1 as [|y l Hs IH Hy]; intros Hx; simpl.
  - repeat constructor.
  - constructor.
    + apply IH. intros a Ha. apply Hx. now right.
    + rewrite Forall_forall in *. intros b Hb.
      apply in_app_or in Hb as [Hb|[<-|[]]]; [auto | apply Hx; now left].
Qed.

Lemma insert_index_sorted (V : Type) seen i k (v : V) o :
  Js.array_index k = Some i -> ~ In k (Js.keys o) ->
  StronglySorted (propertyBefore seen) (Js.keys o) ->
  StronglySorted (propertyBefore seen) (Js.keys (Js.insert_index i k v o)).
Proof.
  intros Hk. induction o as [|[k' v'] o IH]; simpl; intros Hn Hs.
  - repeat constructor.
  - inversion Hs as [|? ? Hs' Hall]; subst. rewrite Forall_forall in Hall.
    assert (Hne : k' <> k) by tauto.
    destruct (Js.array_index k') as [j|] eqn:Hj; [destruct (N.ltb_spec j i)|];
      simpl.
    + constructor; [apply IH; tauto|].
      rewrite Forall_forall. intros x Hx.
      apply keys_insert_index_In in Hx as [->|Hx]; [|auto].
      unfold propertyBefore. now rewrite Hj, Hk.
    + assert (i < j)%N.
      { destruct (N.eq_dec i j) as [->|]; [|lia].
        exfalso. apply Hne. eapply array_index_inj; eauto. }
      constructor; [exact Hs|]. rewrite Forall_forall.
      intros x [<-|Hx]; unfold propertyBefore; rewrite Hk.
      * now rewrite Hj.
      * specialize (Hall x Hx). unfold propertyBefore in Hall. rewrite Hj in Hall.
        destruct (Js.array_index x); [lia | exact I].
    + constructor; [exact Hs|]. rewrite Forall_forall.
      intros x [<-|Hx]; unfold propertyBefore; rewrite Hk.
      * now rewrite Hj.
      * specialize (Hall x Hx). unfold propertyBefore in Hall. rewrite Hj in Hall.
        destruct (Js.array_index x); [contradiction | exact I].
Qed.

Lemma votesFor_snoc t done v :
  votesFor t (done ++ [v])
  = votesFor t done + (if Vote.targetId v =? t then 1 else 0).
Proof.
  unfold votesFor. rewrite filter_app, length_app. simpl.
  now destruct (Vote.targetId v =? t).
Qed.

Lemma votesFor_pos_In t done : votesFor t done <> 0 -> In t (targets done).
Proof.
  unfold votesFor, targets. induction done as [|v done IH]; simpl; [tauto|].
  destruct (String.eqb_spec (Vote.targetId v) t); simpl; auto.
Qed.

Lemma votesFor_zero_not_In t done : votesFor t done = 0 -> ~ In t (targets done).
Proof.
  unfold votesFor, targets. induction done as [|v done IH]; simpl; [tauto|].
  destruct (String.eqb_spec (Vote.targetId v) t); simpl; [discriminate|].
  intros H [E|I]; [congruence | exact (IH H I)].
Qed.

Lemma expected_Some_In t done c : expected t done = Some c -> In t (targets done).
Proof.
  unfold expected. destruct (Nat.eqb_spec (votesFor t done) 0); [discriminate|].
  intros _. now apply votesFor_pos_In.
Qed.

Lemma tallied_keys_seen o done k :
  tallied o done -> In k (Js.keys o) -> In k (targets done).
Proof.
  intros [Hg _] Hk. destruct (Js.get k o) eqn:E.
  - rewrite Hg in E. eapply expected_Some_In; eauto.
  - exfalso. eapply get_None_keys; eauto.
Qed.

Lemma inherited_proto : Js.inherited "__proto__" = true.
Proof. reflexivity. Qed.

Lemma countVote_tallied o done v :
  tallied o done -> tallied (GameManager.countVote o v) (done ++ [v]).
Proof.
  intros Ht. pose proof Ht as [Hg Hs].
  set (t0 := Vote.targetId v).
  assert (Hseen : forall a b, In a (Js.keys o) -> In b (Js.keys o) ->
            propertyBefore (targets done) a b ->
            propertyBefore (targets (done ++ [v])) a b).
  { intros a b Ha Hb. unfold targets. rewrite map_app.
    apply propertyBefore_app; eapply tallied_keys_seen; eauto. }
  assert (Hother : forall t, t <> t0 -> expected t (done ++ [v]) = expected t done).
  { intros t Hne. unfold expected. rewrite votesFor_snoc. fold t0.
    destruct (String.eqb_spec t0 t); [congruence|]. now rewrite Nat.add_0_r. }
  assert (Hsame : votesFor t0 (done ++ [v]) = S (votesFor t0 done)).
  { rewrite votesFor_snoc. fold t0. rewrite String.eqb_refl. lia. }
  unfold GameManager.countVote. fold t0.
  pose proof (Hg t0) as Ht0. unfold expected in Ht0.
  destruct (Js.get t0 o) as [[n|]|] eqn:Hget.
  - (* counted before *)
    split.
    + intros t. destruct (String.eqb_spec t t0) as [->|Hne].
      * rewrite get_set_same. unfold expected. rewrite Hsame. simpl.
        destruct (votesFor t0 done =? 0)%nat; [discriminate|].
        destruct (t0 =? "__proto__"); [discriminate|].
        destruct (Js.inherited t0); [discriminate|].
        injection Ht0 as ->. f_equal. f_equal. lia.
      * rewrite get_set_other, Hother; auto.
    + unfold Js.set. rewrite Hget, keys_replace.
      eapply StronglySorted_impl; eauto.
  - split.
    + intros t. destruct (String.eqb_spec t t0) as [->|Hne].
      * rewrite get_set_same. unfold expected. rewrite Hsame. simpl.
        destruct (votesFor t0 done =? 0)%nat; [discriminate|].
        destruct (t0 =? "__proto__"); [discriminate|].
        destruct (Js.inherited t0); [reflexivity | discriminate].
      * rewrite get_set_other, Hother; auto.
    + unfold Js.set. rewrite Hget, keys_replace.
      eapply StronglySorted_impl; eauto.
  - (* a new key, unless it is __proto__ *)
    destruct (String.eqb_spec t0 "__proto__") as [Hp|Hp].
    + split.
      * intros t. destruct (String.eqb_spec t t0) as [->|Hne].
        -- rewrite Hget. unfold expected. rewrite Hsame. simpl.
           rewrite Hp. reflexivity.
        -- rewrite Hother; auto.
      * eapply StronglySorted_impl; eauto.
    + assert (Hz : votesFor t0 done = 0).
      { destruct (Nat.eqb_spec (votesFor t0 done) 0); [assumption|].
        destruct (String.eqb_spec t0 "__proto__"); [contradiction|].
        destruct (Js.inherited t0); discriminate. }
      assert (Hnew : ~ In t0 (targets done)) by now apply votesFor_zero_not_In.
      assert (Hnk : ~ In t0 (Js.keys o)) by now apply get_None_keys.
      assert (Hs' : StronglySorted (propertyBefore (targets (done ++ [v]))) (Js.keys o))
        by (eapply StronglySorted_impl; eauto).
      assert (Hord : forall c, StronglySorted (propertyBefore (targets (done ++ [v])))
                       (Js.keys (Js.set t0 c o))).
      { intros c. unfold Js.set. rewrite Hget.
        destruct (Js.array_index t0) as [i|] eqn:Hi.
        - now apply insert_index_sorted.
        - unfold Js.keys. rewrite map_app. simpl.
          apply StronglySorted_snoc; [exact Hs'|].
          intros a Ha. unfold propertyBefore. rewrite Hi.
          destruct (Js.array_index a); [exact I|].
          unfold targets. rewrite map_app. simpl. fold t0. fold (targets done).
          rewrite firstSeen_app_new by assumption.
          rewrite firstSeen_app_In by (eapply tallied_keys_seen; eauto).
          apply firstSeen_lt. eapply tallied_keys_seen; eauto. }
      assert (Hval : forall c,
                 c = (if Js.inherited t0 then Text else Num 1) ->
                 forall t, Js.get t (Js.set t0 c o) = expected t (done ++ [v])).
      { intros c -> t. destruct (String.eqb_spec t t0) as [->|Hne].
        - rewrite get_set_same. unfold expected. rewrite Hsame, Hz. simpl.
          destruct (String.eqb_spec t0 "__proto__"); [contradiction|].
          now destruct (Js.inherited t0).
        - rewrite get_set_other, Hother; auto. }
      destruct (Js.inherited t0) eqn:Hinh; split; auto.
Qed.

Lemma fold_countVote_tallied votes : forall o done,
  tallied o done -> tallied (fold_left GameManager.countVote votes o) (done ++ votes).
Proof.
  induction votes as [|v votes IH]; intros o done Ht; simpl.
  - now rewrite app_nil_r.
  - replace (done ++ v :: votes) with ((done ++ [v]) ++ votes)
      by (rewrite <- app_assoc; reflexivity).
    apply IH. now apply countVote_tallied.
Qed.

Lemma tally_tallied votes : tallied (fold_left GameManager.countVote votes []) votes.
Proof.
  apply (fold_countVote_tallied votes [] []).
  split; [reflexivity | constructor].
Qed.

End TallyFacts.

(** ** The search loop *)

Section Plurality.
Import GameState Tally.

(** The search loop finds the first entry with the highest count. *)
Lemma moreVotes_first_highest l : forall b0 m0 b m,
  fold_left GameManager.moreVotes l (b0, m0) = (b, m) ->
  (b = b0 /\ m = m0 /\ forall k n, In (k, Num n) l -> n <= m0) \/
  (exists l1 k l2,
      l = l1 ++ (k, Num m) :: l2 /\ b = Some k /\ m0 < m /\
      (forall k' n, In (k', Num n) l1 -> n < m) /\
      (forall k' n, In (k', Num n) l2 -> n <= m)).
Proof.
  induction l as [|[k c] l IH]; intros b0 m0 b m; simpl.
  - intros H. injection H as <- <-. left. repeat split. intros ? ? [].
  - unfold GameManager.moreVotes at 2. simpl.
    destruct c as [n|].
    + destruct (Nat.ltb_spec m0 n) as [Hlt|Hge]; intros H; apply IH in H.
      * right. destruct H as [(-> & -> & Hall)|(l1 & k2 & l2 & -> & -> & Hm & H1 & H2)].
        -- exists [], k, l. repeat split; auto. intros ? ? [].
        -- exists ((k, Num n) :: l1), k2, l2. repeat split; auto; try lia.
           intros k' n' [E|I]; [injection E as _ <-; lia | eauto].
      * destruct H as [(-> & -> & Hall)|(l1 & k2 & l2 & -> & -> & Hm & H1 & H2)].
        -- left. repeat split. intros k' n' [E|I]; [injection E as _ <-; lia | eauto].
        -- right. exists ((k, Num n) :: l1), k2, l2. repeat split; auto.
           intros k' n' [E|I]; [injection E as _ <-; lia | eauto].
    + intros H; apply IH in H.
      destruct H as [(-> & -> & Hall)|(l1 & k2 & l2 & -> & -> & Hm & H1 & H2)].
      * left. repeat split. intros k' n' [E|I]; [discriminate | eauto].
      * right. exists ((k, Text) :: l1), k2, l2. repeat split; auto.
        intros k' n' [E|I]; [discriminate | eauto].
Qed.

Lemma option_string_eqb_eq a b :
  GameManager.option_string_eqb a b = true <-> a = b.
Proof.
  destruct a as [x|], b as [y|]; simpl; split; try congruence; try discriminate.
  - intros H. apply String.eqb_eq in H. congruence.
  - intros H. injection H as ->. apply String.eqb_refl.
Qed.

Lemma expected_counted t votes :
  Js.inherited t = false ->
  expected t votes
  = if (votesFor t votes =? 0)%nat then None else Some (Num (votesFor t votes)).
Proof.
  intros Hi. unfold expected. rewrite Hi.
  destruct (String.eqb_spec t "__proto__") as [->|]; [discriminate|].
  reflexivity.
Qed.

Lemma expected_Num t votes n :
  expected t votes = Some (Num n) ->
  Js.inherited t = false /\ n = votesFor t votes /\ 0 < n.
Proof.
  unfold expected. destruct (Nat.eqb_spec (votesFor t votes) 0); [discriminate|].
  destruct (t =? "__proto__"); [discriminate|].
  destruct (Js.inherited t); [discriminate|].
  intros H. injection H as <-. repeat split. lia.
Qed.

Lemma In_split_keys (V : Type) (l1 l2 : Js.props V) k v k' v' :
  NoDup (Js.keys (l1 ++ (k, v) :: l2)) ->
  In (k', v') (l1 ++ (k, v) :: l2) -> k' <> k ->
  In (k', v') l1 \/ In (k', v') l2.
Proof.
  intros _ H Hne. apply in_app_or in H as [H|[H|H]]; auto.
  injection H as -> ->. contradiction.
Qed.

Lemma StronglySorted_before (A : Type) (R : A -> A -> Prop) l1 x l2 y :
  StronglySorted R (l1 ++ x :: l2) -> In y l2 -> R x y.
Proof.
  induction l1 as [|z l1 IH]; simpl; intros Hs Hy.
  - inversion Hs as [|? ? _ Hall]; subst. rewrite Forall_forall in Hall. auto.
  - inversion Hs; subst. auto.
Qed.

End Plurality.

(** ** The results of a vote *)

Section Results.
Import GameState Tally.

(** What the two loops of [calculateVoteResults] compute, whatever the
    targets are.  [voteCounts[t] || 0] reads a member of
    [Object.prototype] where the target has its name, so the tally
    goes wrong for such a target; the statement keeps these names
    apart. *)
Lemma calculateVoteResults_loops (gs : GameState.t) :
  let r := GameManager.calculateVoteResults gs in
  let vs := votes gs in
  (forall t, Js.inherited t = false ->
     Js.get t (Results.voteCounts r)
     = if (votesFor t vs =? 0)%nat then None else Some (Num (votesFor t vs))) /\
  (forall t n, Js.inherited t = true ->
     Js.get t (Results.voteCounts r) <> Some (Num n)) /\
  (forall t, Results.mostVotedPlayer r = Some t ->
     Js.inherited t = false /\ 0 < votesFor t vs /\
     forall t', Js.inherited t' = false ->
       votesFor t' vs <= votesFor t vs /\
       (votesFor t' vs = votesFor t vs -> t' <> t ->
        propertyBefore (targets vs) t t')) /\
  (Results.mostVotedPlayer r = None <->
   forall v, In v vs -> Js.inherited (Vote.targetId v) = true) /\
  (Results.playersWon r = true <-> Results.mostVotedPlayer r = imposter gs) /\
  Results.imposter r = imposter gs /\
  Results.totalVotes r = length vs.
Proof.
  cbv zeta. unfold GameManager.calculateVoteResults. simpl.
  destruct (tally_tallied (votes gs)) as [Hg Hs].
  set (o := fold_left GameManager.countVote (votes gs) []) in *.
  pose proof (StronglySorted_NoDup _ _ Hs) as Hnd.
  assert (Hcounted : forall t, Js.inherited t = false -> votesFor t (votes gs) <> 0 ->
            In (t, Num (votesFor t (votes gs))) o).
  { intros t Hi Hv. apply get_In. rewrite Hg, expected_counted by assumption.
    now destruct (Nat.eqb_spec (votesFor t (votes gs)) 0). }
  assert (Hentry : forall k n, In (k, Num n) o ->
            Js.inherited k = false /\ n = votesFor k (votes gs) /\ 0 < n).
  { intros k n Hin. apply expected_Num. rewrite <- Hg. now apply In_get. }
  destruct (fold_left GameManager.moreVotes o (None, 0)) as [b m] eqn:Hfold.
  apply moreVotes_first_highest in Hfold. simpl.
  repeat split.
  - intros t Hi. now rewrite Hg, expected_counted.
  - intros t n Hi Hget. rewrite Hg in Hget. apply expected_Num in Hget. 
    destruct Hget as [Hget _]. congruence.
  - destruct Hfold as [(-> & _)|(l1 & k & l2 & Ho & -> & Hm & H1 & H2)];
      [discriminate|]. injection H as <-.
    apply (Hentry k m). rewrite Ho. apply in_or_app. right. now left.
  - destruct Hfold as [(-> & _)|(l1 & k & l2 & Ho & -> & Hm & H1 & H2)];
      [discriminate|]. injection H as <-.
    destruct (Hentry k m) as (_ & <- & Hpos); [|exact Hpos].
    rewrite Ho. apply in_or_app. right. now left.
  - destruct Hfold as [(-> & _)|(l1 & k & l2 & Ho & -> & Hm & H1 & H2)];
      [discriminate|]. injection H as <-.
    assert (Hk : In (k, Num m) o) by (rewrite Ho; apply in_or_app; right; now left).
    destruct (Hentry k m Hk) as (_ & -> & _).
    destruct (Nat.eq_dec (votesFor t' (votes gs)) 0) as [->|Hv]; [lia|].
    specialize (Hcounted t' H0 Hv). rewrite Ho in Hcounted.
    apply in_app_or in Hcounted as [Hin|[E|Hin]].
    + specialize (H1 _ _ Hin). lia.
    + injection E as _ <-. lia.
    + eauto.
  - destruct Hfold as [(-> & _)|(l1 & k & l2 & Ho & -> & Hm & H1 & H2)];
      [discriminate|]. injection H as <-.
    intros Heq Hne.
    assert (Hk : In (k, Num m) o) by (rewrite Ho; apply in_or_app; right; now left).
    destruct (Hentry k m Hk) as (_ & -> & Hpos).
    assert (Hv : votesFor t' (votes gs) <> 0) by lia.
    specialize (Hcounted t' H0 Hv). rewrite Ho, Heq in Hcounted.
    apply in_app_or in Hcounted as [Hin|[E|Hin]].
    + specialize (H1 _ _ Hin). lia.
    + injection E as ->. contradiction.
    + unfold Js.keys in Hs. rewrite Ho, map_app in Hs. simpl in Hs.
      eapply StronglySorted_before; eauto.
      change t' with (fst (t', Num (votesFor k (votes gs)))). now apply in_map.
  - intros Hb v Hv.
    destruct Hfold as [(_ & _ & Hall)|(l1 & k & l2 & Ho & -> & _)];
      [|discriminate].
    destruct (Js.inherited (Vote.targetId v)) eqn:Hi; [reflexivity|].
    exfalso.
    assert (Hpos : votesFor (Vote.targetId v) (votes gs) <> 0).
    { intros Hz. apply votesFor_zero_not_In in Hz. apply Hz.
      unfold targets. now apply in_map. }
    specialize (Hall _ _ (Hcounted _ Hi Hpos)). lia.
  - intros Hall.
    destruct Hfold as [(-> & _)|(l1 & k & l2 & Ho & -> & Hm & H1 & H2)];
      [reflexivity|]. exfalso.
    assert (Hk : In (k, Num m) o) by (rewrite Ho; apply in_or_app; right; now left).
    destruct (Hentry k m Hk) as (Hi & -> & Hpos).
    assert (Hin : In k (targets (votes gs))) by (apply votesFor_pos_In; lia).
    unfold targets in Hin. apply in_map_iff in Hin as (v & <- & Hv).
    specialize (Hall v Hv). congruence.
  - apply option_string_eqb_eq.
  - apply option_string_eqb_eq.
Qed.

Lemma voted_not_inherited vs t :
  (forall v, In v vs -> Js.inherited (Vote.targetId v) = false) ->
  votesFor t vs <> 0 -> Js.inherited t = false.
Proof.
  intros Hv Hpos. apply votesFor_pos_In in Hpos.
  unfold targets in Hpos. apply in_map_iff in Hpos as (v & <- & Hin).
  now apply Hv.
Qed.

(** C2, as the code has it, for votes whose targets are not named like
    a member of [Object.prototype].  [calculateVoteResults] counts the
    votes of every target.  The most voted player has the highest
    count, and among the targets with that count it is the first in
    the property order of the tally: the integer-like ids in ascending
    numeric order, then the other ids as first seen.  There is none
    exactly when there is no vote.  [playersWon] holds exactly when
    the most voted player is the imposter ([null] for both included),
    and the payload carries the counts, the most voted player, the
    imposter, the outcome and the number of votes. *)
Theorem calculateVoteResults_tally_and_plurality (gs : GameState.t) :
  (forall v, In v (votes gs) -> Js.inherited (Vote.targetId v) = false) ->
  let r := GameManager.calculateVoteResults gs in
  let vs := votes gs in
  (forall t,
     Js.get t (Results.voteCounts r)
     = if (votesFor t vs =? 0)%nat then None else Some (Num (votesFor t vs))) /\
  (forall t, Results.mostVotedPlayer r = Some t ->
     0 < votesFor t vs /\
     forall t',
       votesFor t' vs <= votesFor t vs /\
       (votesFor t' vs = votesFor t vs -> t' <> t ->
        propertyBefore (targets vs) t t')) /\
  (Results.mostVotedPlayer r = None <-> vs = []) /\
  (Results.playersWon r = true <-> Results.mostVotedPlayer r = imposter gs) /\
  Results.imposter r = imposter gs /\
  Results.totalVotes r = length vs.
Proof.
  intros Hv.
  destruct (calculateVoteResults_loops gs) as (H1 & _ & H3 & H4 & H5 & H6 & H7).
  cbv zeta in *.
  assert (Hzero : forall t, Js.inherited t = true -> votesFor t (votes gs) = 0).
  { intros t Hi. destruct (Nat.eq_dec (votesFor t (votes gs)) 0) as [E|Hpos];
      [exact E|].
    apply (voted_not_inherited _ _ Hv) in Hpos. congruence. }
  split; [|split; [|split; [|split; [exact H5 | split; [exact H6 | exact H7]]]]].
  - intros t. destruct (Js.inherited t) eqn:Hi; [|now apply H1].
    rewrite (Hzero t Hi). simpl.
    destruct (tally_tallied (votes gs)) as [Hg _].
    unfold GameManager.calculateVoteResults. simpl. rewrite Hg.
    unfold expected. now rewrite (Hzero t Hi).
  - intros t Ht. destruct (H3 t Ht) as (_ & Hpos & Hall).
    split; [exact Hpos|]. intros t'.
    destruct (Js.inherited t') eqn:Hi; [|now apply Hall].
    rewrite (Hzero t' Hi). split; [lia|]. intros E. lia.
  - rewrite H4. split.
    + intros Hall. destruct (votes gs) as [|v vs]; [reflexivity|].
      specialize (Hall v (or_introl eq_refl)).
      specialize (Hv v (or_introl eq_refl)). congruence.
    + intros -> v [].
Qed.

End Results.

(** ** The registry: broadcasts and removal *)

Create HintDb quiet.

Section RegistryFacts.
Import PlayerManager Registry.

Lemma framed_refl s : framed s s.
Proof. repeat split. Qed.

Lemma framed_trans s1 s2 s3 : framed s1 s2 -> framed s2 s3 -> framed s1 s3.
Proof. unfold framed. intuition congruence. Qed.

Lemma quiet_ret A (a : A) : quiet (ret a : P A).
Proof. intros s. split; [apply framed_refl | now exists a]. Qed.

Lemma quiet_get : quiet (get : P PlayerManager.t).
Proof. intros s. split; [apply framed_refl | now exists s]. Qed.

Lemma quiet_emit o : quiet (emit o : P unit).
Proof. intros s. split; [apply framed_refl | now exists tt]. Qed.

Lemma quiet_bind A B (m : P A) (k : A -> P B) :
  quiet m -> (forall a, quiet (k a)) -> quiet (bind m k).
Proof.
  intros Hm Hk s. specialize (Hm s). unfold bind.
  destruct (m s) as [[s1 o1] [e|a]]; simpl in Hm.
  - destruct Hm as [_ [a Ha]]. discriminate.
  - destruct Hm as [Hf _]. specialize (Hk a s1).
    destruct (k a s1) as [[s2 o2] r]. simpl in *.
    destruct Hk as [Hf2 Hr]. split; [eapply framed_trans; eauto | exact Hr].
Qed.

Lemma quiet_removals f : quiet (modify (with_removals f) : P unit).
Proof. intros s. split; [repeat split | now exists tt]. Qed.

Lemma quiet_roomManager f : quiet (modify (with_roomManager f) : P unit).
Proof. intros s. split; [repeat split | now exists tt]. Qed.

Lemma quiet_forEach A (f : A -> P unit) l :
  (forall x, quiet (f x)) -> quiet (forEach f l).
Proof.
  intros Hf. induction l as [|x l IH]; simpl.
  - apply quiet_ret.
  - apply quiet_bind; auto.
Qed.

Lemma quiet_sendOrSchedule m b c : quiet (sendOrSchedule m b c).
Proof.
  unfold sendOrSchedule. apply quiet_bind; [apply quiet_get|].
  intros s. destruct (b && isOpen c s); [apply quiet_emit | apply quiet_removals].
Qed.

#[local] Hint Resolve quiet_ret quiet_get quiet_emit quiet_bind quiet_removals
  quiet_roomManager quiet_forEach quiet_sendOrSchedule : quiet.

Lemma quiet_broadcastToAll m : quiet (broadcastToAll m).
Proof. unfold broadcastToAll. auto with quiet. Qed.

Lemma quiet_broadcastToRoom r m : quiet (broadcastToRoom r m).
Proof.
  unfold broadcastToRoom. apply quiet_bind; [apply quiet_get|].
  intros s. destruct (RoomManager.getRoom r (roomManager s)); auto 6 with quiet.
Qed.

#[local] Hint Resolve quiet_broadcastToAll quiet_broadcastToRoom : quiet.

Lemma quiet_broadcastPlayerList now r : quiet (broadcastPlayerList now r).
Proof.
  unfold broadcastPlayerList, broadcast. apply quiet_bind; [apply quiet_get|].
  intros s. destruct (nonempty r); auto with quiet.
Qed.

#[local] Hint Resolve quiet_broadcastPlayerList : quiet.

Lemma quiet_removePlayer_rest now k : quiet (removePlayer_rest now k).
Proof.
  unfold removePlayer_rest. apply quiet_bind; [apply quiet_get|].
  intros s. destruct (deref _ s) as [player|]; [|apply quiet_ret].
  destruct (nonempty (Player.roomCode player)); auto with quiet.
Qed.

Lemma lookupPlayer_framed p s s' :
  framed s s' -> lookupPlayer p s' = lookupPlayer p s.
Proof.
  intros (_ & Hp & Hs & _). unfold lookupPlayer, deref. now rewrite Hp, Hs.
Qed.

Lemma await_eq now s :
  await now s
  = forEach (removePlayer_rest now) (microtasks s)
      (with_microtasks (fun _ => []) s).
Proof.
  unfold await, bind, get, modify.
  destruct (forEach _ _ _) as [[s1 o1] r1]. reflexivity.
Qed.

(** [await] runs the queue and leaves it empty. *)
Lemma await_spec now s :
  let r := await now s in
  result_of r = inr tt /\
  microtasks (state_of r) = [] /\
  players (state_of r) = players s /\ store (state_of r) = store s /\
  clients (state_of r) = clients s.
Proof.
  cbv zeta. rewrite await_eq.
  pose proof (quiet_forEach _ (removePlayer_rest now) (microtasks s)
                (quiet_removePlayer_rest now)
                (with_microtasks (fun _ => []) s)) as [Hf [[] Hr]].
  destruct (forEach _ _ _) as [[s1 o1] r1]. unfold framed in Hf. simpl in *.
  destruct Hf as (Hc & Hp & Hs & _ & Hm). subst r1. repeat split; auto.
Qed.

Lemma map_get_delete (V : Type) k (m : Js.jsmap V) :
  Js.map_get k (Js.map_delete k m) = None.
Proof.
  unfold Js.map_get, Js.map_delete.
  induction m as [|[k' v] m IH]; simpl; [reflexivity|].
  destruct (String.eqb_spec k' k); simpl; [exact IH|].
  destruct (String.eqb_spec k' k); [contradiction | exact IH].
Qed.

Lemma map_delete_length (V : Type) k (m : Js.jsmap V) v :
  Js.map_get k m = Some v -> length (Js.map_delete k m) < length m.
Proof.
  unfold Js.map_get, Js.map_delete.
  induction m as [|[k' v'] m IH]; simpl; [discriminate|].
  destruct (String.eqb_spec k' k); simpl.
  - intros _. pose proof (filter_length_le (fun e => negb (fst e =? k)) m). lia.
  - intros H. specialize (IH H). lia.
Qed.

(** The first part of [removePlayer] returns when the call it makes
    does, and the player is gone after it. *)
Lemma removePlayer_start_with_spec (rc : string -> M t Delivery.t unit) p s :
  (forall c, exists s' o, rc c s = (s', o, inr tt)) ->
  exists s' o,
    removePlayer_start_with rc p s = (s', o, inr tt) /\ lookupPlayer p s' = None.
Proof.
  intros Hrc. unfold removePlayer_start_with.
  unfold bind at 1. unfold get at 1. cbv beta iota.
  destruct (lookupPlayer p s) as [[a player]|] eqn:Hl.
  2:{ exists s, []. split; [reflexivity | exact Hl]. }
  assert (exists s1 o1,
    (match Player.clientId player with
     | Some c => if Js.map_has c (clients s) then rc c else ret tt
     | None => ret tt
     end) s = (s1, o1, inr tt)) as (s1 & o1 & E).
  { destruct (Player.clientId player) as [c|]; [|now exists s, []].
    destruct (Js.map_has c (clients s)); [apply Hrc | now exists s, []]. }
  unfold bind at 1. rewrite E. simpl.
  eexists _, _. split; [reflexivity|].
  unfold lookupPlayer. simpl. now rewrite map_get_delete.
Qed.

Lemma removeClient_fuel_enough fuel : forall c s,
  length (clients s) < fuel ->
  exists s' o, removeClient_fuel fuel c s = (s', o, inr tt).
Proof.
  induction fuel as [|fuel IH]; intros c s Hlen; [lia|].
  simpl. unfold bind at 1. unfold get at 1. cbv beta iota.
  destruct (Js.map_get c (clients s)) as [client|] eqn:Hc;
    [|now exists s, []].
  unfold bind at 1. unfold modify at 1. cbv beta iota.
  unfold bind at 1. unfold modify at 1. cbv beta iota.
  set (s1 := with_clients (Js.map_delete c) (with_openSockets (Js.set_delete c) s)).
  assert (Hlen1 : length (clients s1) < fuel).
  { simpl. pose proof (map_delete_length _ c (clients s) _ Hc). lia. }
  assert (exists s2 o2,
    (match nonempty (Client.playerId client) with
     | Some p =>
         bind get (fun s0 =>
           match findClientByPlayerId p s0 with
           | Some _ => ret tt
           | None => removePlayer_start_with (removeClient_fuel fuel) p
           end)
     | None => ret tt
     end) s1 = (s2, o2, inr tt)) as (s2 & o2 & E).
  { destruct (nonempty (Client.playerId client)) as [p|]; [|now exists s1, []].
    unfold bind, get. cbv beta iota.
    destruct (findClientByPlayerId p s1); [now exists s1, []|].
    destruct (removePlayer_start_with_spec (removeClient_fuel fuel) p s1)
      as (s2 & o2 & E & _); [intros c'; now apply IH|].
    rewrite E. now exists s2, o2. }
  unfold bind at 1. rewrite E. cbv beta iota.
  destruct (Client.playerData client) as [d|]; [|eexists _, _; reflexivity].
  destruct (nonempty (ClientData.roomCode d)); eexists _, _; reflexivity.
Qed.

Lemma removePlayer_start_spec p s :
  exists s' o,
    removePlayer_start p s = (s', o, inr tt) /\ lookupPlayer p s' = None.
Proof.
  unfold removePlayer_start. apply removePlayer_start_with_spec.
  intros c. apply removeClient_fuel_enough. lia.
Qed.

Lemma removePlayer_start_absent p s :
  lookupPlayer p s = None -> removePlayer_start p s = (s, [], inr tt).
Proof.
  intros H. unfold removePlayer_start, removePlayer_start_with, bind, get.
  now rewrite H.
Qed.

Lemma await_idle now s : microtasks s = [] -> await now s = (s, [], inr tt).
Proof.
  intros H. unfold await, bind, get, modify. rewrite H. simpl.
  destruct s; simpl in *. now subst.
Qed.

Lemma removePlayer_eq now p s :
  removePlayer now p s
  = match removePlayer_start p s with
    | (s1, o1, inl e) => (s1, o1, inl e)
    | (s1, o1, inr _) =>
        match await now s1 with
        | (s2, o2, r) => (s2, o1 ++ o2, r)
        end
    end.
Proof. reflexivity. Qed.

(** C9.  [removePlayer] is idempotent.  The first call returns; a
    second call for the same player, made once the first is complete,
    returns too, changes nothing and sends nothing.  The same holds for
    a second call made as soon as the first has yielded, before its
    continuation has run. *)
Theorem removePlayer_idempotent now now' p s :
  let first := removePlayer now p s in
  let started := removePlayer_start p s in
  result_of first = inr tt /\
  removePlayer now' p (state_of first) = (state_of first, [], inr tt) /\
  removePlayer_start p (state_of started) = (state_of started, [], inr tt).
Proof.
  cbv zeta. rewrite (removePlayer_eq now p s).
  destruct (removePlayer_start_spec p s) as (s1 & o1 & E & Hgone).
  rewrite E.
  destruct (await_spec now s1) as (Hr & Hm & Hp & Hs & _).
  destruct (await now s1) as [[s2 o2] r2] eqn:Ea.
  unfold state_of, result_of in *. simpl in *. subst r2.
  split; [reflexivity|].
  assert (Hgone2 : lookupPlayer p s2 = None).
  { unfold lookupPlayer, deref in *. now rewrite Hp, Hs. }
  split.
  - rewrite removePlayer_eq, (removePlayer_start_absent _ _ Hgone2).
    now rewrite (await_idle now' _ Hm).
  - now apply removePlayer_start_absent.
Qed.

End RegistryFacts.

(** ** The stages of the protocol *)

Section Protocol.
Import PlayerManager MessageProtocol Reply.

Lemma with_removals_nil (p : PlayerManager.t) : with_removals (fun r => r ++ []) p = p.
Proof. destruct p. unfold with_removals. simpl. now rewrite app_nil_r. Qed.

Lemma forEach_sendOrSchedule m l : forall p,
  forEach (sendOrSchedule m true) l p
  = (with_removals (fun r => r ++ filter (fun c => negb (isOpen c p)) l) p,
     map (fun c => {| Delivery.to := c; Delivery.message := m |})
         (filter (fun c => isOpen c p) l),
     inr tt).
Proof.
  induction l as [|c l IH]; intros p; simpl.
  - now rewrite with_removals_nil.
  - unfold bind at 1. unfold sendOrSchedule at 1. unfold bind at 1. unfold get at 1.
    cbv beta iota. simpl andb.
    destruct (isOpen c p) eqn:Ho; simpl.
    + rewrite IH. reflexivity.
    + unfold modify. rewrite IH. simpl.
      unfold with_removals. simpl. now rewrite <- app_assoc.
Qed.

Lemma broadcastToAll_eq m p :
  broadcastToAll m p
  = (with_removals (fun r => r ++ closedClients p) p, toAll m p, inr tt).
Proof.
  unfold broadcastToAll, bind, get. rewrite forEach_sendOrSchedule. reflexivity.
Qed.

Lemma broadcastMessage_eq m s :
  broadcastMessage m s
  = (scheduled (closedClients (playerManager s)) s,
     toAll m (playerManager s), inr tt).
Proof.
  unfold broadcastMessage, liftP. now rewrite broadcastToAll_eq.
Qed.

Lemma sendError_eq now c e s : sendError now c e s = (s, errorTo now c e s, inr tt).
Proof.
  unfold sendError, MessageProtocol.sendToClient, liftP, PlayerManager.sendToClient,
    bind, get, errorTo, send, emit, ret.
  destruct s as [g p st]. simpl.
  destruct (Js.map_has c (clients p) && isOpen c p); reflexivity.
Qed.

Lemma validateMessageStructure_frame now message s :
  exists r, validateMessageStructure now message s = (s, [], r).
Proof.
  unfold validateMessageStructure.
  destruct (nonempty (Inbound.type message)); [|eexists; reflexivity].
  destruct (Inbound.timestamp message) as [ts|]; [|eexists; reflexivity].
  destruct (ts =? 0)%Z; [eexists; reflexivity|].
  destruct (300000 <? Z.abs (now - ts))%Z; eexists; reflexivity.
Qed.

Lemma validateMessageStructure_fresh now message s t :
  Inbound.type message = Some t -> t <> "" -> fresh now message ->
  validateMessageStructure now message s = (s, [], inr tt).
Proof.
  intros Ht Hne (ts & Hts & Hz & Habs). unfold validateMessageStructure.
  rewrite Ht, Hts. simpl.
  destruct (String.eqb_spec t ""); [contradiction|].
  destruct (Z.eqb_spec ts 0); [contradiction|].
  destruct (Z.ltb_spec 300000 (Z.abs (now - ts))); [lia | reflexivity].
Qed.

Lemma validatePayloadSchema_frame payload ml fields s :
  exists r, validatePayloadSchema payload ml fields s = (s, [], r).
Proof.
  induction fields as [|f rest IH]; simpl; [eexists; reflexivity|].
  destruct IH as [r IH].
  assert (Hgo : exists r',
             bind (ret tt) (fun _ => validatePayloadSchema payload ml rest) s
             = (s, [], r')).
  { unfold bind, ret. rewrite IH. eexists; reflexivity. }
  destruct (negb (Schema.isOptional f) && negb (Js.has_field (Schema.name f) payload));
    [eexists; reflexivity|].
  destruct (Js.has_field (Schema.name f) payload); [|exact Hgo].
  destruct (negb (hasType _ _)); [eexists; reflexivity|].
  destruct ml as [n|]; [|exact Hgo].
  destruct (Js.field (Schema.name f) payload) as [| |?|?|text|]; try exact Hgo.
  destruct ((Schema.name f =? "message") && negb (n =? 0)%nat
            && (n <? String.length text)%nat); [eexists; reflexivity | exact Hgo].
Qed.

Lemma validateMessage_frame message client s :
  exists r, validateMessage message client s = (s, [], r).
Proof.
  unfold validateMessage.
  destruct (messageTypes _) as [cfg|]; [|eexists; reflexivity].
  destruct (Schema.requiresAuth cfg && _); [eexists; reflexivity|].
  destruct (Schema.schema cfg); [|eexists; reflexivity].
  destruct (Inbound.payload message); [|eexists; reflexivity].
  apply validatePayloadSchema_frame.
Qed.

Lemma try_catch_sendError now c (m : R unit) s :
  try_catch m (fun e => bind (sendError now c e) (fun _ => throw e)) s
  = guarded now c (m s).
Proof.
  unfold try_catch, guarded. destruct (m s) as [[s1 o1] [e|[]]]; [|reflexivity].
  unfold bind. rewrite sendError_eq. simpl. now rewrite app_nil_r.
Qed.

Lemma handleMessage_eq env c message s :
  MessageProtocol.handleMessage env c (Some message) s
  = guarded (now env) c
      (match validateMessageStructure (now env) message s with
       | (_, _, inl e) => (s, [], inl e)
       | (_, _, inr _) =>
           match getClientById c (playerManager s) with
           | None => (s, [], inl "Client not found")
           | Some client =>
               match validateMessage message client s with
               | (_, _, inl e) => (s, [], inl e)
               | (_, _, inr _) => routeMessage env c message client s
               end
           end
       end).
Proof.
  unfold MessageProtocol.handleMessage. rewrite try_catch_sendError. f_equal.
  unfold bind at 1.
  destruct (validateMessageStructure_frame (now env) message s) as [r1 ->].
  destruct r1 as [e|[]]; [reflexivity|].
  unfold bind at 1. unfold get at 1. cbv beta iota.
  destruct (getClientById c (playerManager s)) as [client|]; [|reflexivity].
  unfold bind at 1.
  destruct (validateMessage_frame message client s) as [r2 ->].
  destruct r2 as [e|[]]; [reflexivity|]. simpl.
  destruct (routeMessage env c message client s) as [[s3 o3] r3]. reflexivity.
Qed.

End Protocol.

(** ** Votes through the protocol *)

Section Votes.
Import GameState PlayerManager MessageProtocol Reply.

Lemma find_voter_some p vs :
  In p (map Vote.playerId vs) ->
  exists v, find (fun vote => Vote.playerId vote =? p) vs = Some v.
Proof.
  induction vs as [|v vs IH]; simpl; [tauto|].
  destruct (String.eqb_spec (Vote.playerId v) p); [now exists v|].
  intros [E|I]; [contradiction | auto].
Qed.

(** The two refusals of the coordinator: nothing is changed and nothing
    is broadcast. *)
Lemma handleVote_not_voting now p t g :
  phase (GameManager.gameState g) <> Voting ->
  GameManager.handleVote now p t g = (g, [], inl "Voting is not currently active").
Proof.
  intros H. unfold GameManager.handleVote, bind, get. simpl.
  destruct (phase (GameManager.gameState g)); try reflexivity. contradiction.
Qed.

Lemma handleVote_duplicate now p t g :
  phase (GameManager.gameState g) = Voting ->
  In p (Session.voters g) ->
  GameManager.handleVote now p t g = (g, [], inl "Player has already voted").
Proof.
  intros Hp Hin. unfold GameManager.handleVote, bind, get. simpl. rewrite Hp. simpl.
  destruct (find_voter_some _ _ Hin) as [v ->]. reflexivity.
Qed.

Lemma liftG_refused (A : Type) (m : M GameManager.t Broadcast A) s e :
  m (gameManager s) = (gameManager s, [], inl e) -> liftG m s = (s, [], inl e).
Proof.
  intros H. unfold liftG. rewrite H. simpl. now destruct s.
Qed.

Lemma map_has_get (V : Type) c (m : Js.jsmap V) v :
  Js.map_get c m = Some v -> Js.map_has c m = true.
Proof. unfold Js.map_has, Js.map_get. now intros ->. Qed.

Lemma errorTo_open now c e s client :
  getClientById c (playerManager s) = Some client ->
  isOpen c (playerManager s) = true ->
  errorTo now c e s
  = [{| Delivery.to := c;
        Delivery.message := error_message e "PROTOCOL_ERROR" now |}].
Proof.
  intros Hc Ho. unfold errorTo. now rewrite (map_has_get _ _ _ _ Hc), Ho.
Qed.

(** A vote that passes the checks of the protocol reaches the
    coordinator. *)
Lemma handleMessage_vote env c message s client p payload targetId :
  Inbound.type message = Some "vote" ->
  Inbound.payload message = Some payload ->
  fresh (now env) message ->
  getClientById c (playerManager s) = Some client ->
  nonempty (Client.playerId client) = Some p ->
  Js.has_field "targetId" payload = true ->
  Js.field "targetId" payload = Js.VStr targetId ->
  MessageProtocol.handleMessage env c (Some message) s
  = guarded (now env) c (liftG (GameManager.handleVote (now env) p targetId) s).
Proof.
  intros Ht Hp Hf Hc Hid Hhas Hfield.
  rewrite handleMessage_eq.
  rewrite (validateMessageStructure_fresh _ _ s _ Ht) by (discriminate || assumption).
  rewrite Hc.
  assert (Hv : validateMessage message client s = (s, [], inr tt)).
  { unfold validateMessage. rewrite Ht, Hp. simpl. rewrite Hid. simpl.
    unfold bind. rewrite Hhas, Hfield. reflexivity. }
  rewrite Hv. unfold routeMessage. rewrite Ht, Hp. simpl.
  unfold MessageProtocol.handleVote. rewrite Hid.
  unfold stringField. now rewrite Hfield.
Qed.

(** C3.  A vote outside the voting phase is refused with "Voting is not
    currently active" and a second vote of a player with "Player has
    already voted".  In both cases the coordinator and the rest of the
    server are as before, nothing is broadcast, and the connection that
    sent the vote receives the error envelope. *)
Theorem refused_vote_is_reported_and_changes_nothing
    env c message s client p payload targetId :
  Inbound.type message = Some "vote" ->
  Inbound.payload message = Some payload ->
  fresh (now env) message ->
  getClientById c (playerManager s) = Some client ->
  nonempty (Client.playerId client) = Some p ->
  Js.has_field "targetId" payload = true ->
  Js.field "targetId" payload = Js.VStr targetId ->
  isOpen c (playerManager s) = true ->
  let g := gameManager s in
  let reply e :=
    (s, [{| Delivery.to := c;
            Delivery.message := error_message e "PROTOCOL_ERROR" (now env) |}],
     inl e) in
  (phase (GameManager.gameState g) <> Voting ->
   GameManager.handleVote (now env) p targetId g
   = (g, [], inl "Voting is not currently active") /\
   MessageProtocol.handleMessage env c (Some message) s
   = reply "Voting is not currently active") /\
  (phase (GameManager.gameState g) = Voting -> In p (Session.voters g) ->
   GameManager.handleVote (now env) p targetId g
   = (g, [], inl "Player has already voted") /\
   MessageProtocol.handleMessage env c (Some message) s
   = reply "Player has already voted").
Proof.
  intros Ht Hp Hf Hc Hid Hhas Hfield Ho. cbv zeta.
  rewrite (handleMessage_vote env c message s client p payload targetId)
    by assumption.
  split.
  - intros Hph. pose proof (handleVote_not_voting (now env) p targetId _ Hph) as E.
    split; [exact E|].
    rewrite (liftG_refused _ _ _ _ E). simpl.
    now rewrite (errorTo_open _ _ _ _ _ Hc Ho).
  - intros Hph Hin.
    pose proof (handleVote_duplicate (now env) p targetId _ Hph Hin) as E.
    split; [exact E|].
    rewrite (liftG_refused _ _ _ _ E). simpl.
    now rewrite (errorTo_open _ _ _ _ _ Hc Ho).
Qed.

End Votes.

(** ** The timers of the coordinator *)

Section TimerFacts.
Import GameState Session.

Lemma clearPhaseTimer_fresh g : timersFresh g -> timersFresh (GameManager.clearPhaseTimer g).
Proof.
  intros H. unfold GameManager.clearPhaseTimer.
  destruct (GameManager.phaseTimer g) as [i|] eqn:E; [|exact H].
  destruct H as [Ha Ht]. split; simpl; [|discriminate].
  intros x Hx. apply filter_In in Hx as [Hx _]. auto.
Qed.

Lemma armPhaseTimer_fresh d p g : timersFresh g -> timersFresh (GameManager.armPhaseTimer d p g).
Proof.
  intros [Ha Ht]. split; simpl.
  - intros x Hx. apply in_app_or in Hx as [Hx|[<-|[]]]; simpl; [|lia].
    specialize (Ha x Hx). lia.
  - intros i E. injection E as <-. lia.
Qed.

Lemma with_gameState_fresh f g : timersFresh g -> timersFresh (GameManager.with_gameState f g).
Proof. intros H. exact H. Qed.

Lemma transitionPhase_state now p d g :
  state_of (GameManager.transitionPhase now p d g)
  = (match p with
     | Question => GameManager.handleQuestionPhase d
     | Discussion => GameManager.handleDiscussionPhase now
     | Voting => GameManager.handleVotingPhase
     | ResultsPhase => GameManager.handleResultsPhase
     | Waiting => GameManager.handleWaitingPhase
     end)
      (GameManager.clearPhaseTimer
         (GameManager.with_gameState (GameManager.set_phase p) g)).
Proof. reflexivity. Qed.

Lemma transitionPhase_fresh now p d g :
  timersFresh g -> timersFresh (state_of (GameManager.transitionPhase now p d g)).
Proof.
  intros H. rewrite transitionPhase_state.
  assert (H1 : timersFresh (GameManager.clearPhaseTimer
                 (GameManager.with_gameState (GameManager.set_phase p) g)))
    by now apply clearPhaseTimer_fresh.
  destruct p; try exact H1;
    unfold GameManager.handleQuestionPhase, GameManager.handleDiscussionPhase,
      GameManager.handleVotingPhase, GameManager.handleResultsPhase;
    try apply armPhaseTimer_fresh; exact H1.
Qed.

(** What a recorded vote does. *)
Lemma handleVote_recorded now p t g :
  phase (GameManager.gameState g) = Voting ->
  ~ In p (voters g) ->
  let g1 :=
    GameManager.with_gameState (fun gs =>
      {| phase := phase gs; players := players gs; imposter := imposter gs;
         questionId := questionId gs; discussionEndsAt := discussionEndsAt gs;
         votes := votes gs ++
                  [{| Vote.playerId := p; Vote.targetId := t;
                      Vote.timestamp := now |}];
         results := results gs |}) g in
  let progress :=
    vote_progress (S (voteCount g)) (playerCount g)
      (playerCount g <=? S (voteCount g))%nat now in
  GameManager.handleVote now p t g
  = if (playerCount g <=? S (voteCount g))%nat
    then
      match GameManager.transitionPhase now ResultsPhase PhaseData.none
              (GameManager.clearPhaseTimer g1) with
      | (g2, out, r) => (g2, progress :: out, r)
      end
    else (g1, [progress], inr tt).
Proof.
  intros Hph Hn. cbv zeta.
  assert (Hf : find (fun vote => Vote.playerId vote =? p)
                 (votes (GameManager.gameState g)) = None).
  { destruct (find _ _) as [v|] eqn:E; [|reflexivity].
    exfalso. apply Hn. apply find_some in E as [Hin Heq].
    apply String.eqb_eq in Heq. subst. unfold voters. now apply in_map. }
  destruct g as [gs pt ar nt]. unfold voteCount, playerCount. simpl in *.
  unfold GameManager.handleVote, bind, get. simpl. rewrite Hph, Hf. simpl.
  rewrite length_app. simpl. rewrite Nat.add_1_r.
  destruct (length (players gs) <=? S (length (votes gs)))%nat; reflexivity.
Qed.

Lemma handleVote_succeeds now p t g :
  result_of (GameManager.handleVote now p t g) = inr tt ->
  phase (GameManager.gameState g) = Voting /\ ~ In p (voters g).
Proof.
  destruct (phase (GameManager.gameState g)) eqn:Hph;
    try (rewrite handleVote_not_voting by congruence; discriminate).
  intros H. split; [reflexivity|]. intros Hin.
  rewrite handleVote_duplicate in H by assumption. discriminate.
Qed.

Lemma call_fresh c g : timersFresh g -> timersFresh (call c g).
Proof.
  intros H. destruct c as [now p d|now p t|ps|now i]; simpl.
  - now apply transitionPhase_fresh.
  - destruct (phase (GameManager.gameState g)) eqn:Hph;
      try (rewrite handleVote_not_voting by congruence; exact H).
    destruct (in_dec string_dec p (voters g)) as [Hin|Hn].
    + rewrite handleVote_duplicate by assumption. exact H.
    + rewrite handleVote_recorded by assumption.
      destruct (playerCount g <=? S (voteCount g))%nat; [|exact H].
      match goal with |- context [GameManager.transitionPhase ?n ?q ?d ?x] =>
        pose proof (transitionPhase_fresh n q d x) as Hx;
        destruct (GameManager.transitionPhase n q d x) as [[g2 o2] r2] end.
      apply Hx. apply clearPhaseTimer_fresh. exact H.
  - exact H.
  - rewrite fireTimeout_eq.
    destruct (find _ (GameManager.armed g)) as [x|]; [|exact H].
    apply transitionPhase_fresh. destruct H as [Ha Ht]. split; simpl; auto.
    intros y Hy. apply filter_In in Hy as [Hy _]. auto.
Qed.

Lemma calls_fresh cs : forall g, timersFresh g -> timersFresh (calls cs g).
Proof.
  induction cs as [|c cs IH]; intros g H; simpl; auto using call_fresh.
Qed.

Lemma start_fresh row : timersFresh (start row).
Proof. destruct row; split; simpl; try tauto; discriminate. Qed.

(** C4.  In every reachable state, a vote that is recorded and brings
    the collected votes to the number of players, or above it, ends the
    voting in the same call: the timer of the voting phase is no longer
    armed, the phase is the results phase, the results are computed
    from all the votes and the phase change is broadcast. *)
Theorem last_vote_ends_the_voting row cs now p t :
  let g := calls cs (start row) in
  let r := GameManager.handleVote now p t g in
  let g' := state_of r in
  result_of r = inr tt ->
  playerCount g' <= voteCount g' ->
  phase (GameManager.gameState g') = ResultsPhase /\
  (forall i, GameManager.phaseTimer g = Some i ->
     forall x, In x (GameManager.armed g') -> Timer.id x <> i) /\
  (exists res, results (GameManager.gameState g') = Some res /\
               Results.totalVotes res = S (voteCount g)) /\
  In (phase_change ResultsPhase Voting (GameManager.getPublicGameState g') now)
     (sent_of r).
Proof.
  cbv zeta. set (g := calls cs (start row)).
  assert (Hfresh : timersFresh g) by (apply calls_fresh, start_fresh).
  intros Hok Hall. apply handleVote_succeeds in Hok as [Hph Hn].
  revert Hall. rewrite handleVote_recorded by assumption.
  destruct Hfresh as [Ha Ht]. clearbody g.
  destruct g as [gs pt ar nt]. unfold voteCount, playerCount in *. simpl in *.
  destruct gs as [ph pl im q de vs rs]. simpl in *. subst ph.
  destruct (Nat.leb_spec (length pl) (S (length vs))) as [Hle|Hgt].
  - intros _. destruct pt as [i|]; simpl.
    + repeat split.
      * intros j E x Hx. injection E as <-.
        apply in_app_or in Hx as [Hx|[<-|[]]]; simpl.
        -- apply filter_In in Hx as [_ Hx].
           apply negb_true_iff, Nat.eqb_neq in Hx. exact Hx.
        -- specialize (Ht i eq_refl). lia.
      * eexists. split; [reflexivity|]. simpl. rewrite length_app. simpl. lia.
      * right. left. reflexivity.
    + repeat split.
      * discriminate.
      * eexists. split; [reflexivity|]. simpl. rewrite length_app. simpl. lia.
      * right. left. reflexivity.
  - simpl. rewrite length_app. simpl. lia.
Qed.

End TimerFacts.

(** ** Chat and join *)

Section Chat.
Import GameState PlayerManager MessageProtocol Reply.

Lemma handleMessage_chat env c message s client payload text :
  isChat message ->
  Inbound.payload message = Some payload ->
  fresh (now env) message ->
  getClientById c (playerManager s) = Some client ->
  Js.has_field "message" payload = true ->
  Js.field "message" payload = Js.VStr text ->
  String.length text <= 500 ->
  let fallback := match Client.playerId client with
                  | Some p => Js.VStr p
                  | None => Js.VNull
                  end in
  let sender :=
    match getPlayerById (Client.playerId client) (playerManager s) with
    | Some (_, player) =>
        (Js.or_else (Js.VStr (Player.id player)) fallback,
         Js.VStr (Player.name player))
    | None =>
        (Js.or_else
           (Js.or_else (Js.field "playerId" payload) (Js.VStr "anonymous"))
           fallback,
         Js.or_else (Js.field "playerName" payload) (Js.VStr "Anonymous"))
    end in
  MessageProtocol.handleMessage env c (Some message) s
  = (scheduled (closedClients (playerManager s)) s,
     toAll (chat_message (fst sender) (snd sender) (Js.VStr text) (now env))
           (playerManager s),
     inr tt).
Proof.
  intros Ht Hp Hf Hc Hhas Hfield Hlen. cbv zeta.
  rewrite handleMessage_eq.
  assert (Hs : validateMessageStructure (now env) message s = (s, [], inr tt)).
  { destruct Ht as [Ht|Ht];
      apply (validateMessageStructure_fresh _ _ _ _ Ht); (discriminate || assumption). }
  rewrite Hs, Hc.
  assert (Hv : validateMessage message client s = (s, [], inr tt)).
  { unfold validateMessage.
    destruct Ht as [Ht|Ht]; rewrite Ht, Hp; simpl;
      unfold bind; rewrite Hhas, Hfield; simpl;
      (destruct (Nat.ltb_spec 500 (String.length text)); [lia | reflexivity]). }
  rewrite Hv.
  assert (Hr : routeMessage env c message client s
               = handleChatMessage env c (Some payload) client s).
  { unfold routeMessage. destruct Ht as [Ht|Ht]; rewrite Ht, Hp; reflexivity. }
  rewrite Hr. unfold handleChatMessage, bind, get. simpl.
  destruct (getPlayerById (Client.playerId client) (playerManager s))
    as [[a player]|]; rewrite broadcastMessage_eq; simpl;
    rewrite Hfield; reflexivity.
Qed.

Lemma or_else_default x d y :
  Js.truthy d = true -> Js.or_else (Js.or_else x d) y = Js.or_else x d.
Proof.
  intros Hd. unfold Js.or_else at 1.
  replace (Js.truthy (Js.or_else x d)) with true; [reflexivity|].
  unfold Js.or_else. destruct (Js.truthy x) eqn:E; congruence.
Qed.

(** C6, as the code has it.  Chat is not gated by the phase: whatever
    the phase, a chat message that passes the checks of the protocol is
    broadcast to every open connection as a [chat_message], the sender
    gets no error, and only the removal of connections whose socket is
    closed is scheduled. *)
Theorem chat_is_broadcast_in_every_phase env c message s client payload text :
  isChat message ->
  Inbound.payload message = Some payload ->
  fresh (now env) message ->
  getClientById c (playerManager s) = Some client ->
  Js.has_field "message" payload = true ->
  Js.field "message" payload = Js.VStr text ->
  String.length text <= 500 ->
  exists playerId playerName,
    MessageProtocol.handleMessage env c (Some message) s
    = (scheduled (closedClients (playerManager s)) s,
       toAll (chat_message playerId playerName (Js.VStr text) (now env))
             (playerManager s),
       inr tt).
Proof.
  intros Ht Hp Hf Hc Hhas Hfield Hlen.
  eexists _, _.
  exact (handleMessage_chat env c message s client payload text
           Ht Hp Hf Hc Hhas Hfield Hlen).
Qed.

(** C10.  The two chat types ask for no joined player, and the chat of
    a connection without one is broadcast under the identity its
    payload gives, [anonymous] and [Anonymous] standing in for what the
    payload leaves out. *)
Theorem chat_sender_is_taken_from_the_payload
    env c message s client payload text :
  isChat message ->
  Inbound.payload message = Some payload ->
  fresh (now env) message ->
  getClientById c (playerManager s) = Some client ->
  Client.playerId client = None ->
  Js.has_field "message" payload = true ->
  Js.field "message" payload = Js.VStr text ->
  String.length text <= 500 ->
  option_map Schema.requiresAuth (messageTypes "chat") = Some false /\
  option_map Schema.requiresAuth (messageTypes "chat_message") = Some false /\
  MessageProtocol.handleMessage env c (Some message) s
  = (scheduled (closedClients (playerManager s)) s,
     toAll (chat_message
              (Js.or_else (Js.field "playerId" payload) (Js.VStr "anonymous"))
              (Js.or_else (Js.field "playerName" payload) (Js.VStr "Anonymous"))
              (Js.VStr text) (now env))
           (playerManager s),
     inr tt).
Proof.
  intros Ht Hp Hf Hc Hnone Hhas Hfield Hlen.
  split; [reflexivity|]. split; [reflexivity|].
  rewrite (handleMessage_chat env c message s client payload text
             Ht Hp Hf Hc Hhas Hfield Hlen).
  rewrite Hnone. simpl. now rewrite or_else_default.
Qed.


End Chat.

(** ** What no transition does *)

Section Support.
Import GameState PlayerManager MessageProtocol Registry.

(** While the session waits the public view has no results, and so
    names no imposter. *)
Lemma call_waiting_no_results c g :
  (phase (GameManager.gameState g) = Waiting ->
   results (GameManager.gameState g) = None) ->
  phase (GameManager.gameState (Session.call c g)) = Waiting ->
  results (GameManager.gameState (Session.call c g)) = None.
Proof.
  intros H. destruct c as [now p d|now p t|ps|now i]; simpl.
  - rewrite transitionPhase_state.
    destruct g as [gs pt ar nt], p, pt; simpl; auto; discriminate.
  - destruct (handleVote_votes now p t g) as [E|(_ & _ & _ & _ & E)].
    + cbv zeta in E. now rewrite E.
    + cbv zeta in E. rewrite E.
      destruct (Session.playerCount g <=? _)%nat; discriminate.
  - destruct g as [gs pt ar nt]. exact H.
  - rewrite fireTimeout_eq.
    destruct (find _ (GameManager.armed g)) as [x|]; [|exact H].
    rewrite transitionPhase_state.
    destruct g as [gs pt ar nt], (Timer.target x), pt; simpl; auto; discriminate.
Qed.

Lemma waiting_view_has_no_results row cs :
  let g := Session.calls cs (Session.start row) in
  PublicView.phase (GameManager.getPublicGameState g) = Waiting ->
  PublicView.results (GameManager.getPublicGameState g) = None.
Proof.
  cbv zeta. simpl.
  assert (H0 : phase (GameManager.gameState (Session.start row)) = Waiting ->
               results (GameManager.gameState (Session.start row)) = None)
    by (destruct row; reflexivity).
  revert H0. generalize (Session.start row).
  induction cs as [|c cs IH]; intros g H; simpl; [exact H|].
  apply IH. now apply call_waiting_no_results.
Qed.

(** No call into the coordinator touches a player object: whatever the
    phase it enters, the ready flags are as before. *)
Lemma liftG_keeps_the_players (A : Type) (m : M GameManager.t Broadcast A) s :
  store (playerManager (state_of (liftG m s))) = store (playerManager s) /\
  players (playerManager (state_of (liftG m s))) = players (playerManager s).
Proof.
  unfold liftG. destruct (m (gameManager s)) as [[g' bs] r].
  pose proof (quiet_forEach _
                (fun b => broadcastToAll (game_broadcast b)) bs
                (fun b => quiet_broadcastToAll _) (playerManager s)) as [Hf _].
  destruct (forEach _ bs (playerManager s)) as [[p' out] r'].
  unfold state_of in *. simpl in *. destruct Hf as (_ & Hp & Hs & _). auto.
Qed.

End Support.

(** ** The session of the examples *)

Section Examples.
Import GameState PlayerManager MessageProtocol GameServer Reply Scenario.

(** C1, as the specification states it, fails: when two of three players
    leave after two votes are in, the votes outnumber the players. *)
Lemma votes_exceed_players_after_removal :
  ~ Session.votesWithinPlayers
      (Session.calls removalMidRound (Session.start None)).
Proof.
  unfold Session.votesWithinPlayers. vm_compute. intros [_ H].
  inversion H as [|? H1]. inversion H1.
Qed.

(** The same through the protocol: three players join, a vote is opened,
    two vote and two leave. *)
Lemma leaving_mid_round_outnumbers_the_players :
  let g := gameManager (after leaveMidRound) in
  phase (GameManager.gameState g) = Voting /\
  Session.voteCount g = 2 /\ Session.playerCount g = 1.
Proof. vm_compute. repeat split. Qed.

Lemma votes_unique_and_bounded_witness :
  let g := Session.calls everyoneVotes (Session.start None) in
  NoDup (Session.voters g) /\ Session.voteCount g <= Session.playerCount g.
Proof.
  destruct (votes_unique_and_bounded_while_quorum_kept None everyoneVotes)
    as [H1 H2].
  split; [exact H1 | apply H2; [discriminate | reflexivity]].
Defined.

(** C2, as the specification states it, fails: with one vote for "2"
    and then one for "1" the first seen target is "2", and the most
    voted player is "1". *)
Lemma integer_like_target_wins_the_tie :
  ~ Tally.firstSeenWins (ballots ["2"; "1"]).
Proof. unfold Tally.firstSeenWins. vm_compute. discriminate. Qed.

Lemma calculateVoteResults_witness :
  Js.get "bob"
    (Results.voteCounts
       (GameManager.calculateVoteResults (ballots ["bob"; "ann"; "bob"])))
  = Some (Num 2).
Proof.
  refine (proj1 (calculateVoteResults_tally_and_plurality
                   (ballots ["bob"; "ann"; "bob"]) _) "bob").
  intros v [<- | [<- | [<- | []]]]; reflexivity.
Defined.

Lemma fresh_envelope type payload : fresh (now env) (envelope type payload).
Proof.
  exists 1000%Z. split; [reflexivity|]. split; [discriminate|].
  vm_compute. discriminate.
Defined.

Lemma refused_vote_witness :
  MessageProtocol.handleMessage env "c1" (Some (vote "bob")) (after annVoted)
  = (after annVoted,
     [{| Delivery.to := "c1";
         Delivery.message :=
           error_message "Player has already voted" "PROTOCOL_ERROR" (now env) |}],
     inl "Player has already voted").
Proof.
  edestruct (refused_vote_is_reported_and_changes_nothing
               env "c1" (vote "bob") (after annVoted)) as [_ H].
  - reflexivity.
  - reflexivity.
  - apply fresh_envelope.
  - reflexivity.
  - reflexivity.
  - reflexivity.
  - reflexivity.
  - reflexivity.
  - apply H; [reflexivity | vm_compute; now left].
Defined.

Lemma last_vote_witness :
  let g := Session.calls
             [ Session.updatePlayers [0; 1];
               Session.transitionPhase 0 Voting PhaseData.none;
               Session.handleVote 1 "ann" "bob" ] (Session.start None) in
  let g' := state_of (GameManager.handleVote 2 "bob" "ann" g) in
  phase (GameManager.gameState g') = ResultsPhase /\
  (forall x, In x (GameManager.armed g') -> Timer.id x <> 0).
Proof.
  cbv zeta.
  destruct (last_vote_ends_the_voting None
              [ Session.updatePlayers [0; 1];
                Session.transitionPhase 0 Voting PhaseData.none;
                Session.handleVote 1 "ann" "bob" ] 2 "bob" "ann")
    as (H1 & H2 & _).
  - reflexivity.
  - vm_compute. constructor.
  - split; [exact H1 | exact (H2 0 eq_refl)].
Defined.

(** C5.  The code shows the imposter outside the results phase: once the
    round of Ann and Bob has reached its results, a forced transition
    back to the question leaves the results in the public view, and the
    imposter they name is the imposter of the round under way. *)
Theorem forced_transition_leaves_the_imposter_in_view :
  let g := gameManager (after forcedBack) in
  let view := GameManager.getPublicGameState g in
  PublicView.phase view = Question /\
  imposter (GameManager.gameState g) = Some "ann" /\
  option_map Results.imposter (PublicView.results view) = Some (Some "ann").
Proof. vm_compute. repeat split. Qed.

(** C6, as the specification states it, fails: a chat sent in the lobby,
    while the session waits, is broadcast. *)
Lemma chat_in_the_lobby_is_broadcast :
  ~ chatGated env lobby "c3" (chat "hello").
Proof.
  unfold chatGated. intros H.
  destruct H as [H _]; [now left | vm_compute; discriminate |].
  vm_compute in H. discriminate.
Qed.

Lemma chat_is_broadcast_witness :
  exists playerId playerName,
    MessageProtocol.handleMessage env "c3" (Some (chat "hello")) lobby
    = (scheduled (closedClients (playerManager lobby)) lobby,
       toAll (chat_message playerId playerName (Js.VStr "hello") (now env))
             (playerManager lobby),
       inr tt).
Proof.
  eapply (chat_is_broadcast_in_every_phase env "c3" (chat "hello") lobby).
  - now left.
  - reflexivity.
  - apply fresh_envelope.
  - reflexivity.
  - reflexivity.
  - reflexivity.
  - vm_compute. repeat constructor.
Defined.

(** C7.  The code keeps the ready flags: Ann and Bob are ready, play a
    round and ask for a new game; the session waits again and both are
    still ready. *)
Theorem ready_flags_survive_the_return_to_waiting :
  let s := after roundTrip in
  phase (GameManager.gameState (gameManager s)) = Waiting /\
  map Player.ready (store (playerManager s)) = [true; true] /\
  areAllPlayersReady (playerManager s) = true.
Proof. vm_compute. repeat split. Qed.



Lemma chat_sender_witness :
  MessageProtocol.handleMessage env "c3"
    (Some (envelope "chat" [("message", Js.VStr "hello");
                            ("playerId", Js.VStr "ann")])) lobby
  = (scheduled (closedClients (playerManager lobby)) lobby,
     toAll (chat_message (Js.VStr "ann") (Js.VStr "Anonymous")
              (Js.VStr "hello") (now env))
           (playerManager lobby),
     inr tt).
Proof.
  edestruct (chat_sender_is_taken_from_the_payload env "c3"
               (envelope "chat" [("message", Js.VStr "hello");
                                 ("playerId", Js.VStr "ann")]) lobby)
    as (_ & _ & H).
  - now left.
  - reflexivity.
  - apply fresh_envelope.
  - reflexivity.
  - reflexivity.
  - reflexivity.
  - reflexivity.
  - vm_compute. repeat constructor.
  - exact H.
Defined.

End Examples.

(* ===================================================================== *)
(** ** The timers of the coordinator *)
(* ===================================================================== *)

Section PhaseTimers.
Import GameState Session Timers.

Lemma inStep_atMostOne g : inStep g -> atMostOne g.
Proof.
  unfold inStep, atMostOne.
  destruct (ofPhase (phase (GameManager.gameState g))) as [[d t]|].
  - intros [i [Hp Ha]]. right. eexists. split; [exact Ha | exact Hp].
  - intros [_ Ha]. now left.
Qed.

Lemma clearPhaseTimer_cleared g :
  atMostOne g ->
  GameManager.armed (GameManager.clearPhaseTimer g) = [] /\
  GameManager.phaseTimer (GameManager.clearPhaseTimer g) = None.
Proof.
  unfold atMostOne, GameManager.clearPhaseTimer.
  intros [Ha | [x [Ha Hp]]].
  - destruct (GameManager.phaseTimer g) eqn:E; simpl; rewrite ?Ha; auto.
  - rewrite Hp. simpl. rewrite Ha. simpl. rewrite Nat.eqb_refl. auto.
Qed.

Lemma transitionPhase_armed now p d g :
  atMostOne g ->
  let g' := state_of (GameManager.transitionPhase now p d g) in
  match ofPhase p with
  | Some (delay, target) =>
      GameManager.phaseTimer g' = Some (GameManager.nextTimer g) /\
      GameManager.armed g'
      = [{| Timer.id := GameManager.nextTimer g; Timer.delay := delay;
            Timer.target := target |}]
  | None => GameManager.phaseTimer g' = None /\ GameManager.armed g' = []
  end.
Proof.
  intros H g'. subst g'. rewrite transitionPhase_state.
  assert (Hw : atMostOne (GameManager.with_gameState (GameManager.set_phase p) g))
    by exact H.
  assert (Hn : GameManager.nextTimer
                 (GameManager.clearPhaseTimer
                    (GameManager.with_gameState (GameManager.set_phase p) g))
               = GameManager.nextTimer g).
  { unfold GameManager.clearPhaseTimer.
    simpl. destruct (GameManager.phaseTimer g); reflexivity. }
  destruct (clearPhaseTimer_cleared _ Hw) as [Ha Hp].
  destruct p; simpl; rewrite ?Ha, ?Hp, ?Hn; auto.
Qed.

Lemma transitionPhase_inStep now p d g :
  atMostOne g -> inStep (state_of (GameManager.transitionPhase now p d g)).
Proof.
  intros H. pose proof (transitionPhase_armed now p d g H) as Ht.
  unfold inStep. rewrite transitionPhase_phase.
  destruct (ofPhase p) as [[delay target]|]; [|exact Ht].
  destruct Ht as [Hp Ha]. eexists. split; [exact Hp | exact Ha].
Qed.

Lemma clearPhaseTimer_atMostOne g :
  atMostOne g -> atMostOne (GameManager.clearPhaseTimer g).
Proof. intros H. left. apply (clearPhaseTimer_cleared g H). Qed.

Lemma fired_atMostOne g i :
  atMostOne g ->
  atMostOne
    {| GameManager.gameState := GameManager.gameState g;
       GameManager.phaseTimer := GameManager.phaseTimer g;
       GameManager.armed :=
         filter (fun y => negb (Timer.id y =? i)%nat) (GameManager.armed g);
       GameManager.nextTimer := GameManager.nextTimer g |}.
Proof.
  unfold atMostOne. simpl. intros [Ha | [x [Ha Hp]]].
  - left. now rewrite Ha.
  - rewrite Ha. simpl. destruct (Timer.id x =? i)%nat; simpl.
    + now left.
    + right. eauto.
Qed.

Lemma call_inStep c g : inStep g -> inStep (call c g).
Proof.
  intros H. pose proof (inStep_atMostOne g H) as Hw.
  destruct c as [now p d | now p t | ps | now i]; simpl.
  - now apply transitionPhase_inStep.
  - destruct (Phase_eqb (phase (GameManager.gameState g)) Voting) eqn:Hph.
    2:{ rewrite handleVote_not_voting; [exact H|].
        intros E. rewrite E in Hph. discriminate. }
    assert (Hv : phase (GameManager.gameState g) = Voting)
      by (destruct (phase (GameManager.gameState g)); simpl in Hph; congruence).
    destruct (in_dec string_dec p (voters g)) as [Hin | Hout].
    + now rewrite handleVote_duplicate.
    + rewrite (handleVote_recorded now p t g Hv Hout).
      destruct (playerCount g <=? S (voteCount g))%nat.
      * match goal with
        | |- context [GameManager.transitionPhase ?n ?q ?e ?x] =>
            pose proof (transitionPhase_inStep n q e x) as Ht;
            destruct (GameManager.transitionPhase n q e x) as [[g2 out] r]
        end.
        unfold state_of in *. simpl in *. apply Ht.
        apply clearPhaseTimer_atMostOne. exact Hw.
      * exact H.
  - exact H.
  - rewrite fireTimeout_eq.
    destruct (find _ (GameManager.armed g)) as [x|]; [|exact H].
    apply transitionPhase_inStep. now apply fired_atMostOne.
Qed.

Lemma calls_inStep cs : forall g, inStep g -> inStep (calls cs g).
Proof.
  induction cs as [|c cs IH]; intros g H; simpl; [exact H|].
  apply IH. now apply call_inStep.
Qed.

Lemma start_inStep : inStep (start None).
Proof. unfold inStep. simpl. auto. Qed.

(** X1.  In every state the coordinator reaches from its constructor,
    exactly the timer of the current phase is armed and [phaseTimer]
    holds it: the discussion arms the transition to voting after
    120000 ms, the voting the transition to results after 60000 ms,
    the results the return to waiting after 30000 ms; no timer is
    armed while waiting or in the question phase.  (The timers are
    those that change the phase; the interval of
    [startDiscussionTimer], which broadcasts the time left, is not one
    of them.) *)
Theorem the_timer_of_the_phase_is_the_only_one_armed cs :
  let g := Session.calls cs (Session.start None) in
  match phase (GameManager.gameState g) with
  | Discussion =>
      exists i, GameManager.phaseTimer g = Some i /\
        GameManager.armed g
        = [{| Timer.id := i; Timer.delay := 120000; Timer.target := Voting |}]
  | Voting =>
      exists i, GameManager.phaseTimer g = Some i /\
        GameManager.armed g
        = [{| Timer.id := i; Timer.delay := 60000;
              Timer.target := ResultsPhase |}]
  | ResultsPhase =>
      exists i, GameManager.phaseTimer g = Some i /\
        GameManager.armed g
        = [{| Timer.id := i; Timer.delay := 30000; Timer.target := Waiting |}]
  | Waiting | Question =>
      GameManager.phaseTimer g = None /\ GameManager.armed g = []
  end.
Proof.
  intros g. pose proof (calls_inStep cs _ start_inStep) as H. fold g in H.
  unfold inStep in H.
  destruct (phase (GameManager.gameState g)); exact H.
Qed.

(** X2.  Once the coordinator has changed phase, the timer that the phase
    before had armed does nothing when it expires: the state is the
    same and nothing is broadcast. *)
Theorem superseded_timer_does_nothing cs now p d now' i :
  let g := Session.calls cs (Session.start None) in
  let g' := state_of (GameManager.transitionPhase now p d g) in
  GameManager.phaseTimer g = Some i ->
  GameManager.fireTimeout now' i g' = (g', [], inr tt).
Proof.
  intros g g' Hi.
  pose proof (calls_inStep cs _ start_inStep) as H. fold g in H.
  pose proof (calls_fresh cs _ (start_fresh None)) as Hf. fold g in Hf.
  destruct Hf as [_ Hf]. specialize (Hf i Hi).
  pose proof (transitionPhase_armed now p d g (inStep_atMostOne g H)) as Ha.
  fold g' in Ha. rewrite fireTimeout_eq.
  destruct (ofPhase p) as [[delay target]|].
  - destruct Ha as [_ Ha]. rewrite Ha. simpl.
    destruct (Nat.eqb_spec (GameManager.nextTimer g) i); [lia | reflexivity].
  - destruct Ha as [_ Ha]. rewrite Ha. reflexivity.
Qed.

Lemma call_waiting_reset c g :
  (phase (GameManager.gameState g) = Waiting ->
   imposter (GameManager.gameState g) = None /\
   questionId (GameManager.gameState g) = None /\
   discussionEndsAt (GameManager.gameState g) = None /\
   votes (GameManager.gameState g) = [] /\
   results (GameManager.gameState g) = None) ->
  let g' := call c g in
  phase (GameManager.gameState g') = Waiting ->
  imposter (GameManager.gameState g') = None /\
  questionId (GameManager.gameState g') = None /\
  discussionEndsAt (GameManager.gameState g') = None /\
  votes (GameManager.gameState g') = [] /\
  results (GameManager.gameState g') = None.
Proof.
  intros H g'. subst g'.
  assert (Ht : forall now p d g0,
             phase (GameManager.gameState
                      (state_of (GameManager.transitionPhase now p d g0))) = Waiting ->
             let g' := state_of (GameManager.transitionPhase now p d g0) in
             imposter (GameManager.gameState g') = None /\
             questionId (GameManager.gameState g') = None /\
             discussionEndsAt (GameManager.gameState g') = None /\
             votes (GameManager.gameState g') = [] /\
             results (GameManager.gameState g') = None).
  { intros now p d g0 Hp. rewrite transitionPhase_phase in Hp. subst p.
    cbv zeta. rewrite transitionPhase_state.
    unfold GameManager.clearPhaseTimer. simpl.
    destruct (GameManager.phaseTimer g0); simpl; auto. }
  destruct c as [now p d | now p t | ps | now i]; simpl.
  - apply Ht.
  - destruct (handleVote_votes now p t g) as [E | [Hv [_ [_ [_ Hp]]]]].
    + rewrite E. exact H.
    + intros Hw. rewrite Hp in Hw.
      destruct (playerCount g <=? S (voteCount g))%nat; discriminate.
  - exact H.
  - destruct (fireTimeout_state now i g) as [E | [g1 [x [_ [_ E]]]]].
    + rewrite E. exact H.
    + rewrite E. apply Ht.
Qed.

(** X3.  Whenever a coordinator started from its constructor is in the
    waiting phase, nothing of a round is left in its state: no
    imposter, no question, no discussion deadline, no vote and no
    results. *)
Theorem waiting_holds_nothing_of_a_round cs :
  let g := Session.calls cs (Session.start None) in
  phase (GameManager.gameState g) = Waiting ->
  imposter (GameManager.gameState g) = None /\
  questionId (GameManager.gameState g) = None /\
  discussionEndsAt (GameManager.gameState g) = None /\
  votes (GameManager.gameState g) = [] /\
  results (GameManager.gameState g) = None.
Proof.
  intros g. subst g.
  assert (G : forall g0,
             (phase (GameManager.gameState g0) = Waiting ->
              imposter (GameManager.gameState g0) = None /\
              questionId (GameManager.gameState g0) = None /\
              discussionEndsAt (GameManager.gameState g0) = None /\
              votes (GameManager.gameState g0) = [] /\
              results (GameManager.gameState g0) = None) ->
             phase (GameManager.gameState (Session.calls cs g0)) = Waiting ->
             imposter (GameManager.gameState (Session.calls cs g0)) = None /\
             questionId (GameManager.gameState (Session.calls cs g0)) = None /\
             discussionEndsAt (GameManager.gameState (Session.calls cs g0)) = None /\
             votes (GameManager.gameState (Session.calls cs g0)) = [] /\
             results (GameManager.gameState (Session.calls cs g0)) = None).
  { induction cs as [|c cs IH]; intros g0 H0; simpl; [exact H0|].
    apply IH. apply call_waiting_reset. exact H0. }
  apply G. simpl. auto.
Qed.

End PhaseTimers.

Lemma waiting_holds_nothing_witness :
  let g := Session.calls
             [ Session.transitionPhase 0 Question
                 {| PhaseData.questionId := Some 1%Z;
                    PhaseData.imposter := Some "ann" |};
               Session.transitionPhase 1 Waiting PhaseData.none ]
             (Session.start None) in
  GameState.imposter (GameManager.gameState g) = None /\
  GameState.questionId (GameManager.gameState g) = None /\
  GameState.discussionEndsAt (GameManager.gameState g) = None /\
  GameState.votes (GameManager.gameState g) = [] /\
  GameState.results (GameManager.gameState g) = None.
Proof.
  apply (waiting_holds_nothing_of_a_round
           [ Session.transitionPhase 0 Question
               {| PhaseData.questionId := Some 1%Z;
                  PhaseData.imposter := Some "ann" |};
             Session.transitionPhase 1 Waiting PhaseData.none ]).
  reflexivity.
Defined.

Lemma superseded_timer_witness :
  let g := Session.calls [Session.transitionPhase 0 Discussion PhaseData.none]
             (Session.start None) in
  let g' := state_of (GameManager.transitionPhase 5 Voting PhaseData.none g) in
  GameManager.fireTimeout 9 0 g' = (g', [], inr tt).
Proof.
  apply (superseded_timer_does_nothing
           [Session.transitionPhase 0 Discussion PhaseData.none]
           5%Z Voting PhaseData.none 9%Z 0).
  reflexivity.
Defined.

(* ===================================================================== *)
(** ** The outcome of a vote *)
(* ===================================================================== *)

Section Outcome.
Import GameState Tally.

(** X4.  A target that has more votes than every other counted target is
    the most voted player, and the players win exactly when that
    target is the imposter.  (A target named like a member of
    [Object.prototype] is not counted.) *)
Theorem strict_plurality_is_the_most_voted_player (gs : GameState.t) t :
  let r := GameManager.calculateVoteResults gs in
  Js.inherited t = false ->
  0 < votesFor t (votes gs) ->
  (forall t', t' <> t -> Js.inherited t' = false ->
     votesFor t' (votes gs) < votesFor t (votes gs)) ->
  Results.mostVotedPlayer r = Some t /\
  (Results.playersWon r = true <-> imposter gs = Some t).
Proof.
  cbv zeta. intros Hi Hpos Hmore.
  unfold GameManager.calculateVoteResults. simpl.
  destruct (tally_tallied (votes gs)) as [Hg Hs].
  set (o := fold_left GameManager.countVote (votes gs) []) in *.
  pose proof (StronglySorted_NoDup _ _ Hs) as Hnd.
  assert (Ht : In (t, Num (votesFor t (votes gs))) o).
  { apply get_In. rewrite Hg, expected_counted by assumption.
    destruct (Nat.eqb_spec (votesFor t (votes gs)) 0); [lia | reflexivity]. }
  assert (Hentry : forall k n, In (k, Num n) o ->
            Js.inherited k = false /\ n = votesFor k (votes gs) /\ 0 < n).
  { intros k n Hin. apply expected_Num. rewrite <- Hg. now apply In_get. }
  destruct (fold_left GameManager.moreVotes o (None, 0)) as [b m] eqn:Hfold.
  apply moreVotes_first_highest in Hfold. simpl.
  assert (Hb : b = Some t).
  { destruct Hfold as [(_ & _ & Hall)|(l1 & k & l2 & Ho & -> & Hm & H1 & H2)].
    - specialize (Hall _ _ Ht). lia.
    - f_equal. destruct (string_dec k t) as [E | Hne]; [exact E | exfalso].
      assert (Hk : In (k, Num m) o)
        by (rewrite Ho; apply in_or_app; right; now left).
      destruct (Hentry k m Hk) as (Hik & -> & _).
      specialize (Hmore k Hne Hik).
      rewrite Ho in Ht. apply in_app_or in Ht as [Hin|[E|Hin]].
      + specialize (H1 _ _ Hin). lia.
      + injection E as E _. contradiction.
      + specialize (H2 _ _ Hin). lia. }
  subst b. split; [reflexivity|].
  rewrite option_string_eqb_eq. split; congruence.
Qed.

End Outcome.

Lemma strict_plurality_witness :
  let gs := Scenario.ballots ["bob"; "ann"; "bob"] in
  Results.mostVotedPlayer (GameManager.calculateVoteResults gs) = Some "bob" /\
  (Results.playersWon (GameManager.calculateVoteResults gs) = true
   <-> GameState.imposter gs = Some "bob").
Proof.
  apply (strict_plurality_is_the_most_voted_player
           (Scenario.ballots ["bob"; "ann"; "bob"]) "bob").
  - reflexivity.
  - vm_compute. lia.
  - intros t' Hne _.
    replace (Tally.votesFor "bob" _) with 2 by reflexivity.
    unfold Tally.votesFor, Scenario.ballots.
    cbn [GameState.votes map filter Vote.targetId].
    destruct (String.eqb_spec "bob" t') as [E | _]; [congruence|].
    destruct (String.eqb_spec "ann" t'); cbn [length]; lia.
Defined.

(* ===================================================================== *)
(** ** The rooms *)
(* ===================================================================== *)

Section MapFacts.
Variable V : Type.

Lemma map_get_set_same k (v : V) m : Js.map_get k (Js.map_set k v m) = Some v.
Proof.
  unfold Js.map_get, Js.map_set. destruct (Js.get k m) eqn:E.
  - now apply get_replace_same with (v0 := v0).
  - rewrite get_app, E. simpl. now rewrite String.eqb_refl.
Qed.

Lemma map_get_set_other k k' (v : V) m :
  k' <> k -> Js.map_get k' (Js.map_set k v m) = Js.map_get k' m.
Proof.
  intros Hne. unfold Js.map_get, Js.map_set. destruct (Js.get k m) eqn:E.
  - now apply get_replace_other.
  - rewrite get_app. destruct (Js.get k' m); [reflexivity|]. simpl.
    destruct (String.eqb_spec k k'); congruence.
Qed.

Lemma map_get_delete_other k k' (m : Js.jsmap V) :
  k' <> k -> Js.map_get k' (Js.map_delete k m) = Js.map_get k' m.
Proof.
  intros Hne. unfold Js.map_get, Js.map_delete.
  induction m as [|[k0 v0] m IH]; simpl; [reflexivity|].
  destruct (String.eqb_spec k0 k) as [-> | Hk]; simpl.
  - destruct (String.eqb_spec k k'); [congruence | exact IH].
  - destruct (k0 =? k'); [reflexivity | exact IH].
Qed.

Lemma In_replace k (v : V) m e : In e (Js.replace k v m) -> e = (k, v) \/ In e m.
Proof.
  induction m as [|[k0 v0] m IH]; simpl; [tauto|].
  destruct (k0 =? k); simpl; intros [H | H]; auto.
  destruct (IH H); auto.
Qed.

Lemma In_map_set k (v : V) m e : In e (Js.map_set k v m) -> e = (k, v) \/ In e m.
Proof.
  unfold Js.map_set. destruct (Js.get k m).
  - apply In_replace.
  - intros H. apply in_app_or in H as [H | [H | []]]; auto.
Qed.

Lemma In_map_delete k (m : Js.jsmap V) e : In e (Js.map_delete k m) -> In e m.
Proof. unfold Js.map_delete. intros H. now apply filter_In in H. Qed.

Lemma map_has_false_get k (m : Js.jsmap V) :
  Js.map_has k m = false -> Js.map_get k m = None.
Proof. unfold Js.map_has, Js.map_get. now destruct (Js.get k m). Qed.

End MapFacts.

Section SetFacts.

Lemma set_has_In x s : Js.set_has x s = true <-> In x s.
Proof.
  unfold Js.set_has. rewrite existsb_exists. split.
  - intros [y [Hy E]]. apply String.eqb_eq in E. now subst.
  - intros H. exists x. split; [exact H | apply String.eqb_refl].
Qed.

Lemma In_set_add x y s : In y (Js.set_add x s) <-> y = x \/ In y s.
Proof.
  unfold Js.set_add. destruct (Js.set_has x s) eqn:E.
  - apply set_has_In in E. split; [auto|]. intros [-> | H]; auto.
  - rewrite in_app_iff. simpl. intuition.
Qed.

Lemma In_set_delete x y s : In y (Js.set_delete x s) <-> y <> x /\ In y s.
Proof.
  unfold Js.set_delete. rewrite filter_In.
  destruct (String.eqb_spec y x); simpl; intuition congruence.
Qed.

Lemma set_add_length x s : length (Js.set_add x s) <> 0.
Proof.
  unfold Js.set_add. destruct (Js.set_has x s) eqn:E.
  - apply set_has_In in E. destruct s; [destruct E | discriminate].
  - rewrite length_app. simpl. lia.
Qed.

End SetFacts.

Section RoomFacts.
Import Room Rooms.

Lemma ensureRoom_get now code rooms :
  Js.map_get code (RoomManager.ensureRoom now code rooms)
  = Some match Js.map_get code rooms with
         | Some room => room
         | None => {| Room.code := code; players := []; clients := [];
                      hostId := None; createdAt := now |}
         end.
Proof.
  unfold RoomManager.ensureRoom, Js.map_has, Js.map_get.
  destruct (Js.get code rooms) eqn:E.
  - exact E.
  - apply map_get_set_same.
Qed.

Lemma ensureRoom_other now code code' rooms :
  code' <> code ->
  Js.map_get code' (RoomManager.ensureRoom now code rooms) = Js.map_get code' rooms.
Proof.
  intros Hne. unfold RoomManager.ensureRoom.
  destruct (Js.map_has code rooms); [reflexivity|].
  now apply map_get_set_other.
Qed.

Lemma In_ensureRoom now code rooms e :
  In e (RoomManager.ensureRoom now code rooms) ->
  e = (code, {| Room.code := code; players := []; clients := [];
                hostId := None; createdAt := now |}) \/ In e rooms.
Proof.
  unfold RoomManager.ensureRoom. destruct (Js.map_has code rooms); [auto|].
  apply In_map_set.
Qed.

Lemma length_zero (A : Type) (l : list A) : (length l =? 0)%nat = true -> l = [].
Proof. destruct l; [reflexivity | discriminate]. Qed.

(** X5.  The four operations on the membership of a room act on its players
    and on its connections as on two sets: adding a member that is
    there changes nothing, removing puts the others in the same order,
    and a room that is not there counts as a room without members.  No
    other room is touched. *)
Theorem room_membership_changes_as_sets code c rooms :
  RoomManager.listPlayers code (change code c rooms)
  = changePlayers c (RoomManager.listPlayers code rooms) /\
  RoomManager.listClients code (change code c rooms)
  = changeClients c (RoomManager.listClients code rooms) /\
  (forall code', code' <> code ->
     RoomManager.getRoom code' (change code c rooms)
     = RoomManager.getRoom code' rooms).
Proof.
  unfold RoomManager.listPlayers, RoomManager.listClients, RoomManager.getRoom.
  destruct c as [now x | x | now x b | x]; simpl.
  - unfold RoomManager.addClientToRoom. rewrite ensureRoom_get.
    rewrite !map_get_set_same. simpl.
    repeat split.
    + now destruct (Js.map_get code rooms).
    + now destruct (Js.map_get code rooms).
    + intros code' Hne. rewrite map_get_set_other by exact Hne.
      now apply ensureRoom_other.
  - unfold RoomManager.removeClientFromRoom.
    destruct (Js.map_get code rooms) as [room|] eqn:E; [|rewrite E; auto].
    destruct (RoomManager.is_empty _) eqn:He.
    + rewrite map_get_delete. unfold RoomManager.is_empty in He. simpl in He.
      apply andb_true_iff in He as [Hc Hp].
      apply length_zero in Hc. apply length_zero in Hp.
      repeat split; auto.
      intros code' Hne. now apply map_get_delete_other.
    + rewrite map_get_set_same. simpl. repeat split.
      intros code' Hne. now apply map_get_set_other.
  - unfold RoomManager.addPlayerToRoom. rewrite ensureRoom_get.
    rewrite !map_get_set_same. simpl.
    repeat split.
    + now destruct (Js.map_get code rooms).
    + now destruct (Js.map_get code rooms).
    + intros code' Hne. rewrite map_get_set_other by exact Hne.
      now apply ensureRoom_other.
  - unfold RoomManager.removePlayerFromRoom.
    destruct (Js.map_get code rooms) as [room|] eqn:E; [|rewrite E; auto].
    destruct (RoomManager.is_empty _) eqn:He.
    + rewrite map_get_delete. unfold RoomManager.is_empty in He. simpl in He.
      apply andb_true_iff in He as [Hc Hp].
      apply length_zero in Hc. apply length_zero in Hp.
      repeat split; auto.
      intros code' Hne. now apply map_get_delete_other.
    + rewrite map_get_set_same. simpl. repeat split.
      intros code' Hne. now apply map_get_set_other.
Qed.

(** X6.  After each of the four operations on the membership of a room, the
    room exists exactly when it has a player or a connection: a room is
    created by the first member that is added and deleted with the
    last one that is removed. *)
Theorem room_exists_while_it_has_members code c rooms :
  RoomManager.roomExists code (change code c rooms)
  = inhabited code (change code c rooms).
Proof.
  unfold inhabited, RoomManager.roomExists, RoomManager.listPlayers,
    RoomManager.listClients, Js.map_has.
  change (Js.get code (change code c rooms))
    with (Js.map_get code (change code c rooms)).
  destruct c as [now x | x | now x b | x]; simpl.
  - unfold RoomManager.addClientToRoom. rewrite ensureRoom_get.
    rewrite !map_get_set_same. simpl.
    pose proof (set_add_length x) as Hl.
    match goal with
    | |- context [length (Js.set_add x ?l)] =>
        specialize (Hl l); destruct (length (Js.set_add x l)); [congruence|]
    end.
    simpl. now rewrite andb_false_r.
  - unfold RoomManager.removeClientFromRoom.
    destruct (Js.map_get code rooms) as [room|] eqn:E; [|now rewrite E].
    destruct (RoomManager.is_empty _) eqn:He.
    + now rewrite map_get_delete.
    + rewrite map_get_set_same. simpl.
      unfold RoomManager.is_empty in He. simpl in He.
      rewrite andb_comm. now rewrite He.
  - unfold RoomManager.addPlayerToRoom. rewrite ensureRoom_get.
    rewrite !map_get_set_same. simpl.
    pose proof (set_add_length x) as Hl.
    match goal with
    | |- context [length (Js.set_add x ?l)] =>
        specialize (Hl l); destruct (length (Js.set_add x l)); [congruence|]
    end.
    reflexivity.
  - unfold RoomManager.removePlayerFromRoom.
    destruct (Js.map_get code rooms) as [room|] eqn:E; [|now rewrite E].
    destruct (RoomManager.is_empty _) eqn:He.
    + now rewrite map_get_delete.
    + rewrite map_get_set_same. simpl.
      unfold RoomManager.is_empty in He. simpl in He.
      rewrite andb_comm. now rewrite He.
Qed.

Lemma hostIsMember_get code room rooms :
  hostIsMember rooms -> Js.map_get code rooms = Some room ->
  match hostId room with Some h => In h (players room) | None => True end.
Proof. intros H E. apply (H code). now apply get_In. Qed.

Lemma hostIsMember_set code room rooms :
  hostIsMember rooms ->
  match hostId room with Some h => In h (players room) | None => True end ->
  hostIsMember (Js.map_set code room rooms).
Proof.
  intros H Hr code' room' Hin. apply In_map_set in Hin as [E | Hin].
  - injection E as _ ->. exact Hr.
  - exact (H _ _ Hin).
Qed.

Lemma hostIsMember_delete code rooms :
  hostIsMember rooms -> hostIsMember (Js.map_delete code rooms).
Proof. intros H code' room' Hin. apply In_map_delete in Hin. exact (H _ _ Hin). Qed.

Lemma hostIsMember_ensureRoom now code rooms :
  hostIsMember rooms -> hostIsMember (RoomManager.ensureRoom now code rooms).
Proof.
  intros H. unfold RoomManager.ensureRoom.
  destruct (Js.map_has code rooms); [exact H|].
  apply hostIsMember_set; [exact H | exact I].
Qed.

Lemma hostIsMember_change code c rooms :
  hostIsMember rooms -> hostIsMember (change code c rooms).
Proof.
  intros H.
  destruct c as [now x | x | now x b | x]; simpl.
  - unfold RoomManager.addClientToRoom.
    pose proof (hostIsMember_ensureRoom now code rooms H) as H1.
    destruct (Js.map_get code (RoomManager.ensureRoom now code rooms))
      as [room|] eqn:E; [|exact H1].
    apply hostIsMember_set; [exact H1|]. simpl.
    exact (hostIsMember_get _ _ _ H1 E).
  - unfold RoomManager.removeClientFromRoom.
    destruct (Js.map_get code rooms) as [room|] eqn:E; [|exact H].
    destruct (RoomManager.is_empty _).
    + now apply hostIsMember_delete.
    + apply hostIsMember_set; [exact H|]. simpl.
      exact (hostIsMember_get _ _ _ H E).
  - unfold RoomManager.addPlayerToRoom.
    pose proof (hostIsMember_ensureRoom now code rooms H) as H1.
    destruct (Js.map_get code (RoomManager.ensureRoom now code rooms))
      as [room|] eqn:E; [|exact H1].
    apply hostIsMember_set; [exact H1|]. simpl.
    pose proof (hostIsMember_get _ _ _ H1 E) as Hr.
    destruct (hostId room) as [h|] eqn:Eh; simpl.
    + destruct (h =? "") eqn:Ee.
      * destruct b; apply In_set_add; auto.
      * apply In_set_add. auto.
    + destruct b; [|exact I]. apply In_set_add. auto.
  - unfold RoomManager.removePlayerFromRoom.
    destruct (Js.map_get code rooms) as [room|] eqn:E; [|exact H].
    destruct (RoomManager.is_empty _).
    + now apply hostIsMember_delete.
    + apply hostIsMember_set; [exact H|]. simpl.
      pose proof (hostIsMember_get _ _ _ H E) as Hr.
      destruct (hostId room) as [h|]; [|exact I].
      destruct (String.eqb_spec h x) as [-> | Hne].
      * destruct (Js.set_delete x (players room)) as [|y l]; simpl; [exact I|].
        destruct (y =? ""); [exact I | now left].
      * apply In_set_delete. auto.
Qed.

Lemma hostOf_get code rooms room :
  Js.map_get code rooms = Some room -> hostOf code rooms = hostId room.
Proof. unfold hostOf, RoomManager.getRoom. now intros ->. Qed.

Lemma hostOf_none code rooms :
  Js.map_get code rooms = None -> hostOf code rooms = None.
Proof. unfold hostOf, RoomManager.getRoom. now intros ->. Qed.

Lemma hostOf_ensureRoom now code code' rooms :
  hostOf code' (RoomManager.ensureRoom now code rooms) = hostOf code' rooms.
Proof.
  unfold hostOf, RoomManager.getRoom.
  destruct (String.eqb_spec code' code) as [-> | Hne].
  - rewrite ensureRoom_get. now destruct (Js.map_get code rooms).
  - now rewrite ensureRoom_other.
Qed.

(** A room that is left without a player had no host. *)
Lemma no_player_no_host code rooms room :
  hostIsMember rooms -> Js.map_get code rooms = Some room ->
  (length (players room) =? 0)%nat = true -> hostId room = None.
Proof.
  intros H E Hl. pose proof (hostIsMember_get _ _ _ H E) as Hr.
  apply length_zero in Hl. rewrite Hl in Hr.
  now destruct (hostId room).
Qed.

(** The host of the room after a change. *)
Lemma hostOf_change code c rooms :
  hostIsMember rooms ->
  hostOf code (change code c rooms)
  = match c with
    | addPlayer _ playerId makeHostIfFirst =>
        match nonempty (hostOf code rooms) with
        | Some h => Some h
        | None => if makeHostIfFirst then Some playerId else hostOf code rooms
        end
    | removePlayer playerId =>
        match hostOf code rooms with
        | Some h =>
            if h =? playerId
            then nonempty (hd_error (RoomManager.listPlayers code
                                       (change code c rooms)))
            else Some h
        | None => None
        end
    | _ => hostOf code rooms
    end.
Proof.
  intros H.
  destruct c as [now x | x | now x b | x]; simpl.
  - unfold RoomManager.addClientToRoom.
    rewrite <- (hostOf_ensureRoom now code code rooms).
    destruct (Js.map_get code (RoomManager.ensureRoom now code rooms))
      as [room|] eqn:E; [|reflexivity].
    rewrite (hostOf_get _ _ _ E).
    now rewrite (hostOf_get _ _ _ (map_get_set_same _ _ _ _)).
  - unfold RoomManager.removeClientFromRoom.
    destruct (Js.map_get code rooms) as [room|] eqn:E; [|reflexivity].
    rewrite (hostOf_get _ _ _ E).
    destruct (RoomManager.is_empty _) eqn:He.
    + rewrite (hostOf_none _ _ (map_get_delete _ _ _)).
      unfold RoomManager.is_empty in He. simpl in He.
      apply andb_true_iff in He as [_ Hp].
      symmetry. now apply (no_player_no_host code rooms).
    + now rewrite (hostOf_get _ _ _ (map_get_set_same _ _ _ _)).
  - unfold RoomManager.addPlayerToRoom.
    rewrite <- (hostOf_ensureRoom now code code rooms).
    destruct (Js.map_get code (RoomManager.ensureRoom now code rooms))
      as [room|] eqn:E.
    + rewrite (hostOf_get _ _ _ E).
      now rewrite (hostOf_get _ _ _ (map_get_set_same _ _ _ _)).
    + unfold hostOf, RoomManager.getRoom in *.
      rewrite ensureRoom_get in E. discriminate.
  - unfold RoomManager.removePlayerFromRoom, RoomManager.listPlayers.
    destruct (Js.map_get code rooms) as [room|] eqn:E;
      [|now rewrite (hostOf_none _ _ E)].
    rewrite (hostOf_get _ _ _ E).
    pose proof (hostIsMember_get _ _ _ H E) as Hr.
    destruct (RoomManager.is_empty _) eqn:He.
    + rewrite (hostOf_none _ _ (map_get_delete _ _ _)), map_get_delete.
      unfold RoomManager.is_empty in He. simpl in He.
      apply andb_true_iff in He as [_ Hp]. apply length_zero in Hp.
      destruct (hostId room) as [h|]; [|reflexivity].
      destruct (String.eqb_spec h x) as [-> | Hne]; [reflexivity|].
      exfalso. assert (Hin : In h (Js.set_delete x (players room)))
        by (apply In_set_delete; auto).
      now rewrite Hp in Hin.
    + rewrite (hostOf_get _ _ _ (map_get_set_same _ _ _ _)), map_get_set_same.
      reflexivity.
Qed.

Lemma hostOf_change_other code code' c rooms :
  code' <> code -> hostOf code' (change code c rooms) = hostOf code' rooms.
Proof.
  intros Hne. unfold hostOf, RoomManager.getRoom.
  destruct c as [now x | x | now x b | x]; simpl.
  - unfold RoomManager.addClientToRoom.
    destruct (Js.map_get code (RoomManager.ensureRoom now code rooms));
      [rewrite map_get_set_other by exact Hne|]; now rewrite ensureRoom_other.
  - unfold RoomManager.removeClientFromRoom.
    destruct (Js.map_get code rooms); [|reflexivity].
    destruct (RoomManager.is_empty _);
      [now rewrite map_get_delete_other | now rewrite map_get_set_other].
  - unfold RoomManager.addPlayerToRoom.
    destruct (Js.map_get code (RoomManager.ensureRoom now code rooms));
      [rewrite map_get_set_other by exact Hne|]; now rewrite ensureRoom_other.
  - unfold RoomManager.removePlayerFromRoom.
    destruct (Js.map_get code rooms); [|reflexivity].
    destruct (RoomManager.is_empty _);
      [now rewrite map_get_delete_other | now rewrite map_get_set_other].
Qed.

(** X7.  The four operations on the membership of a room keep the host of
    every room among its players, and this is who the host is after
    each of them.  When a player joins, a room that has a host keeps
    it, and a room without one takes the player as its host if it is
    asked to.  When a player leaves, the host stays unless it is the
    one who leaves; then the first of the players left in the room
    takes over, and nobody if none is left.  A connection that joins
    or leaves changes no host, and no operation changes the host of
    another room. *)
Theorem the_host_stays_a_member code c rooms :
  hostIsMember rooms ->
  let rooms' := change code c rooms in
  hostIsMember rooms' /\
  hostOf code rooms'
  = match c with
    | addPlayer _ playerId makeHostIfFirst =>
        match nonempty (hostOf code rooms) with
        | Some h => Some h
        | None => if makeHostIfFirst then Some playerId else hostOf code rooms
        end
    | removePlayer playerId =>
        match hostOf code rooms with
        | Some h =>
            if h =? playerId
            then nonempty (hd_error (RoomManager.listPlayers code rooms'))
            else Some h
        | None => None
        end
    | _ => hostOf code rooms
    end /\
  forall code', code' <> code -> hostOf code' rooms' = hostOf code' rooms.
Proof.
  intros H. cbv zeta. split; [now apply hostIsMember_change|].
  split; [now apply hostOf_change|].
  intros code' Hne. now apply hostOf_change_other.
Qed.

Lemma noEmptyRoom_set code room rooms :
  noEmptyRoom rooms -> RoomManager.is_empty room = false ->
  noEmptyRoom (Js.map_set code room rooms).
Proof.
  intros H Hr code' room' Hin. apply In_map_set in Hin as [E | Hin].
  - injection E as _ ->. exact Hr.
  - exact (H _ _ Hin).
Qed.

Lemma noEmptyRoom_delete code rooms :
  noEmptyRoom rooms -> noEmptyRoom (Js.map_delete code rooms).
Proof. intros H code' room' Hin. apply In_map_delete in Hin. exact (H _ _ Hin). Qed.

Lemma is_empty_added (room : Room.t) x :
  (length (Js.set_add x (clients room)) =? 0)%nat = false /\
  (length (Js.set_add x (players room)) =? 0)%nat = false.
Proof.
  split; apply Nat.eqb_neq; apply set_add_length.
Qed.

Lemma replace_app_absent (V : Type) k (v : V) l l' :
  Js.get k l = None -> Js.replace k v (l ++ l') = l ++ Js.replace k v l'.
Proof.
  induction l as [|[k0 v0] l IH]; simpl; [reflexivity|].
  destruct (k0 =? k); [discriminate|]. intros H. now rewrite IH.
Qed.

Lemma In_ensure_set now code v rooms e :
  In e (Js.map_set code v (RoomManager.ensureRoom now code rooms)) ->
  e = (code, v) \/ In e rooms.
Proof.
  unfold RoomManager.ensureRoom, Js.map_has.
  destruct (Js.get code rooms) eqn:E.
  - apply In_map_set.
  - unfold Js.map_set at 2. rewrite E. unfold Js.map_set.
    rewrite get_app, E. simpl. rewrite String.eqb_refl.
    rewrite replace_app_absent by exact E. simpl. rewrite String.eqb_refl.
    intros H. apply in_app_or in H as [H | [H | []]]; auto.
Qed.

Lemma noEmptyRoom_change code c rooms :
  noEmptyRoom rooms -> noEmptyRoom (change code c rooms).
Proof.
  intros H.
  destruct c as [now x | x | now x b | x]; simpl.
  - unfold RoomManager.addClientToRoom. rewrite ensureRoom_get.
    intros code' room' Hin. apply In_ensure_set in Hin as [Eq | Hin];
      [|exact (H _ _ Hin)].
    injection Eq as _ ->. unfold RoomManager.is_empty. simpl.
    match goal with
    | |- context [Js.set_add x ?l] =>
        pose proof (set_add_length x l) as Hl;
        destruct (length (Js.set_add x l)); [congruence | reflexivity]
    end.
  - unfold RoomManager.removeClientFromRoom.
    destruct (Js.map_get code rooms) as [room|] eqn:E; [|exact H].
    destruct (RoomManager.is_empty _) eqn:He.
    + now apply noEmptyRoom_delete.
    + now apply noEmptyRoom_set.
  - unfold RoomManager.addPlayerToRoom. rewrite ensureRoom_get.
    intros code' room' Hin. apply In_ensure_set in Hin as [Eq | Hin];
      [|exact (H _ _ Hin)].
    injection Eq as _ ->. unfold RoomManager.is_empty. simpl.
    match goal with
    | |- context [Js.set_add x ?l] =>
        pose proof (set_add_length x l) as Hl;
        destruct (length (Js.set_add x l)); [congruence|]
    end.
    apply andb_false_r.
  - unfold RoomManager.removePlayerFromRoom.
    destruct (Js.map_get code rooms) as [room|] eqn:E; [|exact H].
    destruct (RoomManager.is_empty _) eqn:He.
    + now apply noEmptyRoom_delete.
    + now apply noEmptyRoom_set.
Qed.

End RoomFacts.

Lemma the_host_stays_a_member_witness :
  let rooms :=
    Rooms.change "123" (Rooms.addPlayer 0 "cat" true)
      (Rooms.change "123" (Rooms.addPlayer 0 "bob" true)
         (Rooms.change "123" (Rooms.addPlayer 0 "ann" true)
            RoomManager.constructor)) in
  Rooms.hostOf "123" rooms = Some "ann" /\
  Rooms.hostOf "123" (Rooms.change "123" (Rooms.removePlayer "ann") rooms)
  = Some "bob".
Proof.
  cbv zeta. split; [reflexivity|].
  edestruct (the_host_stays_a_member "123" (Rooms.removePlayer "ann"))
    as (_ & H & _); [|exact H].
  intros code room Hin. vm_compute in Hin.
  destruct Hin as [E | []]. injection E as _ <-. simpl. auto.
Defined.

(* ===================================================================== *)
(** ** New rooms *)
(* ===================================================================== *)

Section RoomCodeFacts.
Import RoomCodes.

Lemma codeOf_three_digits draw :
  Js.three_digits (codeOf draw) = true /\ Js.trim (codeOf draw) = codeOf draw.
Proof.
  assert (H : forallb (fun d => Js.three_digits (codeOf d)
                                && (Js.trim (codeOf d) =? codeOf d))
                      (seq 0 900) = true) by (vm_compute; reflexivity).
  rewrite forallb_forall in H.
  assert (E : codeOf draw = codeOf (draw mod 900)).
  { unfold codeOf. now rewrite Nat.Div0.mod_mod. }
  rewrite E.
  specialize (H (draw mod 900)).
  rewrite in_seq in H.
  assert (Hlt : draw mod 900 < 900) by (apply Nat.mod_upper_bound; lia).
  apply andb_true_iff in H as [H1 H2]; [|lia].
  apply String.eqb_eq in H2. auto.
Qed.

Lemma generateFrom_spec random rooms attempts : forall i,
  match generateFrom random i attempts rooms with
  | inr code =>
      exists j, i <= j < i + attempts /\ code = codeOf (random j) /\
        RoomManager.roomExists code rooms = false /\
        forall k, i <= k < j ->
          RoomManager.roomExists (codeOf (random k)) rooms = true
  | inl e =>
      e = "Failed to generate unique room code" /\
      forall k, i <= k < i + attempts ->
        RoomManager.roomExists (codeOf (random k)) rooms = true
  end.
Proof.
  unfold RoomManager.roomExists.
  induction attempts as [|n IH]; intros i; simpl.
  - split; [reflexivity|]. intros k Hk. lia.
  - destruct (Js.map_has (codeOf (random i)) rooms) eqn:E.
    + specialize (IH (S i)).
      destruct (generateFrom random (S i) n rooms) as [e | code].
      * destruct IH as [-> IH]. split; [reflexivity|].
        intros k Hk. destruct (Nat.eq_dec k i) as [-> | Hne]; [exact E|].
        apply IH. lia.
      * destruct IH as [j [Hj [-> [Hf Hb]]]]. exists j.
        repeat split; [lia | lia | exact Hf |].
        intros k Hk. destruct (Nat.eq_dec k i) as [-> | Hne]; [exact E|].
        apply Hb. lia.
    + exists i. repeat split; [lia | lia | exact E |]. intros k Hk. lia.
Qed.

(** X8.  [generateRoomCode] returns the code of the first of its draws that
    names no room, a code of three digits; it gives up, with the error
    of the source and no code, only when each of its 1000 draws names a
    room that exists. *)
Theorem generateRoomCode_returns_the_first_free_draw random rooms :
  match generateRoomCode random rooms with
  | inr code =>
      Js.three_digits code = true /\
      RoomManager.roomExists code rooms = false /\
      exists j, j < 1000 /\ code = codeOf (random j) /\
        forall k, k < j -> RoomManager.roomExists (codeOf (random k)) rooms = true
  | inl e =>
      e = "Failed to generate unique room code" /\
      forall k, k < 1000 ->
        RoomManager.roomExists (codeOf (random k)) rooms = true
  end.
Proof.
  unfold generateRoomCode, maxAttempts.
  pose proof (generateFrom_spec random rooms 1000 0) as H.
  destruct (generateFrom random 0 1000 rooms) as [e | code].
  - destruct H as [-> H]. split; [reflexivity|]. intros k Hk. apply H. lia.
  - destruct H as [j [Hj [-> [Hf Hb]]]].
    split; [apply codeOf_three_digits|]. split; [exact Hf|].
    exists j. repeat split; [lia|]. intros k Hk. apply Hb. lia.
Qed.

(** X9.  A room that [createRoom] returns is stored under a code that named
    no room before and that a join request can name: three digits,
    which trimming leaves as they are.  The room starts without a
    player and without a connection, its host is the one asked for,
    and the other rooms are as they were. *)
Theorem createRoom_stores_a_room_that_can_be_joined
    now random host rooms room rooms' :
  createRoom now random host rooms = inr (room, rooms') ->
  RoomManager.getRoom (Room.code room) rooms = None /\
  RoomManager.getRoom (Room.code room) rooms' = Some room /\
  Js.three_digits (Js.trim (Room.code room)) = true /\
  Room.players room = [] /\ Room.clients room = [] /\
  Room.hostId room = nonempty host /\
  (forall code, code <> Room.code room ->
     RoomManager.getRoom code rooms' = RoomManager.getRoom code rooms).
Proof.
  unfold createRoom, generateRoomCode.
  pose proof (generateFrom_spec random rooms maxAttempts 0) as H.
  destruct (generateFrom random 0 maxAttempts rooms) as [e | code];
    [discriminate|].
  intros E. injection E as <- <-. simpl.
  destruct H as [j [_ [-> [Hf _]]]].
  unfold RoomManager.getRoom.
  repeat split.
  - now apply map_has_false_get.
  - apply map_get_set_same.
  - destruct (codeOf_three_digits (random j)) as [H3 Ht]. now rewrite Ht.
  - intros code Hne. now apply map_get_set_other.
Qed.

End RoomCodeFacts.

Lemma createRoom_witness :
  let room :=
    {| Room.code := "105"; Room.players := []; Room.clients := [];
       Room.hostId := Some "ann"; Room.createdAt := 7 |} in
  RoomManager.getRoom "105" [] = None /\
  RoomManager.getRoom "105" [("105", room)] = Some room /\
  Js.three_digits (Js.trim "105") = true /\
  Room.players room = [] /\ Room.clients room = [] /\
  Room.hostId room = nonempty (Some "ann") /\
  (forall code, code <> "105" ->
     RoomManager.getRoom code [("105", room)] = RoomManager.getRoom code []).
Proof.
  apply (createRoom_stores_a_room_that_can_be_joined
           7%Z (fun _ => 5) (Some "ann") []
           {| Room.code := "105"; Room.players := []; Room.clients := [];
              Room.hostId := Some "ann"; Room.createdAt := 7 |}
           [("105",
             {| Room.code := "105"; Room.players := []; Room.clients := [];
                Room.hostId := Some "ann"; Room.createdAt := 7 |})]).
  reflexivity.
Defined.

(* ===================================================================== *)
(** ** What the registry keeps *)
(* ===================================================================== *)

Section KeepsFacts.
Import Keeps.
Variables S O : Type.
Variable R : S -> S -> Prop.
Hypothesis R_refl : forall s, R s s.
Hypothesis R_trans : forall s1 s2 s3, R s1 s2 -> R s2 s3 -> R s1 s3.

Lemma keeps_ret A (a : A) : keeps R (ret a : M S O A).
Proof. intros s. apply R_refl. Qed.

Lemma keeps_throw A e : keeps R (throw e : M S O A).
Proof. intros s. apply R_refl. Qed.

Lemma keeps_get : keeps R (get : M S O S).
Proof. intros s. apply R_refl. Qed.

Lemma keeps_emit o : keeps R (emit o : M S O unit).
Proof. intros s. apply R_refl. Qed.

Lemma keeps_modify f : (forall s, R s (f s)) -> keeps R (modify f : M S O unit).
Proof. intros H s. apply H. Qed.

Lemma keeps_bind A B (m : M S O A) (k : A -> M S O B) :
  keeps R m -> (forall a, keeps R (k a)) -> keeps R (bind m k).
Proof.
  intros Hm Hk s. specialize (Hm s). unfold bind, state_of in *.
  destruct (m s) as [[s1 o1] [e|a]]; simpl in *; [exact Hm|].
  specialize (Hk a s1). unfold state_of in Hk.
  destruct (k a s1) as [[s2 o2] r]. simpl in *. eapply R_trans; eauto.
Qed.

End KeepsFacts.

Section ShrunkFacts.
Import PlayerManager Keeps.

Lemma filter_filter (A : Type) (f g : A -> bool) l :
  filter g (filter f l) = filter (fun x => f x && g x) l.
Proof.
  induction l as [|x l IH]; simpl; [reflexivity|].
  destruct (f x); simpl; [destruct (g x)|]; now rewrite IH.
Qed.

Lemma filter_all (A : Type) (l : list A) : l = filter (fun _ => true) l.
Proof. induction l as [|x l IH]; simpl; congruence. Qed.

Lemma shrunk_refl s : shrunk s s.
Proof.
  repeat split; exists (fun _ => true); apply filter_all.
Qed.

Lemma shrunk_trans s1 s2 s3 : shrunk s1 s2 -> shrunk s2 s3 -> shrunk s1 s3.
Proof.
  intros (Hs & [f1 Hc] & [g1 Hp] & [h1 Ho]) (Hs' & [f2 Hc'] & [g2 Hp'] & [h2 Ho']).
  split; [congruence|].
  split; [|split]; eexists.
  - rewrite Hc', Hc. apply filter_filter.
  - rewrite Hp', Hp. apply filter_filter.
  - rewrite Ho', Ho. apply filter_filter.
Qed.

Lemma framed_shrunk s s' : Registry.framed s s' -> shrunk s s'.
Proof.
  intros (Hc & Hp & Hs & Ho & _). split; [exact Hs|].
  split; [|split]; exists (fun _ => true).
  - rewrite Hc. apply filter_all.
  - rewrite Hp. apply filter_all.
  - rewrite Ho. apply filter_all.
Qed.

Lemma quiet_keeps_shrunk A (m : P A) : Registry.quiet m -> keeps shrunk m.
Proof. intros H s. apply framed_shrunk. apply (H s). Qed.

Lemma keeps_shrunk_forEach A (f : A -> P unit) l :
  (forall x, keeps shrunk (f x)) -> keeps shrunk (forEach f l).
Proof.
  intros Hf. induction l as [|x l IH]; simpl.
  - apply keeps_ret. exact shrunk_refl.
  - apply keeps_bind; auto. exact shrunk_trans.
Qed.

Lemma shrunk_same s s' :
  store s' = store s -> clients s' = clients s -> players s' = players s ->
  openSockets s' = openSockets s -> shrunk s s'.
Proof.
  intros Hs Hc Hp Ho. split; [exact Hs|].
  split; [|split]; exists (fun _ => true).
  - rewrite Hc. apply filter_all.
  - rewrite Hp. apply filter_all.
  - rewrite Ho. apply filter_all.
Qed.

Lemma shrunk_players s f :
  shrunk s (with_players (filter f) s).
Proof.
  split; [reflexivity|]. split; [|split]; simpl.
  - exists (fun _ => true). apply filter_all.
  - now exists f.
  - exists (fun _ => true). apply filter_all.
Qed.

Lemma shrunk_clients s f :
  shrunk s (with_clients (filter f) s).
Proof.
  split; [reflexivity|]. split; [|split]; simpl.
  - now exists f.
  - exists (fun _ => true). apply filter_all.
  - exists (fun _ => true). apply filter_all.
Qed.

Lemma shrunk_openSockets s f :
  shrunk s (with_openSockets (filter f) s).
Proof.
  split; [reflexivity|]. split; [|split]; simpl.
  - exists (fun _ => true). apply filter_all.
  - exists (fun _ => true). apply filter_all.
  - now exists f.
Qed.

Ltac keeps_step :=
  first
    [ apply keeps_bind; [exact shrunk_trans | | intros ?]
    | apply keeps_get; exact shrunk_refl
    | apply keeps_ret; exact shrunk_refl
    | apply keeps_throw; exact shrunk_refl
    | apply keeps_emit; exact shrunk_refl ].

Lemma keeps_shrunk_removePlayer_start_with (rc : string -> P unit) p :
  (forall c, keeps shrunk (rc c)) ->
  keeps shrunk (removePlayer_start_with rc p).
Proof.
  intros Hrc. unfold removePlayer_start_with.
  keeps_step; [keeps_step|].
  destruct (lookupPlayer p a) as [[a0 player]|]; [|keeps_step].
  keeps_step.
  - destruct (Player.clientId player) as [c|]; [|keeps_step].
    destruct (Js.map_has c (clients a)); [apply Hrc | keeps_step].
  - keeps_step.
    + apply keeps_modify. intros s0. apply shrunk_players.
    + apply keeps_modify. intros s0. now apply shrunk_same.
Qed.

Lemma keeps_shrunk_removeClient_fuel fuel : forall c,
  keeps shrunk (removeClient_fuel fuel c).
Proof.
  induction fuel as [|fuel IH]; intros c; simpl; [keeps_step|].
  keeps_step; [keeps_step|].
  destruct (Js.map_get c (clients a)) as [client|]; [|keeps_step].
  keeps_step; [apply keeps_modify; intros s0; apply shrunk_openSockets|].
  keeps_step; [apply keeps_modify; intros s0; apply shrunk_clients|].
  keeps_step.
  - destruct (nonempty (Client.playerId client)) as [p|]; [|keeps_step].
    keeps_step; [keeps_step|].
    destruct (findClientByPlayerId p a2); [keeps_step|].
    now apply keeps_shrunk_removePlayer_start_with.
  - destruct (Client.playerData client) as [d|]; [|keeps_step].
    destruct (nonempty (ClientData.roomCode d)); [|keeps_step].
    apply keeps_modify. intros s0. now apply shrunk_same.
Qed.

Lemma keeps_shrunk_removeClient c : keeps shrunk (removeClient c).
Proof. intros s. unfold removeClient. apply keeps_shrunk_removeClient_fuel. Qed.

Lemma keeps_shrunk_await now : keeps shrunk (await now).
Proof.
  intros s. pose proof (await_spec now s) as (_ & _ & Hp & Hs & Hc).
  split; [exact Hs|]. split; [|split].
  - exists (fun _ => true). rewrite Hc. apply filter_all.
  - exists (fun _ => true). rewrite Hp. apply filter_all.
  - exists (fun _ => true). rewrite await_eq.
    pose proof (quiet_forEach _ (removePlayer_rest now) (microtasks s)
                  (quiet_removePlayer_rest now)
                  (with_microtasks (fun _ => []) s)) as [(_ & _ & _ & Ho & _) _].
    rewrite Ho. apply filter_all.
Qed.

(** What is gone stays gone. *)
Lemma get_filter_None (V : Type) k f (m : Js.jsmap V) :
  Js.map_get k m = None -> Js.map_get k (filter f m) = None.
Proof.
  unfold Js.map_get. induction m as [|[k0 v0] m IH]; simpl; [reflexivity|].
  destruct (k0 =? k) eqn:E; [discriminate|]. intros H.
  destruct (f (k0, v0)); simpl; [rewrite E|]; auto.
Qed.

Lemma set_has_filter_false x f s :
  Js.set_has x s = false -> Js.set_has x (filter f s) = false.
Proof.
  unfold Js.set_has. induction s as [|y s IH]; simpl; [reflexivity|].
  intros H. apply orb_false_iff in H as [H1 H2].
  destruct (f y); simpl; [rewrite H1|]; auto.
Qed.

Lemma find_filter_None (A : Type) (p f : A -> bool) l :
  find p l = None -> find p (filter f l) = None.
Proof.
  induction l as [|x l IH]; simpl; [reflexivity|].
  destruct (p x) eqn:E; [discriminate|]. intros H.
  destruct (f x); simpl; [rewrite E|]; auto.
Qed.

Lemma shrunk_client_absent s s' c :
  shrunk s s' -> getClientById c s = None -> getClientById c s' = None.
Proof.
  intros (_ & [f Hc] & _) H. unfold getClientById in *. rewrite Hc.
  now apply get_filter_None.
Qed.

Lemma shrunk_closed s s' c :
  shrunk s s' -> isOpen c s = false -> isOpen c s' = false.
Proof.
  intros (_ & _ & _ & [f Ho]) H. unfold isOpen in *. rewrite Ho.
  now apply set_has_filter_false.
Qed.

Lemma shrunk_player_absent s s' p :
  shrunk s s' -> Js.map_get p (players s) = None ->
  Js.map_get p (players s') = None.
Proof.
  intros (_ & _ & [f Hp] & _) H. rewrite Hp. now apply get_filter_None.
Qed.

Lemma shrunk_no_client_of s s' p :
  shrunk s s' -> findClientByPlayerId p s = None ->
  findClientByPlayerId p s' = None.
Proof.
  intros (_ & [f Hc] & _) H. unfold findClientByPlayerId in *. rewrite Hc.
  now apply find_filter_None.
Qed.

Lemma shrunk_In_clients s s' e :
  shrunk s s' -> In e (clients s') -> In e (clients s).
Proof.
  intros (_ & [f Hc] & _) H. rewrite Hc in H. now apply filter_In in H.
Qed.

End ShrunkFacts.

(* ===================================================================== *)
(** ** Connections that go away *)
(* ===================================================================== *)

Section Steps.
Variables S O : Type.

Lemma bind_get_eq B (k : S -> M S O B) s : bind get k s = k s s.
Proof. unfold bind, get. now destruct (k s s) as [[s2 o2] r]. Qed.

Lemma bind_modify_eq B f (k : unit -> M S O B) s : bind (modify f) k s = k tt (f s).
Proof. unfold bind, modify. now destruct (k tt (f s)) as [[s2 o2] r]. Qed.

Lemma bind_ret_eq A B (a : A) (k : A -> M S O B) s : bind (ret a) k s = k a s.
Proof. unfold bind, ret. now destruct (k a s) as [[s2 o2] r]. Qed.

Lemma bind_returned A B (m : M S O A) (k : A -> M S O B) s s1 o1 a :
  m s = (s1, o1, inr a) ->
  state_of (bind m k s) = state_of (k a s1) /\
  result_of (bind m k s) = result_of (k a s1) /\
  sent_of (bind m k s) = o1 ++ sent_of (k a s1).
Proof.
  intros E. unfold bind. rewrite E. now destruct (k a s1) as [[s2 o2] r].
Qed.

Lemma bind_returned_eq A B (m : M S O A) (k : A -> M S O B) s s1 o1 a :
  m s = (s1, o1, inr a) ->
  bind m k s
  = (state_of (k a s1), o1 ++ sent_of (k a s1), result_of (k a s1)).
Proof.
  intros E. unfold bind. rewrite E. now destruct (k a s1) as [[s2 o2] r].
Qed.

Lemma bind_result_inr A B (m : M S O A) (k : A -> M S O B) s b :
  result_of (bind m k s) = inr b ->
  exists s1 o1 a, m s = (s1, o1, inr a) /\ result_of (k a s1) = inr b.
Proof.
  unfold bind, result_of. destruct (m s) as [[s1 o1] [e|a]]; simpl.
  - discriminate.
  - intros H. exists s1, o1, a. split; [reflexivity|].
    now destruct (k a s1) as [[s2 o2] r].
Qed.

Lemma bind_assoc A B C (m : M S O A) (k : A -> M S O B) (h : B -> M S O C) s :
  bind (bind m k) h s = bind m (fun a => bind (k a) h) s.
Proof.
  unfold bind. destruct (m s) as [[s1 o1] [e|a]]; [reflexivity|].
  destruct (k a s1) as [[s2 o2] [e|b]]; [reflexivity|].
  destruct (h b s2) as [[s3 o3] r]. now rewrite app_assoc.
Qed.

Lemma bind_ext A B (m : M S O A) (k k' : A -> M S O B) s :
  (forall a s1, k a s1 = k' a s1) -> bind m k s = bind m k' s.
Proof.
  intros H. unfold bind. destruct (m s) as [[s1 o1] [e|a]]; [reflexivity|].
  now rewrite H.
Qed.

End Steps.

Section RemovalFacts.
Import PlayerManager Keeps.

Lemma set_has_delete c l : Js.set_has c (Js.set_delete c l) = false.
Proof.
  unfold Js.set_has, Js.set_delete. induction l as [|y l IH]; simpl; [reflexivity|].
  destruct (String.eqb_spec y c) as [-> | Hne]; simpl; [exact IH|].
  rewrite IH. destruct (String.eqb_spec c y); [congruence | reflexivity].
Qed.

(** [removeClient] on a connection that is registered: the connection
    and its socket are gone, and the player with them unless another
    connection is theirs. *)
Lemma removeClient_spec c s client :
  getClientById c s = Some client ->
  let r := removeClient c s in
  let s' := state_of r in
  result_of r = inr tt /\
  shrunk s s' /\
  getClientById c s' = None /\ isOpen c s' = false /\
  (forall p, nonempty (Client.playerId client) = Some p ->
     match findClientByPlayerId p (with_clients (Js.map_delete c) s) with
     | Some _ => lookupPlayer p s' = lookupPlayer p s
     | None => lookupPlayer p s' = None
     end) /\
  (nonempty (Client.playerId client) = None -> players s' = players s).
Proof.
  intros Hc. cbv zeta.
  split.
  { destruct (removeClient_fuel_enough (Datatypes.S (length (clients s))) c s)
      as (s' & o & E); [lia|].
    unfold removeClient. now rewrite E. }
  split; [apply keeps_shrunk_removeClient|].
  unfold removeClient. simpl removeClient_fuel.
  rewrite bind_get_eq. unfold getClientById in Hc. rewrite Hc.
  rewrite !bind_modify_eq.
  set (s1 := with_clients (Js.map_delete c) (with_openSockets (Js.set_delete c) s)).
  set (fuel := length (clients s)).
  assert (Habs : getClientById c s1 = None) by apply map_get_delete.
  assert (Hclosed : isOpen c s1 = false) by apply set_has_delete.
  match goal with
  | |- context [bind ?m ?k s1] => set (playerStep := m); set (roomStep := k)
  end.
  assert (Hroom : forall u s0,
             exists f, roomStep u s0 = (with_roomManager f s0, [], inr tt)).
  { intros u s0. unfold roomStep.
    destruct (Client.playerData client) as [d|];
      [|exists (fun x => x); now destruct s0].
    destruct (nonempty (ClientData.roomCode d));
      [eexists; reflexivity | exists (fun x => x); now destruct s0]. }
  assert (Hk : keeps shrunk (bind playerStep roomStep)).
  { apply keeps_bind; [exact shrunk_trans | |].
    - unfold playerStep.
      destruct (nonempty (Client.playerId client)) as [p|];
        [|apply keeps_ret; exact shrunk_refl].
      apply keeps_bind; [exact shrunk_trans | apply keeps_get; exact shrunk_refl|].
      intros s0. destruct (findClientByPlayerId p s0);
        [apply keeps_ret; exact shrunk_refl|].
      apply keeps_shrunk_removePlayer_start_with.
      intros c'. apply keeps_shrunk_removeClient_fuel.
    - intros u s0. destruct (Hroom u s0) as [f E]. rewrite E.
      now apply shrunk_same. }
  specialize (Hk s1).
  split; [exact (shrunk_client_absent _ _ _ Hk Habs)|].
  split; [exact (shrunk_closed _ _ _ Hk Hclosed)|].
  split.
  - intros p Hp.
    change (findClientByPlayerId p (with_clients (Js.map_delete c) s))
      with (findClientByPlayerId p s1).
    assert (Hstep :
              match findClientByPlayerId p s1 with
              | Some _ => playerStep s1 = (s1, [], inr tt)
              | None => exists s2 o2, playerStep s1 = (s2, o2, inr tt) /\
                                      lookupPlayer p s2 = None
              end).
    { unfold playerStep. rewrite Hp. rewrite bind_get_eq.
      destruct (findClientByPlayerId p s1) as [e|] eqn:Ef; [reflexivity|].
      destruct (removePlayer_start_with_spec (removeClient_fuel fuel) p s1)
        as (s2 & o2 & E & Hgone); [|eauto].
      intros c'. apply removeClient_fuel_enough. unfold fuel. simpl.
      pose proof (map_delete_length _ c (clients s) _ Hc). lia. }
    destruct (findClientByPlayerId p s1) as [e|].
    + destruct (bind_returned _ _ _ _ _ roomStep _ _ _ _ Hstep) as (-> & _ & _).
      destruct (Hroom tt s1) as [f E]. rewrite E. reflexivity.
    + destruct Hstep as (s2 & o2 & E & Hgone).
      destruct (bind_returned _ _ _ _ _ roomStep _ _ _ _ E) as (-> & _ & _).
      destruct (Hroom tt s2) as [f E2]. rewrite E2. exact Hgone.
  - intros Hp.
    assert (Hstep : playerStep s1 = (s1, [], inr tt))
      by (unfold playerStep; now rewrite Hp).
    destruct (bind_returned _ _ _ _ _ roomStep _ _ _ _ Hstep) as (-> & _ & _).
    destruct (Hroom tt s1) as [f E]. rewrite E. reflexivity.
Qed.

(** X10.  [removeClient] on a registered connection returns; afterwards the
    connection is not registered and its socket is not open.  The
    player of the connection is no longer registered either, unless
    another connection is theirs, and then the player is as before. *)
Theorem removeClient_takes_the_last_connection_s_player c s client p :
  getClientById c s = Some client ->
  nonempty (Client.playerId client) = Some p ->
  let r := removeClient c s in
  let s' := state_of r in
  result_of r = inr tt /\
  getClientById c s' = None /\ isOpen c s' = false /\
  store s' = store s /\
  match findClientByPlayerId p (with_clients (Js.map_delete c) s) with
  | Some _ => lookupPlayer p s' = lookupPlayer p s
  | None => lookupPlayer p s' = None
  end.
Proof.
  intros Hc Hp.
  destruct (removeClient_spec c s client Hc) as (Hr & Hs & Ha & Ho & Hl & _).
  cbv zeta. repeat split; auto.
  - apply Hs.
  - apply (Hl p Hp).
Qed.

End RemovalFacts.

Section Disconnect.
Import PlayerManager MessageProtocol Keeps.

(** X11.  When a connection closes, the registry forgets it, and its player
    if no other connection is theirs; the coordinator is not told: its
    state, the list of players of the round included, is what it was
    before. *)
Theorem handleDisconnect_leaves_the_coordinator_as_it_was env c s client p :
  getClientById c (playerManager s) = Some client ->
  nonempty (Client.playerId client) = Some p ->
  findClientByPlayerId p (with_clients (Js.map_delete c) (playerManager s)) = None ->
  let s' := state_of (GameServer.handleDisconnect env c s) in
  getClientById c (playerManager s') = None /\
  lookupPlayer p (playerManager s') = None /\
  gameManager s' = gameManager s.
Proof.
  intros Hc Hp Hf. cbv zeta.
  unfold GameServer.handleDisconnect, liftP.
  match goal with
  | |- context [bind ?m ?k (playerManager s)] =>
      destruct (bind m k (playerManager s)) as [[p' out] r] eqn:E
  end.
  unfold state_of. simpl. split; [|split]; [| |reflexivity].
  all: rewrite bind_modify_eq in E.
  all: set (s0 := with_openSockets (Js.set_delete c) (playerManager s)) in *.
  all: assert (Hc0 : getClientById c s0 = Some client) by exact Hc.
  all: destruct (removeClient_spec c s0 client Hc0) as (Hr & Hs & Ha & Ho & Hl & _).
  all: specialize (Hl p Hp).
  all: change (findClientByPlayerId p (with_clients (Js.map_delete c) s0))
         with (findClientByPlayerId p
                 (with_clients (Js.map_delete c) (playerManager s))) in Hl.
  all: rewrite Hf in Hl.
  all: destruct (removeClient c s0) as [[s1 o1] [e|[]]] eqn:E1;
         [discriminate Hr|].
  all: destruct (bind_returned _ _ _ _ _ (fun _ => await (now env)) _ _ _ _ E1)
         as (Est & _ & _).
  all: rewrite E in Est; unfold state_of in Est; simpl in Est, Ha, Hl.
  all: pose proof (await_spec (now env) s1) as (_ & _ & Hpl & Hst & Hcl).
  all: unfold state_of in *; simpl in *; subst p'.
  - unfold getClientById in *. rewrite Hcl. exact Ha.
  - unfold lookupPlayer, deref in *. rewrite Hpl, Hst. exact Hl.
Qed.

End Disconnect.

(* ===================================================================== *)
(** ** The heartbeat *)
(* ===================================================================== *)

Section HeartbeatFacts.
Import PlayerManager Keeps Heartbeat.

Lemma sweep_removes (l : list string) : forall s,
  let r := forEach (fun clientId =>
                      bind get (fun s' =>
                        match Js.map_get clientId (clients s') with
                        | None =>
                            throw "Cannot read properties of undefined (reading 'lastHeartbeat')"
                        | Some _ => removeClient clientId
                        end)) l s in
  result_of r = inr tt ->
  shrunk s (state_of r) /\
  forall c, In c l -> getClientById c (state_of r) = None.
Proof.
  induction l as [|x l IH]; intros s; cbv zeta; simpl forEach.
  - intros _. split; [apply shrunk_refl | intros c []].
  - intros Hr. apply bind_result_inr in Hr as (s1 & o1 & [] & E & Hr).
    match goal with
    | |- context [bind ?m ?k s] =>
        destruct (bind_returned _ _ _ _ m k s s1 o1 tt E) as (-> & _ & _)
    end.
    destruct (IH s1 Hr) as [Hs Hgone].
    rewrite bind_get_eq in E.
    destruct (Js.map_get x (clients s)) as [client|] eqn:Hx; [|discriminate].
    destruct (removeClient_spec x s client Hx) as (_ & Hs1 & Ha & _).
    rewrite E in Hs1, Ha. unfold state_of in Hs1, Ha. simpl in Hs1, Ha.
    split; [eapply shrunk_trans; eauto|].
    intros c [<- | Hin]; [|now apply Hgone].
    eapply shrunk_client_absent; eauto.
Qed.

(** X12.  After a sweep of [cleanupStaleConnections] that runs to its end, no
    connection is registered whose last heartbeat is 60000 ms old or
    older: each of them was removed, the ones exactly at the timeout
    included. *)
Theorem cleanupStaleConnections_leaves_no_stale_connection now s c client :
  let r := cleanupStaleConnections now s in
  result_of r = inr tt ->
  getClientById c (state_of r) = Some client ->
  (now - Client.lastHeartbeat client < heartbeatTimeout)%Z.
Proof.
  cbv zeta. unfold cleanupStaleConnections. rewrite bind_get_eq.
  intros Hr Hc.
  destruct (sweep_removes (staleClients now s) s Hr) as [Hs Hgone].
  destruct (Z.ltb_spec (now - Client.lastHeartbeat client) heartbeatTimeout)
    as [Hlt | Hge]; [exact Hlt | exfalso].
  assert (Hin : In (c, client) (clients s)).
  { eapply shrunk_In_clients; [exact Hs|]. apply get_In. exact Hc. }
  assert (Hstale : In c (staleClients now s)).
  { unfold staleClients. apply in_map_iff. exists (c, client).
    split; [reflexivity|]. apply filter_In. split; [exact Hin|].
    simpl. now apply Z.leb_le. }
  rewrite (Hgone c Hstale) in Hc. discriminate.
Qed.

End HeartbeatFacts.

(* ===================================================================== *)
(** ** Broadcasts and ready flags *)
(* ===================================================================== *)

Section AudienceFacts.
Import PlayerManager Audience Reply.

Lemma sendOrSchedule_room m c p :
  bind get (fun s' => sendOrSchedule m (Js.map_has c (clients s')) c) p
  = if reaches p c then (p, [deliver m c], inr tt)
    else (with_removals (fun r => r ++ [c]) p, [], inr tt).
Proof.
  rewrite bind_get_eq. unfold sendOrSchedule. rewrite bind_get_eq.
  unfold reaches. now destruct (Js.map_has c (clients p) && isOpen c p).
Qed.

Lemma forEach_room m l : forall p,
  forEach (fun clientId =>
             bind get (fun s' =>
               sendOrSchedule m (Js.map_has clientId (clients s')) clientId)) l p
  = (with_removals (fun r => r ++ filter (fun c => negb (reaches p c)) l) p,
     map (deliver m) (filter (reaches p) l),
     inr tt).
Proof.
  induction l as [|c l IH]; intros p; simpl forEach.
  - simpl. now rewrite with_removals_nil.
  - unfold bind at 1. rewrite sendOrSchedule_room. simpl filter.
    destruct (reaches p c) eqn:Hr; simpl negb; cbv iota.
    + rewrite IH. reflexivity.
    + rewrite IH. simpl.
      unfold with_removals. simpl. now rewrite <- app_assoc.
Qed.

(** X13.  A broadcast to a room goes to the connections of that room that
    are registered and have an open socket, once each in the order of
    the room, and to no other connection; the other connections of the
    room are scheduled for removal, and nothing else changes.  For a
    room that does not exist nothing is sent. *)
Theorem broadcastToRoom_reaches_the_room_only roomCode m p :
  let members := RoomManager.listClients roomCode (roomManager p) in
  broadcastToRoom roomCode m p
  = (with_removals
       (fun r => r ++ filter (fun c => negb (reaches p c)) members) p,
     map (deliver m) (filter (reaches p) members),
     inr tt).
Proof.
  cbv zeta. unfold broadcastToRoom. rewrite bind_get_eq.
  unfold RoomManager.listClients, RoomManager.getRoom.
  destruct (Js.map_get roomCode (roomManager p)) as [room|].
  - apply forEach_room.
  - simpl. now rewrite with_removals_nil.
Qed.

Lemma nth_error_assign_same (A : Type) (x y : A) l : forall a,
  nth_error l a = Some y -> nth_error (assign a x l) a = Some x.
Proof.
  induction l as [|z l IH]; intros [|a]; simpl; try discriminate; auto.
Qed.

Lemma nth_error_assign_other (A : Type) (x : A) l : forall a b,
  b <> a -> nth_error (assign a x l) b = nth_error l b.
Proof.
  induction l as [|z l IH]; intros [|a] [|b] H; simpl; try reflexivity.
  - congruence.
  - apply IH. congruence.
Qed.

Lemma assign_assign (A : Type) (x y : A) l : forall a,
  assign a y (assign a x l) = assign a y l.
Proof.
  induction l as [|z l IH]; intros [|a]; simpl; try reflexivity.
  now rewrite IH.
Qed.

Lemma assign_same (A : Type) (x : A) l : forall a,
  nth_error l a = Some x -> assign a x l = l.
Proof.
  induction l as [|z l IH]; intros [|a]; simpl; try discriminate.
  - congruence.
  - intros H. now rewrite IH.
Qed.

Lemma toggled_toggled player : toggled (toggled player) = player.
Proof. destruct player. unfold toggled. simpl. now rewrite negb_involutive. Qed.

Lemma lookupPlayer_Some p s a player :
  lookupPlayer p s = Some (a, player) ->
  Js.map_get p (players s) = Some a /\ nth_error (store s) a = Some player.
Proof.
  unfold lookupPlayer, deref. destruct (Js.map_get p (players s)) as [a0|];
    [|discriminate].
  destruct (nth_error (store s) a0) eqn:E; [|discriminate].
  intros H. injection H as <- <-. auto.
Qed.

Lemma broadcastPlayerList_all now s :
  broadcastPlayerList now None s = broadcastToAll (everyPlayer now s) s.
Proof. unfold broadcastPlayerList. rewrite bind_get_eq. reflexivity. Qed.

(** The state and the result of [togglePlayerReady] on a registered
    player, up to what its [await] lets run. *)
Lemma togglePlayerReady_known now p s a player :
  lookupPlayer p s = Some (a, player) ->
  let s0 := with_store (assign a (toggled player)) s in
  let s1 := with_removals (fun r => r ++ closedClients s0) s0 in
  togglePlayerReady now p s
  = match await now s1 with
    | (s2, o2, r) =>
        (s2, toAll (everyPlayer now s0) s0 ++ o2,
         match r with inl e => inl e | inr _ => inr true end)
    end.
Proof.
  intros Hl. cbv zeta. unfold togglePlayerReady. rewrite bind_get_eq, Hl.
  rewrite bind_modify_eq. fold (toggled player).
  unfold bind at 1.
  rewrite broadcastPlayerList_all, broadcastToAll_eq.
  unfold bind.
  destruct (await now _) as [[s2 o2] [e|[]]]; simpl; try reflexivity.
  now rewrite app_nil_r.
Qed.

(** X14.  [togglePlayerReady] on a player that is not registered returns
    false and does nothing.  On a registered player it returns true,
    flips the ready flag of that player and leaves every other player
    object as it was; a second toggle puts the objects back as they
    were before the first. *)
Theorem togglePlayerReady_flips_one_flag_and_back now now' p s :
  let r := togglePlayerReady now p s in
  let s1 := state_of r in
  match lookupPlayer p s with
  | None => r = (s, [], inr false)
  | Some (a, player) =>
      result_of r = inr true /\
      lookupPlayer p s1 = Some (a, toggled player) /\
      (forall b, b <> a -> deref b s1 = deref b s) /\
      store (state_of (togglePlayerReady now' p s1)) = store s
  end.
Proof.
  cbv zeta. destruct (lookupPlayer p s) as [[a player]|] eqn:Hl.
  2:{ unfold togglePlayerReady. now rewrite bind_get_eq, Hl. }
  destruct (lookupPlayer_Some _ _ _ _ Hl) as [Hp Hs].
  assert (Hafter : forall now0 s0 a0 player0,
             lookupPlayer p s0 = Some (a0, player0) ->
             let r0 := togglePlayerReady now0 p s0 in
             result_of r0 = inr true /\
             store (state_of r0) = assign a0 (toggled player0) (store s0) /\
             players (state_of r0) = players s0).
  { intros now0 s0 a0 player0 H0. cbv zeta.
    rewrite (togglePlayerReady_known now0 p s0 a0 player0 H0).
    match goal with
    | |- context [await now0 ?x] =>
        pose proof (await_spec now0 x) as (Hr & _ & Hpl & Hst & _);
        destruct (await now0 x) as [[s2 o2] r]
    end.
    unfold result_of, state_of in *. simpl in *. subst r. auto. }
  destruct (Hafter now s a player Hl) as (Hr & Hst & Hpl).
  assert (Hl1 : lookupPlayer p (state_of (togglePlayerReady now p s))
                = Some (a, toggled player)).
  { unfold lookupPlayer, deref. rewrite Hpl, Hp, Hst.
    now rewrite (nth_error_assign_same _ _ _ _ _ Hs). }
  split; [exact Hr|]. split; [exact Hl1|]. split.
  - intros b Hb. unfold deref. rewrite Hst. now apply nth_error_assign_other.
  - destruct (Hafter now' _ a (toggled player) Hl1) as (_ & Hst2 & _).
    rewrite Hst2, Hst, assign_assign, toggled_toggled.
    now apply assign_same.
Qed.

(** X15.  A change of a ready flag is announced to every open connection,
    whatever its room, with the list of all the registered players,
    whatever theirs: the [player_list_update] that
    [togglePlayerReady] sends carries no room. *)
Theorem togglePlayerReady_tells_every_room now p s a player :
  lookupPlayer p s = Some (a, player) ->
  microtasks s = [] ->
  let r := togglePlayerReady now p s in
  sent_of r
  = map (deliver (everyPlayer now (state_of r))) (openClients (state_of r)).
Proof.
  intros Hl Hq. cbv zeta.
  rewrite (togglePlayerReady_known now p s a player Hl).
  rewrite await_idle by exact Hq.
  unfold sent_of, state_of. simpl. rewrite app_nil_r. reflexivity.
Qed.

End AudienceFacts.

(* ===================================================================== *)
(** ** Players that join *)
(* ===================================================================== *)

Section JoinFacts.
Import PlayerManager Keeps Registry.

Lemma playerId_nonempty (env : Env) pid :
  let p := match nonempty pid with
           | Some p => p
           | None => ("p_" ++ randomId env)%string
           end in
  nonempty (Some p) = Some p.
Proof.
  cbv zeta. destruct pid as [x|]; simpl; [|reflexivity].
  destruct (x =? "") eqn:E; simpl; [reflexivity | now rewrite E].
Qed.

Lemma forEach_app (A : Type) (f : A -> P unit) l1 l2 s :
  forEach f (l1 ++ l2) s = bind (forEach f l1) (fun _ => forEach f l2) s.
Proof.
  revert s. induction l1 as [|x l1 IH]; intros s; simpl.
  - now rewrite bind_ret_eq.
  - rewrite bind_assoc. apply bind_ext. intros _ s1. apply IH.
Qed.

(** The replaced connection is removed first: what [addPlayer] does
    before it registers the new one. *)
Lemma replace_existing p s :
  let pre := match findClientByPlayerId p s with
             | Some (existing, _) => removeClient existing
             | None => ret tt
             end in
  exists sA oA, pre s = (sA, oA, inr tt) /\ shrunk s sA.
Proof.
  cbv zeta. destruct (findClientByPlayerId p s) as [[e client]|].
  - pose proof (keeps_shrunk_removeClient e s) as Hs.
    destruct (removeClient_fuel_enough (Datatypes.S (length (clients s))) e s)
      as (sA & oA & E); [lia|].
    unfold removeClient in *. rewrite E in *. now exists sA, oA.
  - exists s, []. split; [reflexivity | apply shrunk_refl].
Qed.

(** The stages of [addPlayer]. *)
Lemma addPlayer_stages env c pid name email room s n sA oA :
  nonempty name = Some n ->
  let p := match nonempty pid with
           | Some p => p
           | None => ("p_" ++ randomId env)%string
           end in
  let player :=
    {| Player.id := p; Player.name := n; Player.email := nonempty email;
       Player.roomCode := nonempty room; Player.joinedAt := now env;
       Player.isActive := true; Player.ready := false;
       Player.clientId := Some c |} in
  let client :=
    {| Client.playerId := Some p;
       Client.playerData :=
         Some {| ClientData.id := p; ClientData.name := n;
                 ClientData.email := nonempty email;
                 ClientData.roomCode := nonempty room;
                 ClientData.joinedAt := now env;
                 ClientData.isActive := true |};
       Client.lastHeartbeat := now env; Client.connectedAt := now env |} in
  match findClientByPlayerId p s with
  | Some (existing, _) => removeClient existing
  | None => ret tt
  end s = (sA, oA, inr tt) ->
  let s3 :=
    with_players (Js.map_set p (length (store sA)))
      (with_store (fun st => st ++ [player])
         (with_clients (Js.map_set c client) sA)) in
  let s4 :=
    match nonempty room with
    | Some r =>
        with_roomManager (fun rm =>
          RoomManager.addPlayerToRoom (now env) r p true
            (RoomManager.addClientToRoom (now env) r c rm)) s3
    | None => s3
    end in
  let s5 := state_of (await (now env) s4) in
  let s6 := state_of (broadcastPlayerList (now env) (nonempty room) s5) in
  state_of (addPlayer env c pid name email room s) = s6 /\
  result_of (addPlayer env c pid name email room s)
  = inr (option_map snd (lookupPlayer p s6)).
Proof.
  intros Hn p player client E s3 s4 s5 s6.
  pose proof (await_spec (now env) s4) as (Haw & _).
  assert (E5 : exists o5, await (now env) s4 = (s5, o5, inr tt)).
  { unfold s5. destruct (await (now env) s4) as [[x o5] [e|[]]];
      [discriminate | now exists o5]. }
  destruct E5 as [o5 E5]. clearbody s5.
  destruct (quiet_broadcastPlayerList (now env) (nonempty room) s5) as [_ [[] Hb]].
  assert (E6 : exists o6,
             broadcastPlayerList (now env) (nonempty room) s5 = (s6, o6, inr tt)).
  { unfold s6. destruct (broadcastPlayerList (now env) (nonempty room) s5)
      as [[x o6] [e|[]]]; [discriminate | now exists o6]. }
  destruct E6 as [o6 E6]. clearbody s6.
  unfold addPlayer.
  rewrite (playerId_nonempty env pid), Hn. fold p.
  rewrite bind_get_eq.
  match goal with
  | |- context [bind ?m ?k s] =>
      destruct (bind_returned _ _ _ _ m k s sA oA tt E) as (-> & -> & _)
  end.
  rewrite bind_modify_eq, bind_get_eq, !bind_modify_eq.
  match goal with
  | |- context [bind ?m ?k ?x] =>
      assert (ER : m x = (s4, [], inr tt))
        by (unfold s4, s3; destruct (nonempty room); reflexivity);
      destruct (bind_returned _ _ _ _ m k x s4 [] tt ER) as (-> & -> & _)
  end.
  match goal with
  | |- context [bind ?m ?k s4] =>
      destruct (bind_returned _ _ _ _ m k s4 s5 o5 tt E5) as (-> & -> & _)
  end.
  match goal with
  | |- context [bind ?m ?k s5] =>
      destruct (bind_returned _ _ _ _ m k s5 s6 o6 tt E6) as (-> & -> & _)
  end.
  rewrite bind_get_eq. unfold state_of, result_of. simpl. auto.
Qed.

Lemma addPlayer_spec env c pid name email room s :
  let p := match nonempty pid with
           | Some p => p
           | None => ("p_" ++ randomId env)%string
           end in
  let r := addPlayer env c pid name email room s in
  match nonempty name with
  | None =>
      r = (s, [], inl "Missing required player data (playerId, playerName)")
  | Some n =>
      let player :=
        {| Player.id := p; Player.name := n; Player.email := nonempty email;
           Player.roomCode := nonempty room; Player.joinedAt := now env;
           Player.isActive := true; Player.ready := false;
           Player.clientId := Some c |} in
      result_of r = inr (Some player) /\
      store (state_of r) = store s ++ [player] /\
      lookupPlayer p (state_of r) = Some (length (store s), player) /\
      exists client,
        getClientById c (state_of r) = Some client /\
        Client.playerId client = Some p /\
        Client.lastHeartbeat client = now env
  end.
Proof.
  cbv zeta. destruct (nonempty name) as [n|] eqn:Hn.
  2:{ unfold addPlayer. rewrite Hn.
      now destruct (nonempty (Some _)). }
  set (p := match nonempty pid with
            | Some p => p
            | None => ("p_" ++ randomId env)%string
            end) in *.
  destruct (replace_existing p s) as (sA & oA & E & Hsh). cbv zeta in E.
  pose proof (addPlayer_stages env c pid name email room s n sA oA Hn E) as H.
  cbv zeta in H. fold p in H. destruct H as [Hst Hres].
  set (player :=
         {| Player.id := p; Player.name := n; Player.email := nonempty email;
            Player.roomCode := nonempty room; Player.joinedAt := now env;
            Player.isActive := true; Player.ready := false;
            Player.clientId := Some c |}) in *.
  match type of Hst with
  | _ = state_of (broadcastPlayerList _ _ (state_of (await _ ?x))) =>
      set (s4 := x) in *
  end.
  pose proof (await_spec (now env) s4) as (_ & _ & Hp5 & Hs5 & Hc5).
  set (s5 := state_of (await (now env) s4)) in *.
  destruct (quiet_broadcastPlayerList (now env) (nonempty room) s5)
    as [(Hc6 & Hp6 & Hs6 & _) _].
  set (s6 := state_of (broadcastPlayerList (now env) (nonempty room) s5)) in *.
  assert (HsA : store sA = store s) by apply Hsh.
  assert (Hstore : store s6 = store s ++ [player]).
  { rewrite Hs6, Hs5. unfold s4. rewrite <- HsA.
    destruct (nonempty room); reflexivity. }
  assert (Hplayers : Js.map_get p (players s6) = Some (length (store s))).
  { rewrite Hp6, Hp5. unfold s4. rewrite <- HsA.
    destruct (nonempty room); simpl; apply map_get_set_same. }
  assert (Hlook : lookupPlayer p s6 = Some (length (store s), player)).
  { unfold lookupPlayer, deref. rewrite Hplayers, Hstore.
    rewrite nth_error_app2 by lia. now rewrite Nat.sub_diag. }
  rewrite Hst, Hres, Hlook. simpl.
  split; [reflexivity|]. split; [exact Hstore|]. split; [reflexivity|].
  exists {| Client.playerId := Some p;
            Client.playerData :=
              Some {| ClientData.id := p; ClientData.name := n;
                      ClientData.email := nonempty email;
                      ClientData.roomCode := nonempty room;
                      ClientData.joinedAt := now env;
                      ClientData.isActive := true |};
            Client.lastHeartbeat := now env; Client.connectedAt := now env |}.
  split; [|split].
  - unfold getClientById. rewrite Hc6, Hc5. unfold s4.
    destruct (nonempty room); simpl; apply map_get_set_same.
  - reflexivity.
  - reflexivity.
Qed.

(** X16.  [addPlayer] without a player name throws and does nothing.  With
    one it returns a new player object, not ready, active and bound to
    the connection, which it appends to the objects there are (none of
    them is changed or reused, also when the player was registered
    before) and registers under the player id; the connection is
    registered with that player and a heartbeat of now. *)
Theorem addPlayer_registers_a_new_player_object env c pid name email room s :
  let p := match nonempty pid with
           | Some p => p
           | None => ("p_" ++ randomId env)%string
           end in
  let r := addPlayer env c pid name email room s in
  match nonempty name with
  | None =>
      r = (s, [], inl "Missing required player data (playerId, playerName)")
  | Some n =>
      let player :=
        {| Player.id := p; Player.name := n; Player.email := nonempty email;
           Player.roomCode := nonempty room; Player.joinedAt := now env;
           Player.isActive := true; Player.ready := false;
           Player.clientId := Some c |} in
      result_of r = inr (Some player) /\
      store (state_of r) = store s ++ [player] /\
      lookupPlayer p (state_of r) = Some (length (store s), player) /\
      exists client,
        getClientById c (state_of r) = Some client /\
        Client.playerId client = Some p /\
        Client.lastHeartbeat client = now env
  end.
Proof. exact (addPlayer_spec env c pid name email room s). Qed.

End JoinFacts.

Section Rejoin.
Import PlayerManager Keeps Registry.

Lemma sameRooms_refl s : sameRooms s s.
Proof. reflexivity. Qed.

Lemma sameRooms_trans s1 s2 s3 : sameRooms s1 s2 -> sameRooms s2 s3 -> sameRooms s1 s3.
Proof. unfold sameRooms. congruence. Qed.

Lemma keeps_rooms_sendOrSchedule m b c : keeps sameRooms (sendOrSchedule m b c).
Proof.
  unfold sendOrSchedule.
  apply keeps_bind; [exact sameRooms_trans | apply keeps_get; exact sameRooms_refl|].
  intros s. destruct (b && isOpen c s).
  - apply keeps_emit. exact sameRooms_refl.
  - apply keeps_modify. reflexivity.
Qed.

Lemma keeps_rooms_forEach (A : Type) (f : A -> P unit) l :
  (forall x, keeps sameRooms (f x)) -> keeps sameRooms (forEach f l).
Proof.
  intros Hf. induction l as [|x l IH]; simpl.
  - apply keeps_ret. exact sameRooms_refl.
  - apply keeps_bind; auto. exact sameRooms_trans.
Qed.

Lemma keeps_rooms_broadcastPlayerList now r :
  keeps sameRooms (broadcastPlayerList now r).
Proof.
  unfold broadcastPlayerList, broadcast, broadcastToAll, broadcastToRoom.
  apply keeps_bind; [exact sameRooms_trans | apply keeps_get; exact sameRooms_refl|].
  intros s. destruct (nonempty r) as [code|].
  - apply keeps_bind;
      [exact sameRooms_trans | apply keeps_get; exact sameRooms_refl|].
    intros s0. destruct (RoomManager.getRoom _ _);
      [|apply keeps_ret; exact sameRooms_refl].
    apply keeps_rooms_forEach. intros c.
    apply keeps_bind;
      [exact sameRooms_trans | apply keeps_get; exact sameRooms_refl|].
    intros s1. apply keeps_rooms_sendOrSchedule.
  - apply keeps_bind;
      [exact sameRooms_trans | apply keeps_get; exact sameRooms_refl|].
    intros s0. apply keeps_rooms_forEach. intros c.
    apply keeps_rooms_sendOrSchedule.
Qed.

Lemma removePlayerFromRoom_gone code x rooms :
  ~ In x (RoomManager.listPlayers code
            (RoomManager.removePlayerFromRoom code x rooms)).
Proof.
  unfold RoomManager.listPlayers, RoomManager.removePlayerFromRoom.
  destruct (Js.map_get code rooms) as [room|] eqn:E.
  - destruct (RoomManager.is_empty _).
    + rewrite map_get_delete. intros [].
    + rewrite map_get_set_same. simpl. intros H.
      apply In_set_delete in H. now destruct H.
  - rewrite E. intros [].
Qed.

Lemma removePlayer_start_with_queue (rc : string -> P unit) p s a old :
  lookupPlayer p s = Some (a, old) ->
  (forall c, exists s' o, rc c s = (s', o, inr tt)) ->
  exists s' o q,
    removePlayer_start_with rc p s = (s', o, inr tt) /\
    microtasks s'
    = q ++ [{| Continuation.player := a; Continuation.playerId := p |}].
Proof.
  intros Hl Hrc. unfold removePlayer_start_with. rewrite bind_get_eq, Hl.
  assert (exists s1 o1,
    (match Player.clientId old with
     | Some c => if Js.map_has c (clients s) then rc c else ret tt
     | None => ret tt
     end) s = (s1, o1, inr tt)) as (s1 & o1 & E).
  { destruct (Player.clientId old) as [c|]; [|now exists s, []].
    destruct (Js.map_has c (clients s)); [apply Hrc | now exists s, []]. }
  cbv beta iota. rewrite (bind_returned_eq _ _ _ _ _ _ _ _ _ _ E).
  rewrite !bind_modify_eq. unfold modify, state_of, sent_of, result_of. simpl.
  eexists _, _, (microtasks s1). split; reflexivity.
Qed.

Lemma removeClient_queue e s client p a old :
  getClientById e s = Some client ->
  nonempty (Client.playerId client) = Some p ->
  findClientByPlayerId p (with_clients (Js.map_delete e) s) = None ->
  lookupPlayer p s = Some (a, old) ->
  exists sA oA q,
    removeClient e s = (sA, oA, inr tt) /\ shrunk s sA /\
    microtasks sA
    = q ++ [{| Continuation.player := a; Continuation.playerId := p |}].
Proof.
  intros Hc Hp Hf Hl.
  pose proof (keeps_shrunk_removeClient e s) as Hs.
  unfold removeClient in *. simpl removeClient_fuel in *.
  rewrite bind_get_eq in *. unfold getClientById in Hc. rewrite Hc in *.
  rewrite !bind_modify_eq in *.
  set (s1 := with_clients (Js.map_delete e) (with_openSockets (Js.set_delete e) s))
    in *.
  rewrite Hp in *. 
  destruct (removePlayer_start_with_queue
              (removeClient_fuel (length (clients s))) p s1 a old)
    as (s2 & o2 & q & E & Hq).
  { exact Hl. }
  { intros c'. apply removeClient_fuel_enough. simpl.
    pose proof (map_delete_length _ e (clients s) _ Hc). lia. }
  match type of Hs with
  | context [bind ?m ?k s1] =>
      assert (Em : m s1 = (s2, o2, inr tt))
        by (rewrite bind_get_eq;
            change (findClientByPlayerId p s1)
              with (findClientByPlayerId p (with_clients (Js.map_delete e) s));
            rewrite Hf; exact E);
      destruct (bind_returned _ _ _ _ m k s1 s2 o2 tt Em) as (Est & Eres & _);
      destruct (bind m k s1) as [[sA oA] r] eqn:EA
  end.
  unfold state_of, result_of in *. simpl in *.
  assert (Hroom : r = inr tt /\ microtasks sA = microtasks s2).
  { subst sA r. destruct (Client.playerData client) as [d|]; [|auto].
    destruct (nonempty (ClientData.roomCode d)); auto. }
  destruct Hroom as [-> Hm].
  exists sA, oA, q. split; [reflexivity|]. split; [exact Hs|]. congruence.
Qed.

(** X17.  Without a database, a player that is registered in a room joins
    the same room again from a new connection while the old one is
    still registered.  The
    old connection is replaced and the player is registered anew, with
    the room in the player object; but what the removal of the old
    registration had left to do runs after the new one is made, and
    takes the player out of the players of the room. *)
Theorem rejoining_player_is_not_among_the_players_of_the_room
    env c pid name email room s n p e client a old r :
  nonempty name = Some n ->
  nonempty pid = Some p ->
  findClientByPlayerId p s = Some (e, client) ->
  getClientById e s = Some client ->
  findClientByPlayerId p (with_clients (Js.map_delete e) s) = None ->
  lookupPlayer p s = Some (a, old) ->
  nonempty (Player.roomCode old) = Some r ->
  nonempty room = Some r ->
  let s' := state_of (addPlayer env c pid name email room s) in
  (exists a' player,
     lookupPlayer p s' = Some (a', player) /\
     Player.roomCode player = Some r /\ Player.clientId player = Some c) /\
  ~ In p (RoomManager.listPlayers r (roomManager s')).
Proof.
  intros Hn Hpid Hfind He Hother Hl Hold Hroom. cbv zeta.
  assert (Hcp : nonempty (Client.playerId client) = Some p).
  { unfold findClientByPlayerId in Hfind. apply find_some in Hfind as [_ Hfind].
    simpl in Hfind. destruct (Client.playerId client) as [x|]; [|discriminate].
    apply String.eqb_eq in Hfind. subst x.
    destruct pid as [x|]; [|discriminate]. simpl in Hpid |- *.
    destruct (x =? "") eqn:Ex; [discriminate|]. injection Hpid as ->.
    now rewrite Ex. }
  destruct (removeClient_queue e s client p a old He Hcp Hother Hl)
    as (sA & oA & q & E & Hsh & Hq).
  pose proof (addPlayer_spec env c pid name email room s) as Hspec.
  pose proof (addPlayer_stages env c pid name email room s n sA oA Hn) as Hst.
  cbv zeta in Hspec, Hst. rewrite Hn in Hspec. rewrite Hpid in Hspec, Hst.
  rewrite Hfind in Hst. specialize (Hst E). rewrite Hroom in Hspec, Hst.
  destruct Hst as [Hst _].
  destruct Hspec as (_ & _ & Hlook & _).
  split; [eexists _, _; split; [exact Hlook | split; reflexivity]|].
  rewrite Hst. clear Hlook.
  match goal with
  | |- context [await (now env) ?x] => set (s4 := x)
  end.
  assert (Hq4 : microtasks s4
                = q ++ [{| Continuation.player := a; Continuation.playerId := p |}])
    by exact Hq.
  assert (Hs4 : store s4 = store s ++
                  [{| Player.id := p; Player.name := n;
                      Player.email := nonempty email;
                      Player.roomCode := Some r; Player.joinedAt := now env;
                      Player.isActive := true; Player.ready := false;
                      Player.clientId := Some c |}]).
  { destruct Hsh as [HsA _]. unfold s4. simpl. now rewrite HsA. }
  pose proof (await_spec (now env) s4) as (_ & _ & _ & _ & Hc5).
  rewrite await_eq, Hq4, forEach_app in *.
  set (s40 := with_microtasks (fun _ => []) s4) in *.
  destruct (quiet_forEach _ (removePlayer_rest (now env)) q
              (quiet_removePlayer_rest (now env)) s40)
    as [(_ & _ & HsQ & _) [[] HrQ]].
  destruct (forEach (removePlayer_rest (now env)) q s40) as [[sQ oQ] rQ] eqn:EQ.
  unfold state_of, result_of in HsQ, HrQ. simpl in HsQ, HrQ. subst rQ.
  match goal with
  | |- context [bind ?m ?k s40] =>
      destruct (bind_returned _ _ _ _ m k s40 sQ oQ tt EQ) as (Est & _ & _)
  end.
  rewrite Est in *. clear Est. simpl forEach in *.
  assert (Hd : deref a sQ = Some old).
  { unfold deref. rewrite HsQ. destruct Hsh as [HsA _]. rewrite HsA.
    destruct (lookupPlayer_Some _ _ _ _ Hl) as [_ Hnth].
    rewrite nth_error_app1; [exact Hnth|].
    apply nth_error_Some. congruence. }
  assert (Hrest :
            roomManager
              (state_of
                 (bind (removePlayer_rest (now env)
                          {| Continuation.player := a;
                             Continuation.playerId := p |})
                       (fun _ => ret tt) sQ))
            = RoomManager.removePlayerFromRoom r p (roomManager sQ)).
  { unfold removePlayer_rest. rewrite bind_assoc, bind_get_eq. simpl.
    rewrite Hd, Hold. rewrite bind_assoc, bind_modify_eq.
    match goal with
    | |- context [bind ?m ?k ?x] =>
        pose proof (keeps_rooms_broadcastPlayerList (now env) (Some r) x) as Hk;
        destruct (quiet_broadcastPlayerList (now env) (Some r) x) as [_ [[] Hb]];
        destruct (m x) as [[sB oB] rB] eqn:EB
    end.
    unfold result_of in Hb. simpl in Hb. subst rB.
    match goal with
    | |- context [bind ?m ?k ?x] =>
        destruct (bind_returned _ _ _ _ m k x sB oB tt EB) as (-> & _ & _)
    end.
    unfold state_of in *. simpl in *. exact Hk. }
  match goal with
  | |- context [broadcastPlayerList (now env) (Some r) ?x] =>
      pose proof (keeps_rooms_broadcastPlayerList (now env) (Some r) x) as Hk
  end.
  unfold sameRooms in Hk. rewrite Hk, Hrest.
  apply removePlayerFromRoom_gone.
Qed.

End Rejoin.

(* ===================================================================== *)
(** ** The checks of the protocol *)
(* ===================================================================== *)

Section CheckFacts.
Import PlayerManager MessageProtocol Reply Checks.

(** X18.  [validatePayloadSchema] changes nothing and sends nothing, and it
    accepts a payload exactly when every field of the schema passes:
    a field that is there has the type of the schema, and the text of
    the field [message] is not longer than the maximum if there is one;
    a field that is not there is optional. *)
Theorem validatePayloadSchema_accepts_what_the_schema_allows
    payload maxLength fields s :
  let r := validatePayloadSchema payload maxLength fields s in
  state_of r = s /\ sent_of r = [] /\
  (result_of r = inr tt <-> forallb (fieldOk payload maxLength) fields = true).
Proof.
  cbv zeta.
  destruct (validatePayloadSchema_frame payload maxLength fields s) as [r0 E0].
  split; [now rewrite E0|]. split; [now rewrite E0|]. clear r0 E0.
  induction fields as [|f rest IH]; simpl; [tauto|].
  assert (Hgo : result_of
                  (bind (ret tt)
                     (fun _ => validatePayloadSchema payload maxLength rest) s)
                = result_of (validatePayloadSchema payload maxLength rest s))
    by now rewrite bind_ret_eq.
  unfold fieldOk at 1.
  destruct (Schema.isOptional f) eqn:Ho;
    destruct (Js.has_field (Schema.name f) payload) eqn:Hh; simpl.
  - destruct (hasType (Schema.fieldType f) (Js.field (Schema.name f) payload));
      simpl; [|split; discriminate].
    destruct maxLength as [n|]; [|now rewrite Hgo].
    destruct (Js.field (Schema.name f) payload) as [| |?|?|text|];
      try (now rewrite Hgo).
    destruct ((Schema.name f =? "message") && negb (n =? 0)%nat
              && (n <? String.length text)%nat); simpl;
      [split; discriminate | now rewrite Hgo].
  - now rewrite Hgo.
  - destruct (hasType (Schema.fieldType f) (Js.field (Schema.name f) payload));
      simpl; [|split; discriminate].
    destruct maxLength as [n|]; [|now rewrite Hgo].
    destruct (Js.field (Schema.name f) payload) as [| |?|?|text|];
      try (now rewrite Hgo).
    destruct ((Schema.name f =? "message") && negb (n =? 0)%nat
              && (n <? String.length text)%nat); simpl;
      [split; discriminate | now rewrite Hgo].
  - split; discriminate.
Qed.

(** X19.  A frame that does not pass the stages before its handler (it is
    not JSON, has no type or timestamp, is older or newer than five
    minutes, comes from a connection that is not registered, has a
    type that is not known or that asks for a player the connection
    does not have, or a payload that its schema refuses) changes
    nothing on the server: the error goes to the connection that sent
    the frame, if it can receive it, and to no one else. *)
Theorem rejected_frame_changes_nothing env c raw s :
  (forall message, raw = Some message -> ~ passes env c message s) ->
  exists e,
    MessageProtocol.handleMessage env c raw s
    = (s, errorTo (now env) c e s, inl e).
Proof.
  intros H. destruct raw as [message|].
  2:{ exists "Invalid JSON message format".
      unfold MessageProtocol.handleMessage. now rewrite try_catch_sendError. }
  specialize (H message eq_refl). unfold passes in H.
  rewrite handleMessage_eq.
  destruct (validateMessageStructure_frame (now env) message s) as [r1 E1].
  rewrite E1 in *. destruct r1 as [e|[]]; [exists e; reflexivity|].
  destruct (getClientById c (playerManager s)) as [client|];
    [|eexists; reflexivity].
  destruct (validateMessage_frame message client s) as [r2 E2].
  rewrite E2. destruct r2 as [e|[]]; [exists e; reflexivity|].
  exfalso. apply H. split; [reflexivity|].
  exists client. split; [reflexivity|]. now rewrite E2.
Qed.

Lemma authenticated_config t :
  In t authenticated <->
  exists cfg, messageTypes t = Some cfg /\ Schema.requiresAuth cfg = true.
Proof.
  split.
  - intros H. unfold authenticated in H. simpl in H.
    repeat (destruct H as [<- | H];
            [eexists; split; [vm_compute; reflexivity | reflexivity]|]).
    destruct H.
  - intros (cfg & Hm & Ha). unfold messageTypes in Hm.
    repeat match type of Hm with
           | (if ?t0 =? ?k then _ else _) = _ =>
               destruct (String.eqb_spec t0 k) as [-> | _];
               [first [ now (injection Hm as <-; discriminate Ha)
                      | simpl; tauto ]|]
           end.
    destruct (Js.inherited t); [|discriminate].
    injection Hm as <-. discriminate Ha.
Qed.

(** X20.  The message types that ask for a joined player are [leave],
    [toggle_ready], [start_game], [vote], [new_game], [submit_answer]
    and [force_phase_transition], and no other.  Such a message from a
    connection that has no player is refused with the authentication
    error, sent to that connection, and changes nothing. *)
Theorem connection_without_a_player_is_refused env c message s client t :
  Inbound.type message = Some t ->
  fresh (now env) message ->
  getClientById c (playerManager s) = Some client ->
  nonempty (Client.playerId client) = None ->
  (In t authenticated <->
   exists cfg, messageTypes t = Some cfg /\ Schema.requiresAuth cfg = true) /\
  (In t authenticated ->
   MessageProtocol.handleMessage env c (Some message) s
   = (s, errorTo (now env) c "Authentication required for this message type" s,
      inl "Authentication required for this message type")).
Proof.
  intros Ht Hf Hc Hp. split; [apply authenticated_config|]. intros Hin.
  assert (Hne : t <> "").
  { intros ->. simpl in Hin. intuition discriminate. }
  rewrite handleMessage_eq.
  rewrite (validateMessageStructure_fresh _ _ s _ Ht Hne Hf), Hc.
  apply authenticated_config in Hin as (cfg & Hm & Ha).
  unfold validateMessage. rewrite Ht, Hm, Ha, Hp. reflexivity.
Qed.

End CheckFacts.

(* ===================================================================== *)
(** ** The handlers *)
(* ===================================================================== *)

Section HandlerFacts.
Import GameState PlayerManager MessageProtocol Reply Checks.

Lemma liftG_outcome (A : Type) (m : M GameManager.t Broadcast A) s :
  gameManager (state_of (liftG m s)) = state_of (m (gameManager s)) /\
  result_of (liftG m s) = result_of (m (gameManager s)).
Proof.
  unfold liftG. destruct (m (gameManager s)) as [[g' bs] r].
  destruct (forEach _ bs (playerManager s)) as [[p' out] r']. auto.
Qed.

Lemma transitionPhase_returns now p d g :
  result_of (GameManager.transitionPhase now p d g) = inr tt.
Proof.
  unfold GameManager.transitionPhase.
  rewrite bind_get_eq, !bind_modify_eq, bind_get_eq. reflexivity.
Qed.

Lemma guarded_returned now c (r : MessageProtocol.t * list Delivery.t * (error + unit)) :
  result_of r = inr tt -> guarded now c r = r.
Proof. destruct r as [[s o] [e|[]]]; [discriminate | reflexivity]. Qed.

Lemma passed_route env c message s client t :
  Inbound.type message = Some t -> t <> "" ->
  fresh (now env) message ->
  getClientById c (playerManager s) = Some client ->
  validateMessage message client s = (s, [], inr tt) ->
  MessageProtocol.handleMessage env c (Some message) s
  = guarded (now env) c (routeMessage env c message client s).
Proof.
  intros Ht Hne Hf Hc Hv. rewrite handleMessage_eq.
  now rewrite (validateMessageStructure_fresh _ _ s _ Ht Hne Hf), Hc, Hv.
Qed.

(** X21.  [force_phase_transition] from a connection that has a player puts
    the coordinator in the phase that the payload names, whoever the
    player is and whatever the [adminKey] of the payload: the key is
    checked to be a string if it is there, and is not read.  A phase
    that is not one of the five is refused and nothing changes. *)
Theorem force_phase_transition_asks_for_no_key
    env c message s client p payload name :
  Inbound.type message = Some "force_phase_transition" ->
  Inbound.payload message = Some payload ->
  fresh (now env) message ->
  getClientById c (playerManager s) = Some client ->
  nonempty (Client.playerId client) = Some p ->
  Js.has_field "phase" payload = true ->
  Js.field "phase" payload = Js.VStr name ->
  (Js.has_field "adminKey" payload = true ->
   exists key, Js.field "adminKey" payload = Js.VStr key) ->
  let r := MessageProtocol.handleMessage env c (Some message) s in
  match validPhase name with
  | Some newPhase =>
      result_of r = inr tt /\
      phase (GameManager.gameState (gameManager (state_of r))) = newPhase
  | None =>
      r = (s, errorTo (now env) c ("Invalid phase: " ++ name)%string s,
           inl ("Invalid phase: " ++ name)%string)
  end.
Proof.
  intros Ht Hp Hf Hc Hid Hhas Hfield Hkey. cbv zeta.
  assert (Hv : validateMessage message client s = (s, [], inr tt)).
  { unfold validateMessage. rewrite Ht, Hp. simpl. rewrite Hid. simpl.
    unfold bind. rewrite Hhas, Hfield. simpl.
    destruct (Js.has_field "adminKey" payload) eqn:Hk; [|reflexivity].
    destruct (Hkey eq_refl) as [key ->]. reflexivity. }
  rewrite (passed_route env c message s client _ Ht) by (discriminate || assumption).
  unfold routeMessage. rewrite Ht, Hp. simpl.
  unfold handleForcePhaseTransition, stringField. rewrite Hfield.
  destruct (validPhase name) as [newPhase|]; [|reflexivity].
  destruct (liftG_outcome _ (GameManager.transitionPhase (now env) newPhase
                               PhaseData.none) s) as [Hg Hr].
  rewrite transitionPhase_returns in Hr.
  rewrite (guarded_returned _ _ _ Hr). split; [exact Hr|].
  rewrite Hg. apply transitionPhase_phase.
Qed.

Lemma playerObjects_deref s a player :
  In (a, player) (playerObjects s) -> deref a s = Some player.
Proof.
  unfold playerObjects. rewrite in_flat_map. intros (b & _ & H).
  destruct (deref b s) as [q|] eqn:E; [|destruct H].
  destruct H as [H | []]. injection H as <- <-. exact E.
Qed.

(** X22.  [handleStartGame] starts a round only from the waiting phase and
    with two registered players at least; otherwise it throws and
    nothing changes.  When it returns, the coordinator is in the
    question phase with question 1, and the imposter it was given is
    the id of a registered player that is active (a player whose id
    is the empty string would leave the imposter as it was). *)
Theorem handleStartGame_picks_a_registered_player env c s :
  let r := handleStartGame env c s in
  let g := gameManager s in
  let g' := gameManager (state_of r) in
  (phase (GameManager.gameState g) <> Waiting ->
   r = (s, [], inl "Game is already in progress")) /\
  (phase (GameManager.gameState g) = Waiting ->
   getPlayerCount (playerManager s) < 2 ->
   r = (s, [], inl "Need at least 2 players to start game")) /\
  (result_of r = inr tt ->
   phase (GameManager.gameState g) = Waiting /\
   2 <= getPlayerCount (playerManager s) /\
   phase (GameManager.gameState g') = Question /\
   questionId (GameManager.gameState g') = Some 1%Z /\
   exists a player,
     In a (getActivePlayers (playerManager s)) /\
     deref a (playerManager s) = Some player /\
     Player.isActive player = true /\
     imposter (GameManager.gameState g')
     = if Player.id player =? "" then imposter (GameManager.gameState g)
       else Some (Player.id player)).
Proof.
  cbv zeta. unfold handleStartGame. rewrite bind_get_eq.
  unfold GameManager.getGameState.
  destruct (phase (GameManager.gameState (gameManager s))) eqn:Hph; simpl;
    try (split; [reflexivity|]; split; [discriminate|]; discriminate).
  split; [congruence|].
  destruct (Nat.ltb_spec (getPlayerCount (playerManager s)) 2) as [Hlt | Hge].
  { split; [reflexivity | discriminate]. }
  split; [lia|].
  destruct (nth_error _ _) as [a|] eqn:Ha; [|discriminate].
  destruct (deref a (playerManager s)) as [player|] eqn:Hd; [|discriminate].
  intros _. split; [reflexivity|]. split; [exact Hge|].
  match goal with
  | |- context [liftG ?m s] => destruct (liftG_outcome _ m s) as [Hg _]
  end.
  rewrite Hg. rewrite transitionPhase_phase. split; [reflexivity|].
  rewrite transitionPhase_state. simpl.
  split.
  { unfold GameManager.clearPhaseTimer. simpl.
    destruct (GameManager.phaseTimer (gameManager s)); reflexivity. }
  apply nth_error_In in Ha.
  exists a, player. split; [exact Ha|]. split; [exact Hd|]. split.
  - unfold getActivePlayers in Ha. apply in_map_iff in Ha as ([a' q] & <- & Hin).
    apply filter_In in Hin as [Hin Hact]. simpl in *.
    apply playerObjects_deref in Hin. congruence.
  - unfold GameManager.clearPhaseTimer. simpl.
    destruct (GameManager.phaseTimer (gameManager s)); reflexivity.
Qed.

(** X23.  [submit_answer] is accepted in the question and the discussion
    phase only.  When it is, every open connection is told that the
    player has answered, and that is all: without a database the
    answer is kept nowhere, it is not sent on, and the coordinator is
    as before, in the same phase.  In the other phases the sender
    gets an error and nothing changes. *)
Theorem submit_answer_never_moves_the_round
    env c message s client p payload answer :
  Inbound.type message = Some "submit_answer" ->
  Inbound.payload message = Some payload ->
  fresh (now env) message ->
  getClientById c (playerManager s) = Some client ->
  nonempty (Client.playerId client) = Some p ->
  Js.has_field "answer" payload = true ->
  Js.field "answer" payload = Js.VStr answer ->
  let refused : error :=
    "Answers can only be submitted during question or discussion phase" in
  MessageProtocol.handleMessage env c (Some message) s
  = match phase (GameManager.gameState (gameManager s)) with
    | Question | Discussion =>
        (scheduled (closedClients (playerManager s)) s,
         toAll (answer_submitted p (now env)) (playerManager s), inr tt)
    | _ => (s, errorTo (now env) c refused s, inl refused)
    end.
Proof.
  intros Ht Hp Hf Hc Hid Hhas Hfield. cbv zeta.
  assert (Hv : validateMessage message client s = (s, [], inr tt)).
  { unfold validateMessage. rewrite Ht, Hp. simpl. rewrite Hid. simpl.
    unfold bind. rewrite Hhas, Hfield. reflexivity. }
  rewrite (passed_route env c message s client _ Ht) by (discriminate || assumption).
  unfold routeMessage. rewrite Ht. simpl.
  unfold handleSubmitAnswer. rewrite bind_get_eq, Hid.
  unfold GameManager.getGameState.
  destruct (phase (GameManager.gameState (gameManager s)));
    try reflexivity; now rewrite broadcastMessage_eq.
Qed.

(** X24.  [new_game] is accepted in the results phase only.  It takes the
    coordinator to the waiting phase, where nothing of the round is
    left: no imposter, no question, no vote and no results.  In every
    other phase the sender gets an error and nothing changes. *)
Theorem new_game_is_taken_from_the_results_only env c message s client p :
  Inbound.type message = Some "new_game" ->
  fresh (now env) message ->
  getClientById c (playerManager s) = Some client ->
  nonempty (Client.playerId client) = Some p ->
  let r := MessageProtocol.handleMessage env c (Some message) s in
  let gs' := GameManager.gameState (gameManager (state_of r)) in
  let refused : error := "New game can only be started from results phase" in
  match phase (GameManager.gameState (gameManager s)) with
  | ResultsPhase =>
      result_of r = inr tt /\
      phase gs' = Waiting /\ imposter gs' = None /\ questionId gs' = None /\
      votes gs' = [] /\ results gs' = None /\
      GameState.players gs'
      = GameState.players (GameManager.gameState (gameManager s))
  | _ => r = (s, errorTo (now env) c refused s, inl refused)
  end.
Proof.
  intros Ht Hf Hc Hid. cbv zeta.
  assert (Hv : validateMessage message client s = (s, [], inr tt)).
  { unfold validateMessage. rewrite Ht. simpl. rewrite Hid. simpl.
    now destruct (Inbound.payload message). }
  rewrite (passed_route env c message s client _ Ht) by (discriminate || assumption).
  unfold routeMessage. rewrite Ht. simpl.
  unfold handleNewGame. rewrite bind_get_eq.
  unfold GameManager.getGameState.
  destruct (phase (GameManager.gameState (gameManager s))) eqn:Hph;
    try reflexivity.
  destruct (liftG_outcome _ (GameManager.transitionPhase (now env) Waiting
                               PhaseData.none) s) as [Hg Hr].
  rewrite transitionPhase_returns in Hr.
  rewrite (guarded_returned _ _ _ Hr). split; [exact Hr|].
  rewrite Hg, transitionPhase_state. simpl.
  unfold GameManager.clearPhaseTimer. simpl.
  destruct (GameManager.phaseTimer (gameManager s)); simpl; auto 10.
Qed.

End HandlerFacts.

(* ===================================================================== *)
(** ** The players of the coordinator *)
(* ===================================================================== *)

Section SyncFacts.
Import PlayerManager MessageProtocol Reply.

Lemma liftP_outcome (A : Type) (m : P A) s :
  playerManager (state_of (liftP m s)) = state_of (m (playerManager s)) /\
  gameManager (state_of (liftP m s)) = gameManager s /\
  result_of (liftP m s) = result_of (m (playerManager s)).
Proof.
  unfold liftP. destruct (m (playerManager s)) as [[p' out] r]. auto.
Qed.

Lemma sendToClient_state c m s :
  state_of (MessageProtocol.sendToClient c m s) = s.
Proof.
  unfold MessageProtocol.sendToClient, liftP, PlayerManager.sendToClient.
  rewrite bind_get_eq.
  destruct (Js.map_has c (clients (playerManager s)) && isOpen c (playerManager s)).
  - unfold send. unfold bind, emit, ret, state_of. simpl. now destruct s.
  - unfold ret, state_of. simpl. now destruct s.
Qed.

Lemma synced_after (A : Type) (m : R A) (k : A -> R unit) s :
  (forall a s1, state_of (k a s1) = s1) ->
  result_of (bind m (fun a => bind syncPlayers (fun _ => k a)) s) = inr tt ->
  let s' := state_of (bind m (fun a => bind syncPlayers (fun _ => k a)) s) in
  GameState.players (GameManager.gameState (gameManager s'))
  = getActivePlayers (playerManager s').
Proof.
  intros Hk Hr. cbv zeta.
  apply bind_result_inr in Hr as (s1 & o1 & a & E & _).
  destruct (bind_returned _ _ _ _ _ (fun a => bind syncPlayers (fun _ => k a))
              _ _ _ _ E) as (-> & _ & _).
  unfold syncPlayers. rewrite bind_modify_eq, Hk. reflexivity.
Qed.

(** X25.  After a join that succeeds, and after a leave of a connection
    that has a player, the players of the coordinator are the active
    players of the registry: both handlers hand it the new list. *)
Theorem join_and_leave_hand_the_players_to_the_coordinator
    env c payload client s :
  let synced (s' : MessageProtocol.t) :=
    GameState.players (GameManager.gameState (gameManager s'))
    = getActivePlayers (playerManager s') in
  (result_of (handleJoin env c payload client s) = inr tt ->
   synced (state_of (handleJoin env c payload client s))) /\
  (forall p, nonempty (Client.playerId client) = Some p ->
     result_of (handleLeave env c client s) = inr tt /\
     synced (state_of (handleLeave env c client s)) /\
     lookupPlayer p (playerManager (state_of (handleLeave env c client s)))
     = None).
Proof.
  cbv zeta. split.
  - unfold handleJoin. destruct payload as [payload|]; [|discriminate].
    destruct (negb (Js.three_digits _)); [discriminate|].
    intros Hr.
    match goal with
    | |- context [bind ?m _ s] =>
        apply (synced_after _ m
                 (fun playerData =>
                    bind get (fun s0 =>
                      bind (MessageProtocol.sendToClient c
                              (join_success playerData
                                 (GameManager.getPublicGameState (gameManager s0))
                                 (Js.trim
                                    match stringField "roomCode" payload with
                                    | Some r => r
                                    | None => ""
                                    end) (now env)))
                           (fun _ => ret tt))) s)
    end; [|exact Hr].
    intros a s1. rewrite bind_get_eq.
    pose proof (sendToClient_state c
                  (join_success a (GameManager.getPublicGameState (gameManager s1))
                     (Js.trim match stringField "roomCode" payload with
                              | Some r => r
                              | None => ""
                              end) (now env)) s1) as Hs.
    unfold bind, ret, state_of in *.
    destruct (MessageProtocol.sendToClient _ _ s1) as [[s2 o2] [e|b]];
      simpl in *; exact Hs.
  - intros p Hp. unfold handleLeave. rewrite Hp.
    destruct (removePlayer_start_spec p (playerManager s)) as (s1 & o1 & E1 & Hgone).
    pose proof (await_spec (now env) s1) as (Haw & _ & Hpl & Hst & _).
    pose proof (removePlayer_eq (now env) p (playerManager s)) as Eq.
    rewrite E1 in Eq.
    destruct (await (now env) s1) as [[s2 o2] r2] eqn:E2.
    unfold result_of, state_of in Haw, Hpl, Hst. simpl in Haw, Hpl, Hst.
    subst r2.
    assert (EL : liftP (removePlayer (now env) p) s
                 = ({| gameManager := gameManager s; playerManager := s2;
                       startTimers := startTimers s |}, o1 ++ o2, inr tt)).
    { unfold liftP. now rewrite Eq. }
    destruct (bind_returned _ _ _ _ _ (fun _ => syncPlayers) _ _ _ _ EL)
      as (-> & -> & _).
    unfold syncPlayers, modify, result_of, state_of. simpl.
    split; [reflexivity|]. split; [reflexivity|].
    unfold lookupPlayer, deref in *. now rewrite Hpl, Hst.
Qed.

End SyncFacts.

(* ===================================================================== *)
(** ** One connection for a player *)
(* ===================================================================== *)

Section OneConnection.
Import PlayerManager MessageProtocol Keeps Registry Connections.

Lemma kept_refl s : kept s s.
Proof. intros H. exact H. Qed.

Lemma kept_trans s1 s2 s3 : kept s1 s2 -> kept s2 s3 -> kept s1 s3.
Proof. unfold kept. auto. Qed.

Lemma keptByServer_refl s : keptByServer s s.
Proof. apply kept_refl. Qed.

Lemma keptByServer_trans s1 s2 s3 :
  keptByServer s1 s2 -> keptByServer s2 s3 -> keptByServer s1 s3.
Proof. unfold keptByServer. apply kept_trans. Qed.

Lemma NoDup_app_l (A : Type) (l1 l2 : list A) : NoDup (l1 ++ l2) -> NoDup l1.
Proof.
  induction l1 as [|x l1 IH]; simpl; intros H; [constructor|].
  inversion H as [|? ? Hx Hn]; subst. constructor.
  - intros Hin. apply Hx. apply in_or_app. now left.
  - now apply IH.
Qed.

Lemma NoDup_app_r (A : Type) (l1 l2 : list A) : NoDup (l1 ++ l2) -> NoDup l2.
Proof.
  induction l1 as [|x l1 IH]; simpl; intros H; [exact H|].
  inversion H; subst. now apply IH.
Qed.

Lemma NoDup_app_disjoint (A : Type) (l1 l2 : list A) x :
  NoDup (l1 ++ l2) -> In x l1 -> ~ In x l2.
Proof.
  induction l1 as [|y l1 IH]; simpl; intros H Hin; [destruct Hin|].
  inversion H as [|? ? Hy Hn]; subst. destruct Hin as [-> | Hin].
  - intros H2. apply Hy. apply in_or_app. now right.
  - now apply IH.
Qed.

Lemma NoDup_app_intro (A : Type) (l1 l2 : list A) :
  NoDup l1 -> NoDup l2 -> (forall x, In x l1 -> ~ In x l2) -> NoDup (l1 ++ l2).
Proof.
  induction l1 as [|y l1 IH]; simpl; intros H1 H2 Hd; [exact H2|].
  inversion H1 as [|? ? Hy Hn]; subst. constructor.
  - intros Hin. apply in_app_or in Hin as [Hin | Hin]; [contradiction|].
    apply (Hd y); auto.
  - apply IH; auto.
Qed.

Lemma In_flat_map_filter (A B : Type) (g : A -> list B) f l x :
  In x (flat_map g (filter f l)) -> In x (flat_map g l).
Proof.
  rewrite !in_flat_map. intros (e & He & Hx). apply filter_In in He as [He _].
  eauto.
Qed.

Lemma NoDup_flat_map_filter (A B : Type) (g : A -> list B) f l :
  NoDup (flat_map g l) -> NoDup (flat_map g (filter f l)).
Proof.
  induction l as [|e l IH]; simpl; intros H; [constructor|].
  destruct (f e); simpl.
  - apply NoDup_app_intro.
    + eapply NoDup_app_l; eauto.
    + apply IH. eapply NoDup_app_r; eauto.
    + intros x Hx Hin. apply In_flat_map_filter in Hin.
      eapply NoDup_app_disjoint; eauto.
  - apply IH. eapply NoDup_app_r; eauto.
Qed.

Lemma shrunk_kept s s' : shrunk s s' -> kept s s'.
Proof.
  intros (_ & [f Hc] & _) H. unfold onePerPlayer, playersOf in *. rewrite Hc.
  now apply NoDup_flat_map_filter.
Qed.

Lemma same_clients_kept s s' : clients s' = clients s -> kept s s'.
Proof. intros Hc H. unfold onePerPlayer, playersOf in *. now rewrite Hc. Qed.

Lemma keeps_shrunk_kept (A : Type) (m : P A) : keeps shrunk m -> keeps kept m.
Proof. intros H s. apply shrunk_kept. apply H. Qed.

Lemma quiet_kept (A : Type) (m : P A) : quiet m -> keeps kept m.
Proof. intros H. apply keeps_shrunk_kept. now apply quiet_keeps_shrunk. Qed.

(** The players of the connections when one is set. *)
Lemma playersOf_replace c v l :
  forall x, In x (flat_map playerOf (Js.replace c v l)) ->
            In x (playerOf (c, v)) \/ In x (flat_map playerOf l).
Proof.
  induction l as [|[c0 v0] l IH]; simpl; intros x H; [tauto|].
  destruct (c0 =? c); simpl in H; apply in_app_or in H as [H | H].
  - now left.
  - right. apply in_or_app. now right.
  - right. apply in_or_app. now left.
  - destruct (IH x H); [now left|]. right. apply in_or_app. now right.
Qed.

Lemma playerOf_NoDup e : NoDup (playerOf e).
Proof.
  unfold playerOf. destruct (Client.playerId (snd e)); repeat constructor.
  intros [].
Qed.

Lemma NoDup_replace c v l :
  NoDup (flat_map playerOf l) ->
  (forall x, In x (playerOf (c, v)) -> ~ In x (flat_map playerOf l)) ->
  NoDup (flat_map playerOf (Js.replace c v l)).
Proof.
  induction l as [|[c0 v0] l IH]; simpl; intros Hn Hd; [constructor|].
  destruct (c0 =? c); simpl.
  - apply NoDup_app_intro.
    + apply playerOf_NoDup.
    + eapply NoDup_app_r; eauto.
    + intros x Hx Hin. apply (Hd x Hx). apply in_or_app. now right.
  - apply NoDup_app_intro.
    + eapply NoDup_app_l; eauto.
    + apply IH; [eapply NoDup_app_r; eauto|].
      intros x Hx Hin. apply (Hd x Hx). apply in_or_app. now right.
    + intros x Hx Hin. apply playersOf_replace in Hin as [Hin | Hin].
      * apply (Hd x Hin). apply in_or_app. now left.
      * eapply NoDup_app_disjoint; eauto.
Qed.

Lemma NoDup_map_set c v l :
  NoDup (flat_map playerOf l) ->
  (forall x, In x (playerOf (c, v)) -> ~ In x (flat_map playerOf l)) ->
  NoDup (flat_map playerOf (Js.map_set c v l)).
Proof.
  intros Hn Hd. unfold Js.map_set. destruct (Js.get c l).
  - now apply NoDup_replace.
  - rewrite flat_map_app. simpl. rewrite app_nil_r.
    apply NoDup_app_intro; [exact Hn | apply playerOf_NoDup|].
    intros x Hx Hin. exact (Hd x Hin Hx).
Qed.

Lemma playersOf_replace_same c v v0 l :
  Js.get c l = Some v0 -> Client.playerId v = Client.playerId v0 ->
  flat_map playerOf (Js.replace c v l) = flat_map playerOf l.
Proof.
  intros Hg Hp. induction l as [|[c1 v1] l IH]; simpl in *; [discriminate|].
  destruct (c1 =? c); simpl.
  - injection Hg as ->. unfold playerOf. simpl. now rewrite Hp.
  - now rewrite IH.
Qed.

Lemma find_split (A : Type) (f : A -> bool) l x :
  find f l = Some x ->
  exists l1 l2, l = l1 ++ x :: l2 /\ f x = true.
Proof.
  induction l as [|y l IH]; simpl; [discriminate|].
  destruct (f y) eqn:E.
  - intros H. injection H as ->. now exists [], l.
  - intros H. destruct (IH H) as (l1 & l2 & -> & Hx). now exists (y :: l1), l2.
Qed.

Lemma In_playersOf p l :
  In p (flat_map playerOf l) <->
  exists e, In e l /\ Client.playerId (snd e) = Some p.
Proof.
  rewrite in_flat_map. split; intros (e & He & H); exists e; split; auto.
  - unfold playerOf in H. destruct (Client.playerId (snd e)); [|destruct H].
    destruct H as [-> | []]. reflexivity.
  - unfold playerOf. rewrite H. now left.
Qed.

(** Once the connection of a player is removed, no connection has that
    player. *)
Lemma replaced_has_no_connection p s e cl sA :
  onePerPlayer s ->
  findClientByPlayerId p s = Some (e, cl) ->
  shrunk s sA -> getClientById e sA = None ->
  ~ In p (playersOf sA).
Proof.
  intros Hn Hf Hs Ha Hin. unfold playersOf in Hin.
  apply In_playersOf in Hin as ([e' cl'] & Hin & Hp). simpl in Hp.
  assert (He' : e' <> e).
  { intros ->. unfold getClientById, Js.map_get in Ha.
    apply get_None_keys in Ha. apply Ha.
    unfold Js.keys. change e with (fst (e, cl')). now apply in_map. }
  apply (shrunk_In_clients _ _ _ Hs) in Hin.
  unfold findClientByPlayerId in Hf.
  apply find_split in Hf as (l1 & l2 & Hl & Hx). simpl in Hx.
  destruct (Client.playerId cl) as [q|] eqn:Hq; [|discriminate].
  apply String.eqb_eq in Hx. subst q.
  unfold onePerPlayer, playersOf in Hn. rewrite Hl in Hn, Hin.
  rewrite flat_map_app in Hn. simpl in Hn.
  assert (Hpe : playerOf (e, cl) = [p]) by (unfold playerOf; simpl; now rewrite Hq).
  rewrite Hpe in Hn. simpl in Hn.
  apply in_app_or in Hin as [Hin | [Heq | Hin]].
  - apply (NoDup_app_disjoint _ _ _ p Hn).
    + apply In_playersOf. exists (e', cl'). auto.
    + now left.
  - injection Heq as -> _. contradiction.
  - apply NoDup_app_r in Hn. inversion Hn as [|? ? Hnot _]; subst.
    apply Hnot. apply In_playersOf. exists (e', cl'). auto.
Qed.

Lemma keeps_kept_removeClient c : keeps kept (removeClient c).
Proof. apply keeps_shrunk_kept. apply keeps_shrunk_removeClient. Qed.

Lemma keeps_kept_await now : keeps kept (await now).
Proof. apply keeps_shrunk_kept. apply keeps_shrunk_await. Qed.

Lemma keeps_kept_removePlayer now p : keeps kept (removePlayer now p).
Proof.
  unfold removePlayer. apply keeps_bind; [exact kept_trans | |].
  - apply keeps_shrunk_kept. intros s. unfold removePlayer_start.
    apply keeps_shrunk_removePlayer_start_with.
    intros c. apply keeps_shrunk_removeClient_fuel.
  - intros _. apply keeps_kept_await.
Qed.

Lemma keeps_kept_togglePlayerReady now p : keeps kept (togglePlayerReady now p).
Proof.
  unfold togglePlayerReady.
  apply keeps_bind; [exact kept_trans | apply keeps_get; exact kept_refl|].
  intros s. destruct (lookupPlayer p s) as [[a player]|];
    [|apply keeps_ret; exact kept_refl].
  apply keeps_bind; [exact kept_trans | |].
  - apply keeps_modify. intros s0. now apply same_clients_kept.
  - intros _. apply keeps_bind; [exact kept_trans | |].
    + apply quiet_kept. apply quiet_broadcastPlayerList.
    + intros _. apply keeps_bind; [exact kept_trans | apply keeps_kept_await|].
      intros _. apply keeps_ret. exact kept_refl.
Qed.

Lemma keeps_kept_updateHeartbeat now c : keeps kept (updateHeartbeat now c).
Proof.
  intros s. unfold updateHeartbeat. rewrite bind_get_eq.
  destruct (Js.map_get c (clients s)) as [cl|] eqn:E; [|exact (kept_refl s)].
  rewrite bind_modify_eq. unfold ret, state_of. simpl.
  intros H. unfold onePerPlayer, playersOf in *. simpl.
  unfold Js.map_set. unfold Js.map_get in E. rewrite E.
  now rewrite (playersOf_replace_same c _ cl _ E).
Qed.

Lemma keeps_kept_addPlayer env c pid name email room :
  keeps kept (addPlayer env c pid name email room).
Proof.
  intros s. destruct (nonempty name) as [n|] eqn:Hn.
  2:{ unfold addPlayer. rewrite Hn.
      destruct (nonempty (Some _)); exact (kept_refl s). }
  set (p := match nonempty pid with
            | Some p => p
            | None => ("p_" ++ randomId env)%string
            end).
  destruct (replace_existing p s) as (sA & oA & E & Hsh). cbv zeta in E.
  pose proof (addPlayer_stages env c pid name email room s n sA oA Hn E) as H.
  cbv zeta in H. fold p in H. destruct H as [Hst _]. rewrite Hst.
  intros Huni.
  assert (HA : ~ In p (playersOf sA)).
  { destruct (findClientByPlayerId p s) as [[e cl]|] eqn:Hf.
    - assert (Hin : In (e, cl) (clients s)).
      { unfold findClientByPlayerId in Hf. now apply find_some in Hf. }
      destruct (Js.map_get e (clients s)) as [cl0|] eqn:Hg.
      + destruct (removeClient_spec e s cl0 Hg) as (_ & _ & Ha & _).
        rewrite E in Ha. unfold state_of in Ha. simpl in Ha.
        exact (replaced_has_no_connection p s e cl sA Huni Hf Hsh Ha).
      + exfalso. apply get_None_keys in Hg. apply Hg.
        unfold Js.keys. change e with (fst (e, cl)). now apply in_map.
    - injection E as <- _. unfold playersOf. intros Hin.
      apply In_playersOf in Hin as (e & He & Hp).
      unfold findClientByPlayerId in Hf.
      pose proof (find_none _ _ Hf e He) as Hnone. simpl in Hnone.
      rewrite Hp, String.eqb_refl in Hnone. discriminate. }
  match goal with
  | |- onePerPlayer
         (state_of (broadcastPlayerList _ _ (state_of (await _ ?x)))) =>
      set (s4 := x)
  end.
  pose proof (await_spec (now env) s4) as (_ & _ & _ & _ & Hc5).
  destruct (quiet_broadcastPlayerList (now env) (nonempty room)
              (state_of (await (now env) s4))) as [(Hc6 & _) _].
  unfold onePerPlayer, playersOf. rewrite Hc6, Hc5.
  assert (Hc4 : exists v, Client.playerId v = Some p /\
                          clients s4 = Js.map_set c v (clients sA))
    by (unfold s4; destruct (nonempty room); eexists;
        (split; [|reflexivity]); reflexivity).
  destruct Hc4 as (v & Hv & ->).
  apply NoDup_map_set.
  - exact (shrunk_kept _ _ Hsh Huni).
  - intros x Hx. unfold playerOf in Hx. simpl in Hx. rewrite Hv in Hx.
    destruct Hx as [<- | []]. exact HA.
Qed.

End OneConnection.

(* ===================================================================== *)
(** ** What every event of the server keeps *)
(* ===================================================================== *)

(** A relation between the states of the server that the steps of the
    handlers keep is kept by every event, and so by every run.  [Rp] is
    what the calls into the registry have to keep for it. *)
Section ServerInvariant.
Import PlayerManager MessageProtocol Keeps.

Variable Rp : PlayerManager.t -> PlayerManager.t -> Prop.
Variable Rel : MessageProtocol.t -> MessageProtocol.t -> Prop.

Hypothesis Rp_refl : forall s, Rp s s.
Hypothesis Rp_trans : forall s1 s2 s3, Rp s1 s2 -> Rp s2 s3 -> Rp s1 s3.
Hypothesis Rel_refl : forall s, Rel s s.
Hypothesis Rel_trans : forall s1 s2 s3, Rel s1 s2 -> Rel s2 s3 -> Rel s1 s3.

Hypothesis Rel_liftP : forall (A : Type) (m : P A), keeps Rp m -> keeps Rel (liftP m).
Hypothesis Rel_startTimers : forall s f,
  Rel s {| gameManager := gameManager s; playerManager := playerManager s;
           startTimers := f |}.
Hypothesis Rel_syncPlayers : keeps Rel syncPlayers.
Hypothesis Rel_transitionPhase : forall now p d,
  keeps Rel (liftG (GameManager.transitionPhase now p d)).
Hypothesis Rel_handleVote : forall now p t,
  keeps Rel (liftG (GameManager.handleVote now p t)).
Hypothesis Rel_fireTimeout : forall now i,
  keeps Rel (liftG (GameManager.fireTimeout now i)).

Hypothesis Rp_clients_only : forall s s',
  roomManager s' = roomManager s -> clients s' = clients s -> Rp s s'.
Hypothesis Rp_connect : forall c now s,
  Rp s (with_clients
          (Js.map_set c {| Client.playerId := None; Client.playerData := None;
                           Client.lastHeartbeat := now;
                           Client.connectedAt := now |}) s).
Hypothesis Rp_addPlayer : forall env c pid name email room,
  keeps Rp (addPlayer env c pid name email room).
Hypothesis Rp_removeClient : forall c, keeps Rp (removeClient c).
Hypothesis Rp_removePlayer : forall now p, keeps Rp (removePlayer now p).
Hypothesis Rp_togglePlayerReady : forall now p, keeps Rp (togglePlayerReady now p).
Hypothesis Rp_updateHeartbeat : forall now c, keeps Rp (updateHeartbeat now c).
Hypothesis Rp_await : forall now, keeps Rp (await now).

Ltac server_step :=
  first
    [ apply keeps_bind; [exact Rel_trans | | intros ?]
    | apply keeps_get; exact Rel_refl
    | apply keeps_ret; exact Rel_refl
    | apply keeps_throw; exact Rel_refl
    | apply Rel_transitionPhase
    | apply Rel_handleVote
    | apply Rel_fireTimeout
    | apply Rel_syncPlayers
    | apply Rel_liftP ].

Lemma keeps_try_catch (S O A : Type) (Q : S -> S -> Prop)
    (m : M S O A) (h : error -> M S O A) :
  (forall s1 s2 s3, Q s1 s2 -> Q s2 s3 -> Q s1 s3) ->
  keeps Q m -> (forall e, keeps Q (h e)) -> keeps Q (try_catch m h).
Proof.
  intros Ht Hm Hh s. specialize (Hm s). unfold try_catch, state_of in *.
  destruct (m s) as [[s1 o1] [e|a]]; simpl in *; [|exact Hm].
  specialize (Hh e s1). unfold state_of in Hh.
  destruct (h e s1) as [[s2 o2] r]. simpl in *. eauto.
Qed.

Lemma Rp_sends (A : Type) (m : P A) :
  Registry.quiet m -> keeps sameRooms m -> keeps Rp m.
Proof.
  intros Hq Hr s. apply Rp_clients_only; [apply Hr | apply (Hq s)].
Qed.

Lemma sameRooms_sendOrSchedule m b c : keeps sameRooms (sendOrSchedule m b c).
Proof.
  unfold sendOrSchedule. apply keeps_bind; [unfold sameRooms; congruence | |].
  - apply keeps_get. reflexivity.
  - intros s. destruct (b && isOpen c s).
    + apply keeps_emit. reflexivity.
    + apply keeps_modify. reflexivity.
Qed.

Lemma sameRooms_broadcastToAll m : keeps sameRooms (broadcastToAll m).
Proof.
  intros s. rewrite broadcastToAll_eq. reflexivity.
Qed.

Lemma Rp_broadcastToAll m : keeps Rp (broadcastToAll m).
Proof.
  apply Rp_sends; [apply quiet_broadcastToAll | apply sameRooms_broadcastToAll].
Qed.

Lemma Rel_sendToClient c m : keeps Rel (MessageProtocol.sendToClient c m).
Proof. intros s. rewrite sendToClient_state. apply Rel_refl. Qed.

Lemma Rel_sendError now c e : keeps Rel (sendError now c e).
Proof. intros s. rewrite sendError_eq. apply Rel_refl. Qed.

Lemma Rel_broadcastMessage m : keeps Rel (broadcastMessage m).
Proof. unfold broadcastMessage. apply Rel_liftP. apply Rp_broadcastToAll. Qed.

Lemma Rel_validateMessageStructure now message :
  keeps Rel (validateMessageStructure now message).
Proof.
  intros s. destruct (validateMessageStructure_frame now message s) as [r ->].
  apply Rel_refl.
Qed.

Lemma Rel_validateMessage message client :
  keeps Rel (validateMessage message client).
Proof.
  intros s. destruct (validateMessage_frame message client s) as [r ->].
  apply Rel_refl.
Qed.

Lemma Rel_handleStartGame env c : keeps Rel (handleStartGame env c).
Proof.
  unfold handleStartGame. server_step; [server_step|].
  destruct (negb _); [server_step|].
  destruct (_ <? 2)%nat; [server_step|].
  destruct (nth_error _ _); [|server_step].
  destruct (deref _ _); server_step.
Qed.

Lemma Rel_routeMessage env c message client :
  keeps Rel (routeMessage env c message client).
Proof.
  unfold routeMessage.
  repeat match goal with
         | |- keeps _ (if ?b then _ else _) => destruct b
         end.
  - unfold handlePing. server_step.
    + server_step. apply Rp_updateHeartbeat.
    + server_step; [apply Rel_sendToClient | server_step].
  - unfold handlePong. server_step; [|server_step].
    server_step. apply Rp_updateHeartbeat.
  - unfold handleJoin. destruct (Inbound.payload message); [|server_step].
    destruct (negb _); [server_step|].
    server_step; [server_step; apply Rp_addPlayer|].
    server_step; [server_step|].
    server_step; [server_step|].
    server_step; [apply Rel_sendToClient | server_step].
  - unfold handleLeave. destruct (nonempty _); [|server_step].
    server_step; [|server_step].
    server_step. apply Rp_removePlayer.
  - unfold handleToggleReady. destruct (nonempty _); [|server_step].
    server_step; [server_step; apply Rp_togglePlayerReady|].
    match goal with b : bool |- _ => destruct b end; [|server_step].
    server_step; [server_step|].
    destruct (_ && _); [|server_step].
    server_step; [apply Rel_broadcastMessage|].
    intros s0. apply Rel_startTimers.
  - apply Rel_handleStartGame.
  - unfold handleChatMessage. server_step; [server_step|].
    destruct (getPlayerById _ _) as [[? ?]|];
      destruct (Inbound.payload message);
      first [apply Rel_broadcastMessage | server_step].
  - unfold MessageProtocol.handleVote. destruct (nonempty _); [|server_step].
    destruct (Inbound.payload message); [|server_step].
    destruct (stringField _ _); server_step.
  - unfold handleNewGame. server_step; [server_step|].
    destruct (GameState.phase _); server_step.
  - unfold handleTestMessage. apply Rel_broadcastMessage.
  - unfold handleMemoryTest.
    server_step; [apply Rel_sendToClient | server_step].
  - unfold handleSubmitAnswer. server_step; [server_step|].
    destruct (nonempty _); [|server_step].
    destruct (GameState.phase _);
      first [apply Rel_broadcastMessage | server_step].
  - unfold handleForcePhaseTransition.
    destruct (Inbound.payload message); [|server_step].
    destruct (validPhase _); server_step.
  - server_step.
Qed.

Lemma Rel_protocol_handleMessage env c raw :
  keeps Rel (MessageProtocol.handleMessage env c raw).
Proof.
  unfold MessageProtocol.handleMessage.
  apply keeps_try_catch; [exact Rel_trans | |].
  - destruct raw as [message|]; [|server_step].
    server_step; [apply Rel_validateMessageStructure|].
    server_step; [server_step|].
    destruct (getClientById _ _); [|server_step].
    server_step; [apply Rel_validateMessage | apply Rel_routeMessage].
  - intros e. server_step; [apply Rel_sendError | server_step].
Qed.

Lemma Rp_openSockets f : keeps Rp (modify (with_openSockets f) : P unit).
Proof. apply keeps_modify. intros s. now apply Rp_clients_only. Qed.

Lemma Rp_removals f : keeps Rp (modify (with_removals f) : P unit).
Proof. apply keeps_modify. intros s. now apply Rp_clients_only. Qed.

Lemma Rel_step env e : keeps Rel (GameServer.step env e).
Proof.
  destruct e as [c | c data | c | | | i]; simpl.
  - unfold GameServer.connect. server_step.
    + apply Rel_liftP.
      apply keeps_bind; [exact Rp_trans | apply Rp_openSockets|].
      intros _. apply keeps_modify. intros s. apply Rp_connect.
    + server_step; [server_step|].
      server_step; [apply Rel_sendToClient | server_step].
  - unfold GameServer.handleMessage. server_step.
    + apply keeps_try_catch; [exact Rel_trans | |].
      * apply Rel_protocol_handleMessage.
      * intros e. server_step.
    + apply Rel_liftP. apply Rp_await.
  - unfold GameServer.handleDisconnect. apply Rel_liftP.
    apply keeps_bind; [exact Rp_trans | apply Rp_openSockets|].
    intros _. apply keeps_bind; [exact Rp_trans | apply Rp_removeClient|].
    intros _. apply Rp_await.
  - unfold GameServer.fireRemoval. server_step; [server_step|].
    destruct (removals _); [server_step|].
    apply Rel_liftP.
    apply keeps_bind; [exact Rp_trans | apply Rp_removals|].
    intros _. apply keeps_bind; [exact Rp_trans | apply Rp_removeClient|].
    intros _. apply Rp_await.
  - intros s. unfold GameServer.fireStartGame. rewrite bind_get_eq.
    destruct (startTimers s) as [|c rest]; [apply Rel_refl|].
    unfold bind, put.
    match goal with
    | |- context [try_catch ?m ?h ?x] =>
        pose proof (keeps_try_catch _ _ _ Rel m h Rel_trans
                      (Rel_handleStartGame env c)
                      (fun _ => keeps_ret _ _ Rel Rel_refl _ tt)
                      x) as Hk;
        destruct (try_catch m h x) as [[s2 o2] r2]
    end.
    unfold state_of in *. simpl in *.
    eapply Rel_trans; [apply (Rel_startTimers s rest) | exact Hk].
  - unfold GameServer.firePhaseTimer. apply Rel_fireTimeout.
Qed.

Lemma Rp_forEach (A : Type) (f : A -> P unit) l :
  (forall x, keeps Rp (f x)) -> keeps Rp (forEach f l).
Proof.
  intros Hf. induction l as [|x l IH]; simpl.
  - apply keeps_ret. exact Rp_refl.
  - apply keeps_bind; auto.
Qed.

Lemma Rp_sendHeartbeatPings now : keeps Rp (Heartbeat.sendHeartbeatPings now).
Proof.
  unfold Heartbeat.sendHeartbeatPings.
  apply keeps_bind; [exact Rp_trans | apply keeps_get; exact Rp_refl|].
  intros s. apply Rp_forEach. intros c.
  apply keeps_bind; [exact Rp_trans | apply keeps_get; exact Rp_refl|].
  intros s0. destruct (isOpen c s0).
  - apply keeps_emit. exact Rp_refl.
  - apply keeps_ret. exact Rp_refl.
Qed.

Lemma Rp_cleanupStaleConnections now :
  keeps Rp (Heartbeat.cleanupStaleConnections now).
Proof.
  unfold Heartbeat.cleanupStaleConnections.
  apply keeps_bind; [exact Rp_trans | apply keeps_get; exact Rp_refl|].
  intros s. apply Rp_forEach. intros c.
  apply keeps_bind; [exact Rp_trans | apply keeps_get; exact Rp_refl|].
  intros s0. destruct (Js.map_get c (clients s0)).
  - apply Rp_removeClient.
  - apply keeps_throw. exact Rp_refl.
Qed.

Lemma Rel_heartbeat env : keeps Rel (Server.heartbeat env).
Proof.
  unfold Server.heartbeat. apply Rel_liftP.
  apply keeps_bind; [exact Rp_trans | apply Rp_sendHeartbeatPings|].
  intros _.
  apply keeps_bind; [exact Rp_trans | apply Rp_cleanupStaleConnections|].
  intros _. apply Rp_await.
Qed.

(** The events of the sockets, the timers and the heartbeat. *)
Lemma Rel_run_without_rooms env es :
  Server.noRoomRequest es = true -> keeps Rel (Server.run env es).
Proof.
  induction es as [|e es IH]; simpl; intros Hes.
  - apply keeps_ret. exact Rel_refl.
  - apply andb_true_iff in Hes as [He Hes].
    apply keeps_bind; [exact Rel_trans | | intros _; now apply IH].
    destruct e as [e | | random]; simpl in *.
    + apply Rel_step.
    + apply Rel_heartbeat.
    + discriminate.
Qed.

Hypothesis Rel_requestRoom : forall env random,
  keeps Rel (Server.requestRoom env random).

(** Every event. *)
Lemma Rel_run env es : keeps Rel (Server.run env es).
Proof.
  induction es as [|e es IH]; simpl.
  - apply keeps_ret. exact Rel_refl.
  - apply keeps_bind; [exact Rel_trans | | intros _; exact IH].
    destruct e as [e | | random]; simpl.
    + apply Rel_step.
    + apply Rel_heartbeat.
    + apply Rel_requestRoom.
Qed.

End ServerInvariant.

Section ServerFacts.
Import PlayerManager MessageProtocol Keeps Registry Connections Coordinator.

Lemma keeps_kept_connect c now s :
  kept s (with_clients
            (Js.map_set c {| Client.playerId := None; Client.playerData := None;
                             Client.lastHeartbeat := now;
                             Client.connectedAt := now |}) s).
Proof.
  intros H. unfold onePerPlayer, playersOf in *. simpl.
  apply NoDup_map_set; [exact H|]. intros x [].
Qed.

Lemma keptByServer_liftP (A : Type) (m : P A) :
  keeps kept m -> keeps keptByServer (liftP m).
Proof.
  intros H s. unfold keptByServer.
  destruct (liftP_outcome _ m s) as (-> & _). apply H.
Qed.

Lemma keptByServer_liftG (A : Type) (m : M GameManager.t Broadcast A) :
  keeps keptByServer (liftG m).
Proof.
  intros s. unfold keptByServer, liftG.
  destruct (m (gameManager s)) as [[g' bs] r].
  pose proof (quiet_forEach _ (fun b => broadcastToAll (game_broadcast b)) bs
                (fun b => quiet_broadcastToAll (game_broadcast b))
                (playerManager s)) as [(Hc & _) _].
  destruct (forEach _ bs (playerManager s)) as [[p' out] r'].
  unfold state_of in *. simpl in *. now apply same_clients_kept.
Qed.

(** X26.  Whatever the events (of the sockets, of the timers of the
    handlers and the coordinator, of the heartbeat, and requests for
    a new room), a server that has no two connections with the same
    player, as a new server has none, never gets two: a join from a
    second connection replaces the first before the player is
    registered again, and no other event gives a connection a
    player. *)
Theorem no_two_connections_have_the_same_player env es s :
  onePerPlayer (playerManager s) ->
  onePerPlayer (playerManager (state_of (Server.run env es s))).
Proof.
  intros H. revert H.
  change (keptByServer s (state_of (Server.run env es s))).
  apply (Rel_run kept keptByServer).
  - intros s0 H. exact H.
  - exact kept_trans.
  - exact keptByServer_refl.
  - exact keptByServer_trans.
  - exact keptByServer_liftP.
  - intros s0 f H. exact H.
  - intros s0 H. exact H.
  - intros. apply keptByServer_liftG.
  - intros. apply keptByServer_liftG.
  - intros. apply keptByServer_liftG.
  - intros s0 s1 _ Hc. now apply same_clients_kept.
  - exact keeps_kept_connect.
  - exact keeps_kept_addPlayer.
  - exact keeps_kept_removeClient.
  - exact keeps_kept_removePlayer.
  - exact keeps_kept_togglePlayerReady.
  - exact keeps_kept_updateHeartbeat.
  - exact keeps_kept_await.
  - intros env0 random s0. unfold keptByServer, Server.requestRoom.
    cbn [modify state_of fst].
    destruct (RoomCodes.createRoom _ _ _ _) as [e | [room rooms']];
      [intros H; exact H|].
    now apply same_clients_kept.
Qed.

Lemma calls_app cs1 cs2 g :
  Session.calls (cs1 ++ cs2) g = Session.calls cs2 (Session.calls cs1 g).
Proof. unfold Session.calls. apply fold_left_app. Qed.

Lemma calledFrom_refl s : calledFrom s s.
Proof. now exists []. Qed.

Lemma calledFrom_trans s1 s2 s3 :
  calledFrom s1 s2 -> calledFrom s2 s3 -> calledFrom s1 s3.
Proof.
  intros [cs1 H1] [cs2 H2]. exists (cs1 ++ cs2).
  now rewrite calls_app, <- H1.
Qed.

Lemma calledFrom_liftG (m : M GameManager.t Broadcast unit) c :
  (forall g, state_of (m g) = Session.call c g) ->
  keeps calledFrom (liftG m).
Proof.
  intros H s. exists [c]. destruct (liftG_outcome _ m s) as [-> _].
  simpl. apply H.
Qed.

(** X27.  The coordinator of the server is driven through its own methods
    only: after any events (of the sockets, of the timers, of the
    heartbeat, and requests for a new room), its state is the state
    after a sequence of calls of [transitionPhase], [handleVote] and
    [updatePlayers] and of expiries of its timers.  What holds of
    every such sequence holds of the coordinator of the running
    server. *)
Theorem the_server_drives_the_coordinator_through_its_methods env es s :
  exists cs,
    gameManager (state_of (Server.run env es s))
    = Session.calls cs (gameManager s).
Proof.
  change (calledFrom s (state_of (Server.run env es s))).
  apply (Rel_run (fun _ _ => True) calledFrom); auto.
  - exact calledFrom_refl.
  - exact calledFrom_trans.
  - intros A m _ s0. exists []. now destruct (liftP_outcome _ m s0) as (_ & -> & _).
  - intros s0 f. now exists [].
  - intros s0.
    now exists [Session.updatePlayers (getActivePlayers (playerManager s0))].
  - intros now p d.
    now apply calledFrom_liftG with (c := Session.transitionPhase now p d).
  - intros now p t.
    now apply calledFrom_liftG with (c := Session.handleVote now p t).
  - intros now i.
    now apply calledFrom_liftG with (c := Session.timeout now i).
  - intros env0 c pid name email room s0. exact I.
  - intros c s0. exact I.
  - intros now p s0. exact I.
  - intros now p s0. exact I.
  - intros now c s0. exact I.
  - intros now s0. exact I.
  - intros env0 random s0. exists []. unfold Server.requestRoom.
    cbn [modify state_of fst].
    now destruct (RoomCodes.createRoom _ _ _ _) as [e | [room rooms']].
Qed.

End ServerFacts.

(* ===================================================================== *)
(** ** The rooms of the server *)
(* ===================================================================== *)

Section RoomsOfTheServer.
Import PlayerManager MessageProtocol Keeps Registry.

(** A property of the rooms that every change of membership keeps. *)
Variable Inv : RoomManager.t -> Prop.
Hypothesis Inv_change : forall code c rooms,
  Inv rooms -> Inv (Rooms.change code c rooms).

Lemma rooms_kept_refl s : Rooms.kept Inv s s.
Proof. intros H. exact H. Qed.

Lemma rooms_kept_trans s1 s2 s3 :
  Rooms.kept Inv s1 s2 -> Rooms.kept Inv s2 s3 -> Rooms.kept Inv s1 s3.
Proof. unfold Rooms.kept. auto. Qed.

Lemma rooms_kept_same s s' :
  roomManager s' = roomManager s -> Rooms.kept Inv s s'.
Proof. intros E H. now rewrite E. Qed.

Lemma rooms_kept_change code c s :
  Rooms.kept Inv s (with_roomManager (Rooms.change code c) s).
Proof. intros H. simpl. now apply Inv_change. Qed.

Ltac rooms_step :=
  first
    [ apply keeps_bind; [exact rooms_kept_trans | | intros ?]
    | apply keeps_get; exact rooms_kept_refl
    | apply keeps_ret; exact rooms_kept_refl
    | apply keeps_throw; exact rooms_kept_refl
    | apply keeps_emit; exact rooms_kept_refl
    | apply keeps_modify; intros ?; now apply rooms_kept_same ].

Lemma rooms_kept_sends (A : Type) (m : P A) :
  keeps sameRooms m -> keeps (Rooms.kept Inv) m.
Proof. intros H s. apply rooms_kept_same. apply H. Qed.

Lemma rooms_kept_broadcastPlayerList now r :
  keeps (Rooms.kept Inv) (broadcastPlayerList now r).
Proof. apply rooms_kept_sends. apply keeps_rooms_broadcastPlayerList. Qed.

Lemma rooms_kept_removePlayer_rest now k :
  keeps (Rooms.kept Inv) (removePlayer_rest now k).
Proof.
  unfold removePlayer_rest. rooms_step; [rooms_step|].
  destruct (deref _ _) as [player|]; [|rooms_step].
  destruct (nonempty (Player.roomCode player)) as [r|];
    [|apply rooms_kept_broadcastPlayerList].
  rooms_step; [|apply rooms_kept_broadcastPlayerList].
  apply keeps_modify. intros ?.
  apply (rooms_kept_change r (Rooms.removePlayer (Continuation.playerId k))).
Qed.

Lemma rooms_kept_forEach (A : Type) (f : A -> P unit) l :
  (forall x, keeps (Rooms.kept Inv) (f x)) -> keeps (Rooms.kept Inv) (forEach f l).
Proof.
  intros Hf. induction l as [|x l IH]; simpl; [rooms_step|].
  apply keeps_bind; auto. exact rooms_kept_trans.
Qed.

Lemma rooms_kept_await now : keeps (Rooms.kept Inv) (await now).
Proof.
  unfold await. rooms_step; [rooms_step|].
  rooms_step; [rooms_step|].
  apply rooms_kept_forEach. apply rooms_kept_removePlayer_rest.
Qed.

Lemma rooms_kept_removePlayer_start_with (rc : string -> P unit) p :
  (forall c, keeps (Rooms.kept Inv) (rc c)) ->
  keeps (Rooms.kept Inv) (removePlayer_start_with rc p).
Proof.
  intros Hrc. unfold removePlayer_start_with. rooms_step; [rooms_step|].
  destruct (lookupPlayer p _) as [[a0 player]|]; [|rooms_step].
  rooms_step.
  - destruct (Player.clientId player) as [c|]; [|rooms_step].
    destruct (Js.map_has c _); [apply Hrc | rooms_step].
  - rooms_step; rooms_step.
Qed.

Lemma rooms_kept_removeClient_fuel fuel : forall c,
  keeps (Rooms.kept Inv) (removeClient_fuel fuel c).
Proof.
  induction fuel as [|fuel IH]; intros c; simpl; [rooms_step|].
  rooms_step; [rooms_step|].
  destruct (Js.map_get c _) as [client|]; [|rooms_step].
  rooms_step; [rooms_step|].
  rooms_step; [rooms_step|].
  rooms_step.
  - destruct (nonempty (Client.playerId client)) as [p|]; [|rooms_step].
    rooms_step; [rooms_step|].
    destruct (findClientByPlayerId p _); [rooms_step|].
    now apply rooms_kept_removePlayer_start_with.
  - destruct (Client.playerData client) as [d|]; [|rooms_step].
    destruct (nonempty (ClientData.roomCode d)) as [r|]; [|rooms_step].
    apply keeps_modify. intros ?.
    apply (rooms_kept_change r (Rooms.removeClient c)).
Qed.

Lemma rooms_kept_removeClient c : keeps (Rooms.kept Inv) (removeClient c).
Proof. intros s. unfold removeClient. apply rooms_kept_removeClient_fuel. Qed.

Lemma rooms_kept_removePlayer now p : keeps (Rooms.kept Inv) (removePlayer now p).
Proof.
  unfold removePlayer. apply keeps_bind; [exact rooms_kept_trans | |].
  - intros s. unfold removePlayer_start.
    apply rooms_kept_removePlayer_start_with.
    intros c. apply rooms_kept_removeClient_fuel.
  - intros _. apply rooms_kept_await.
Qed.

Lemma rooms_kept_togglePlayerReady now p :
  keeps (Rooms.kept Inv) (togglePlayerReady now p).
Proof.
  unfold togglePlayerReady. rooms_step; [rooms_step|].
  destruct (lookupPlayer p _) as [[a0 player]|]; [|rooms_step].
  rooms_step; [rooms_step|].
  rooms_step; [apply rooms_kept_broadcastPlayerList|].
  rooms_step; [apply rooms_kept_await | rooms_step].
Qed.

Lemma rooms_kept_updateHeartbeat now c :
  keeps (Rooms.kept Inv) (updateHeartbeat now c).
Proof.
  unfold updateHeartbeat. rooms_step; [rooms_step|].
  destruct (Js.map_get c _); [|rooms_step].
  rooms_step; rooms_step.
Qed.

Lemma rooms_kept_addPlayer env c pid name email room :
  keeps (Rooms.kept Inv) (addPlayer env c pid name email room).
Proof.
  unfold addPlayer.
  destruct (nonempty (Some _)); [|rooms_step].
  destruct (nonempty name); [|rooms_step].
  rooms_step; [rooms_step|].
  rooms_step.
  { destruct (findClientByPlayerId _ _) as [[e ?]|];
      [apply rooms_kept_removeClient | rooms_step]. }
  rooms_step; [rooms_step|].
  rooms_step; [rooms_step|].
  rooms_step; [rooms_step|].
  rooms_step; [rooms_step|].
  rooms_step.
  { destruct (nonempty room) as [r|]; [|rooms_step].
    apply keeps_modify. intros ?.
    eapply rooms_kept_trans.
    - apply (rooms_kept_change r (Rooms.addClient (now env) c)).
    - apply (rooms_kept_change r (Rooms.addPlayer (now env) _ true)). }
  rooms_step; [apply rooms_kept_await|].
  rooms_step; [apply rooms_kept_broadcastPlayerList|].
  rooms_step; rooms_step.
Qed.

Lemma rooms_keptByServer_liftG (A : Type) (m : M GameManager.t Broadcast A) :
  keeps (Rooms.keptByServer Inv) (liftG m).
Proof.
  intros s. unfold Rooms.keptByServer, liftG.
  destruct (m (gameManager s)) as [[g' bs] r].
  assert (Hk : keeps sameRooms
                 (forEach (fun b => broadcastToAll (game_broadcast b)) bs)).
  { apply keeps_rooms_forEach. intros b s0. rewrite broadcastToAll_eq.
    reflexivity. }
  specialize (Hk (playerManager s)).
  destruct (forEach _ bs (playerManager s)) as [[p' out] r'].
  unfold state_of in *. simpl in *. now apply rooms_kept_same.
Qed.

Lemma rooms_keptByServer_liftP (A : Type) (m : P A) :
  keeps (Rooms.kept Inv) m -> keeps (Rooms.keptByServer Inv) (liftP m).
Proof.
  intros Hm s0. unfold Rooms.keptByServer.
  destruct (liftP_outcome _ m s0) as (-> & _). apply Hm.
Qed.

(** The events of the sockets, the timers and the heartbeat keep it. *)
Lemma rooms_kept_run_without_rooms env es :
  Server.noRoomRequest es = true ->
  keeps (Rooms.keptByServer Inv) (Server.run env es).
Proof.
  apply (Rel_run_without_rooms (Rooms.kept Inv) (Rooms.keptByServer Inv)).
  - exact rooms_kept_refl.
  - exact rooms_kept_trans.
  - intros s0 H. exact H.
  - unfold Rooms.keptByServer. intros s1 s2 s3. apply rooms_kept_trans.
  - exact rooms_keptByServer_liftP.
  - intros s0 f H. exact H.
  - intros s0 H. exact H.
  - intros. apply rooms_keptByServer_liftG.
  - intros. apply rooms_keptByServer_liftG.
  - intros. apply rooms_keptByServer_liftG.
  - intros s0 s1 Hr _. now apply rooms_kept_same.
  - intros c now s0. now apply rooms_kept_same.
  - exact rooms_kept_addPlayer.
  - exact rooms_kept_removeClient.
  - exact rooms_kept_removePlayer.
  - exact rooms_kept_togglePlayerReady.
  - exact rooms_kept_updateHeartbeat.
  - exact rooms_kept_await.
Qed.

(** A new room without a host keeps it as well. *)
Hypothesis Inv_createRoom : forall now random rooms room rooms',
  RoomCodes.createRoom now random None rooms = inr (room, rooms') ->
  Inv rooms -> Inv rooms'.

Lemma rooms_kept_requestRoom env random :
  keeps (Rooms.keptByServer Inv) (Server.requestRoom env random).
Proof.
  intros s0. unfold Server.requestRoom, Rooms.keptByServer, Rooms.kept.
  cbn [modify state_of fst].
  destruct (RoomCodes.createRoom _ _ _ _) as [e | [room rooms']] eqn:E;
    [auto|].
  simpl. now apply Inv_createRoom with (1 := E).
Qed.

Lemma rooms_kept_run env es :
  keeps (Rooms.keptByServer Inv) (Server.run env es).
Proof.
  apply (Rel_run (Rooms.kept Inv) (Rooms.keptByServer Inv)).
  - exact rooms_kept_refl.
  - exact rooms_kept_trans.
  - intros s0 H. exact H.
  - unfold Rooms.keptByServer. intros s1 s2 s3. apply rooms_kept_trans.
  - exact rooms_keptByServer_liftP.
  - intros s0 f H. exact H.
  - intros s0 H. exact H.
  - intros. apply rooms_keptByServer_liftG.
  - intros. apply rooms_keptByServer_liftG.
  - intros. apply rooms_keptByServer_liftG.
  - intros s0 s1 Hr _. now apply rooms_kept_same.
  - intros c now s0. now apply rooms_kept_same.
  - exact rooms_kept_addPlayer.
  - exact rooms_kept_removeClient.
  - exact rooms_kept_removePlayer.
  - exact rooms_kept_togglePlayerReady.
  - exact rooms_kept_updateHeartbeat.
  - exact rooms_kept_await.
  - exact rooms_kept_requestRoom.
Qed.

End RoomsOfTheServer.

Section RoomsOfTheRunningServer.
Import PlayerManager MessageProtocol.

Lemma hostIsMember_createRoom now random rooms room rooms' :
  RoomCodes.createRoom now random None rooms = inr (room, rooms') ->
  Rooms.hostIsMember rooms -> Rooms.hostIsMember rooms'.
Proof.
  unfold RoomCodes.createRoom.
  destruct (RoomCodes.generateRoomCode random rooms) as [e | code];
    [discriminate|].
  intros E H. injection E as <- <-.
  apply hostIsMember_set; [exact H | exact I].
Qed.

(** X28.  Whatever the events, the host of every room of the server is one
    of its players if that was so at the start, as in a new server:
    a join makes a room without a host, [POST /rooms] asks for none,
    and the player who leaves stops being the host.  Unless a room
    is created over HTTP, which makes a room that is empty until
    someone joins it, no room is left without a player or a
    connection either, if there was none. *)
Theorem the_rooms_of_the_server_stay_in_order env es s :
  Rooms.hostIsMember (roomManager (playerManager s)) ->
  let s' := state_of (Server.run env es s) in
  Rooms.hostIsMember (roomManager (playerManager s')) /\
  (Server.noRoomRequest es = true ->
   Rooms.noEmptyRoom (roomManager (playerManager s)) ->
   Rooms.noEmptyRoom (roomManager (playerManager s'))).
Proof.
  intros H. cbv zeta. split.
  - revert H. apply (rooms_kept_run Rooms.hostIsMember).
    + intros code c rooms. apply hostIsMember_change.
    + exact hostIsMember_createRoom.
  - intros Hes. apply (rooms_kept_run_without_rooms Rooms.noEmptyRoom).
    + intros code c rooms. apply noEmptyRoom_change.
    + exact Hes.
Qed.

End RoomsOfTheRunningServer.

(* ===================================================================== *)
(** ** Pings and countdowns *)
(* ===================================================================== *)

Section Ticks.
Import GameState PlayerManager MessageProtocol Reply Audience Heartbeat.

Lemma forEach_ping now l : forall s,
  forEach (fun clientId =>
             bind get (fun s' =>
               if isOpen clientId s' then send clientId (ping now) else ret tt))
          l s
  = (s, map (deliver (ping now)) (filter (fun c => isOpen c s) l), inr tt).
Proof.
  induction l as [|c l IH]; intros s; simpl; [reflexivity|].
  unfold bind at 1. rewrite bind_get_eq.
  destruct (isOpen c s); unfold send, emit, ret; rewrite IH; reflexivity.
Qed.

(** X29.  [sendHeartbeatPings] sends one ping, with the time of the tick, to
    every registered connection whose socket is open, in the order of
    the registry, and changes nothing. *)
Theorem sendHeartbeatPings_pings_the_open_connections now s :
  sendHeartbeatPings now s
  = (s, map (deliver (ping now)) (openClients s), inr tt).
Proof.
  unfold sendHeartbeatPings. rewrite bind_get_eq. apply forEach_ping.
Qed.

Lemma bind_put_eq (S O B : Type) (x : S) (k : unit -> M S O B) s :
  bind (put x) k s = k tt x.
Proof. unfold bind, put. now destruct (k tt x) as [[s2 o2] r]. Qed.

Lemma handleStartGame_refused env c s :
  phase (GameManager.gameState (gameManager s)) <> Waiting \/
  getPlayerCount (playerManager s) < 2 ->
  exists e, handleStartGame env c s = (s, [], inl e).
Proof.
  intros Hno. unfold handleStartGame. rewrite bind_get_eq.
  unfold GameManager.getGameState.
  destruct (phase (GameManager.gameState (gameManager s))) eqn:Hph;
    simpl; try (eexists; reflexivity).
  destruct Hno as [Hno | Hno]; [congruence|].
  destruct (Nat.ltb_spec (getPlayerCount (playerManager s)) 2);
    [eexists; reflexivity | lia].
Qed.

(** X30.  The callback of the countdown that [toggle_ready] started does
    not throw.  If the server is not waiting any more when the
    countdown expires, or has fewer than two registered players,
    [handleStartGame] fails before it changes anything, and nothing
    handles its failure: the countdown is used up, nothing is sent to
    anyone and nothing else changes on the server. *)
Theorem expired_countdown_may_do_nothing env s c rest :
  startTimers s = c :: rest ->
  let r := GameServer.fireStartGame env s in
  let s0 := {| gameManager := gameManager s; playerManager := playerManager s;
               startTimers := rest |} in
  result_of r = inr tt /\
  (phase (GameManager.gameState (gameManager s)) <> Waiting \/
   getPlayerCount (playerManager s) < 2 ->
   r = (s0, [], inr tt)).
Proof.
  intros Ht. cbv zeta. unfold GameServer.fireStartGame.
  rewrite bind_get_eq, Ht, bind_put_eq.
  split.
  - unfold try_catch, result_of.
    destruct (handleStartGame env c _) as [[s1 o1] [e|[]]]; reflexivity.
  - intros Hno. unfold try_catch.
    match goal with
    | |- context [handleStartGame env c ?x] =>
        destruct (handleStartGame_refused env c x Hno) as [e ->]
    end.
    reflexivity.
Qed.

End Ticks.

(* ===================================================================== *)
(** ** The lobby of the examples, once more *)
(* ===================================================================== *)

Section MoreExamples.
Import GameState PlayerManager MessageProtocol GameServer Reply Scenario.

Lemma removeClient_witness :
  let r := removeClient "c1" (playerManager lobby) in
  result_of r = inr tt /\
  getClientById "c1" (state_of r) = None /\
  isOpen "c1" (state_of r) = false /\
  lookupPlayer "ann" (state_of r) = None.
Proof.
  edestruct (removeClient_takes_the_last_connection_s_player
               "c1" (playerManager lobby)) as (H1 & H2 & H3 & _ & H5).
  - reflexivity.
  - reflexivity.
  - cbv zeta. split; [exact H1|]. split; [exact H2|]. split; [exact H3|].
    exact H5.
Defined.

Lemma handleDisconnect_witness :
  let s' := state_of (GameServer.handleDisconnect env "c1" lobby) in
  getClientById "c1" (playerManager s') = None /\
  lookupPlayer "ann" (playerManager s') = None /\
  gameManager s' = gameManager lobby.
Proof.
  eapply (handleDisconnect_leaves_the_coordinator_as_it_was env "c1" lobby).
  - reflexivity.
  - reflexivity.
  - reflexivity.
Defined.

Lemma cleanupStaleConnections_witness :
  let s := state_of (updateHeartbeat 50000 "c3" (playerManager lobby)) in
  let r := Heartbeat.cleanupStaleConnections 61000 s in
  getClientById "c1" (state_of r) = None /\
  exists client,
    getClientById "c3" (state_of r) = Some client /\
    (61000 - Client.lastHeartbeat client < Heartbeat.heartbeatTimeout)%Z.
Proof.
  cbv zeta. split; [reflexivity|].
  eexists. split; [vm_compute; reflexivity|].
  eapply (cleanupStaleConnections_leaves_no_stale_connection 61000%Z
            (state_of (updateHeartbeat 50000 "c3" (playerManager lobby))) "c3").
  - reflexivity.
  - vm_compute. reflexivity.
Defined.

Lemma togglePlayerReady_tells_every_room_witness :
  let r := togglePlayerReady 1000 "ann" (playerManager lobby) in
  sent_of r
  = map (Audience.deliver (Audience.everyPlayer 1000 (state_of r)))
        (openClients (state_of r)).
Proof.
  eapply (togglePlayerReady_tells_every_room 1000%Z "ann" (playerManager lobby)).
  - reflexivity.
  - reflexivity.
Defined.

Lemma rejoining_player_witness :
  let s' := state_of (addPlayer env "c3" (Some "ann") (Some "ann") None
                        (Some "123") (playerManager lobby)) in
  (exists a' player,
     lookupPlayer "ann" s' = Some (a', player) /\
     Player.roomCode player = Some "123" /\
     Player.clientId player = Some "c3") /\
  ~ In "ann" (RoomManager.listPlayers "123" (roomManager s')).
Proof.
  eapply (rejoining_player_is_not_among_the_players_of_the_room
            env "c3" (Some "ann") (Some "ann") None (Some "123")
            (playerManager lobby)).
  - reflexivity.
  - reflexivity.
  - reflexivity.
  - reflexivity.
  - reflexivity.
  - reflexivity.
  - reflexivity.
  - reflexivity.
Defined.

Lemma rejected_frame_witness :
  exists e,
    MessageProtocol.handleMessage env "c3" None lobby
    = (lobby, errorTo (now env) "c3" e lobby, inl e).
Proof.
  apply (rejected_frame_changes_nothing env "c3" None lobby).
  intros message H. discriminate H.
Defined.

Lemma connection_without_a_player_witness :
  MessageProtocol.handleMessage env "c3" (Some (vote "ann")) lobby
  = (lobby,
     errorTo (now env) "c3" "Authentication required for this message type" lobby,
     inl "Authentication required for this message type").
Proof.
  edestruct (connection_without_a_player_is_refused
               env "c3" (vote "ann") lobby) as [_ H].
  - reflexivity.
  - apply fresh_envelope.
  - reflexivity.
  - reflexivity.
  - apply H. vm_compute. tauto.
Defined.

Lemma force_phase_transition_witness :
  let r := MessageProtocol.handleMessage env "c2"
             (Some (envelope "force_phase_transition"
                      [("phase", Js.VStr "results");
                       ("adminKey", Js.VStr "not the key")])) lobby in
  result_of r = inr tt /\
  phase (GameManager.gameState (gameManager (state_of r))) = ResultsPhase.
Proof.
  eapply (force_phase_transition_asks_for_no_key env "c2"
            (envelope "force_phase_transition"
               [("phase", Js.VStr "results");
                ("adminKey", Js.VStr "not the key")]) lobby _ _ _ "results").
  - reflexivity.
  - reflexivity.
  - apply fresh_envelope.
  - reflexivity.
  - reflexivity.
  - reflexivity.
  - reflexivity.
  - intros _. eexists. reflexivity.
Defined.

Lemma handleStartGame_witness :
  let r := handleStartGame env "c1" lobby in
  phase (GameManager.gameState (gameManager (state_of r))) = Question /\
  imposter (GameManager.gameState (gameManager (state_of r))) = Some "ann".
Proof.
  destruct (handleStartGame_picks_a_registered_player env "c1" lobby)
    as (_ & _ & H).
  destruct (H eq_refl) as (_ & _ & Hq & _). split; [exact Hq | reflexivity].
Defined.

Lemma submit_answer_witness :
  MessageProtocol.handleMessage env "c1"
    (Some (envelope "submit_answer" [("answer", Js.VStr "a lighthouse")])) lobby
  = (lobby,
     errorTo (now env) "c1"
       "Answers can only be submitted during question or discussion phase" lobby,
     inl "Answers can only be submitted during question or discussion phase").
Proof.
  eapply (submit_answer_never_moves_the_round env "c1"
            (envelope "submit_answer" [("answer", Js.VStr "a lighthouse")]) lobby).
  - reflexivity.
  - reflexivity.
  - apply fresh_envelope.
  - reflexivity.
  - reflexivity.
  - reflexivity.
  - reflexivity.
Defined.

Lemma new_game_witness :
  MessageProtocol.handleMessage env "c1" (Some (envelope "new_game" [])) lobby
  = (lobby,
     errorTo (now env) "c1" "New game can only be started from results phase" lobby,
     inl "New game can only be started from results phase").
Proof.
  eapply (new_game_is_taken_from_the_results_only env "c1"
            (envelope "new_game" []) lobby).
  - reflexivity.
  - apply fresh_envelope.
  - reflexivity.
  - reflexivity.
Defined.

Lemma join_and_leave_witness :
  let s' := state_of (handleLeave env "c1"
                        {| Client.playerId := Some "ann";
                           Client.playerData := None;
                           Client.lastHeartbeat := 1000;
                           Client.connectedAt := 1000 |} lobby) in
  GameState.players (GameManager.gameState (gameManager s'))
  = getActivePlayers (playerManager s') /\
  lookupPlayer "ann" (playerManager s') = None.
Proof.
  destruct (join_and_leave_hand_the_players_to_the_coordinator
              env "c1" None
              {| Client.playerId := Some "ann"; Client.playerData := None;
                 Client.lastHeartbeat := 1000; Client.connectedAt := 1000 |}
              lobby) as [_ H].
  destruct (H "ann" eq_refl) as (_ & H1 & H2). split; [exact H1 | exact H2].
Defined.

Lemma no_two_connections_witness :
  Connections.onePerPlayer
    (playerManager
       (state_of (Server.run env
                    (map Server.Socket arrivals ++
                     [Server.RoomRequest (fun _ => 5); Server.HeartbeatDue])
                    GameServer.constructor))).
Proof.
  apply (no_two_connections_have_the_same_player env
           (map Server.Socket arrivals ++
            [Server.RoomRequest (fun _ => 5); Server.HeartbeatDue])
           GameServer.constructor).
  constructor.
Defined.

Lemma the_rooms_of_the_server_witness :
  let s' := state_of (Server.run env
                        (map Server.Socket arrivals ++ [Server.HeartbeatDue])
                        GameServer.constructor) in
  Rooms.hostIsMember (roomManager (playerManager s')) /\
  Rooms.noEmptyRoom (roomManager (playerManager s')).
Proof.
  destruct (the_rooms_of_the_server_stay_in_order env
              (map Server.Socket arrivals ++ [Server.HeartbeatDue])
              GameServer.constructor) as [H1 H2].
  - intros code room [].
  - split; [exact H1|]. apply H2; [reflexivity|]. intros code room [].
Defined.

Lemma expired_countdown_witness :
  let s := after (arrivals ++
                  [ receive "c1" (envelope "toggle_ready" []);
                    receive "c2" (envelope "toggle_ready" []);
                    receive "c1" (force "voting") ]) in
  GameServer.fireStartGame env s
  = ({| gameManager := gameManager s; playerManager := playerManager s;
        startTimers := [] |}, [], inr tt).
Proof.
  edestruct (expired_countdown_may_do_nothing env
               (after (arrivals ++
                       [ receive "c1" (envelope "toggle_ready" []);
                         receive "c2" (envelope "toggle_ready" []);
                         receive "c1" (force "voting") ])) "c2" [])
    as [_ H].
  - vm_compute. reflexivity.
  - apply H. left. vm_compute. discriminate.
Defined.

End MoreExamples.
